(** * cub-to-obj: the conversion pipeline of [cub-to-obj.js]

    A shallow embedding of the functions of [cub-to-obj.js] that turn the
    bytes of a Cube World [.cub] file into the text of an [.obj] and an
    [.mtl] file, and the properties of those functions.

    Conventions of the embedding:
    - a [Buffer] is a [list byte];
    - a JavaScript number is an IEEE 754 binary64 value, a [spec_float]
      with the operations of [SpecFloat]: the division of a colour byte by
      255, and the sums and products of [pointToCube] and [xyzToIndex] in
      the module [Binary64];
    - where the program counts (loop variables, array positions, colour
      indexes, the cube counter of a run) the numbers are integers in a
      [Z]: the functions on [Z] compute what the functions of [Binary64] do
      as long as the magnitudes stay below 2^53 (the lemmas
      [pointToCube_numbers] and [xyzToIndex_numbers]), which the positions
      of an array in memory do;
    - a plain object used as a dictionary is an association list in creation
      order, and [Object.values] applies the property order of the language
      (integer keys first, ascending; then the other keys in creation
      order);
    - a call that can throw, not come back, or that leaves the modelled part
      of the platform returns a [completion]. *)

From Stdlib Require Import ZArith NArith PeanoNat String Ascii Strings.Byte Bool Lia List.
From Stdlib Require Import Decimal DecimalString DecimalN DecimalZ SpecFloat.
From Stdlib Require Import Permutation Sorted.
Import ListNotations.

Local Open Scope string_scope.
Local Open Scope nat_scope.
Local Open Scope list_scope.

(** ** Completions *)

Inductive error : Type :=
| ERR_BUFFER_OUT_OF_BOUNDS   (* RangeError: attempt to access memory outside buffer bounds *)
| ERR_OUT_OF_RANGE           (* RangeError: the value of "offset" is out of range *)
| ERR_FRACTION_DIGITS.       (* RangeError: toFixed() digits argument must be between 0 and 100 *)

Inductive completion (A : Type) : Type :=
| Normal (a : A)      (* the call returns [a] *)
| Throw (e : error)   (* the call throws [e] *)
| NoResult.           (* the loop does not end, or the platform call is outside the modelled part *)

Arguments Normal {A} a.
Arguments Throw {A} e.
Arguments NoResult {A}.

Definition bind {A B : Type} (c : completion A) (k : A -> completion B) : completion B :=
  match c with
  | Normal a => k a
  | Throw e => Throw e
  | NoResult => NoResult
  end.

Notation "'let*' x ':=' c 'in' k" := (bind c (fun x => k))
  (at level 10, x name, c at level 100, k at level 200).

Fixpoint mapM {A B : Type} (f : A -> completion B) (l : list A) : completion (list B) :=
  match l with
  | [] => Normal []
  | a :: l' =>
      let* b := f a in
      let* bs := mapM f l' in
      Normal (b :: bs)
  end.

(** ** The platform: strings, numbers, arrays, objects, buffers *)

Module JS.

(** The line feed of a template literal. *)
Definition nl : string := String "010"%char EmptyString.

(** [Array.prototype.join]. *)
Fixpoint join (sep : string) (l : list string) : string :=
  match l with
  | [] => ""
  | [s] => s
  | s :: l' => (s ++ sep ++ join sep l')%string
  end.

(** A value read out of an array of numbers: a number, or [undefined] when
    the position holds nothing. *)
Inductive value : Type :=
| VNum (z : Z)
| VUndef.

Definition value_eqb (a b : value) : bool :=
  match a, b with
  | VNum x, VNum y => Z.eqb x y
  | VUndef, VUndef => true
  | _, _ => false
  end.

(** [ToString] of an integer number and of [undefined]. The integer is
    written with all its decimal digits, as the language writes the
    integers of a magnitude below 2^53. *)
Definition string_of_Z (z : Z) : string := NilZero.string_of_int (Z.to_int z).

Definition ToString (v : value) : string :=
  match v with
  | VNum z => string_of_Z z
  | VUndef => "undefined"
  end.

(** *** Arrays *)

(** [arr[i]]: [undefined] outside the array. *)
Definition arr_get (arr : list value) (i : Z) : value :=
  if (i <? 0)%Z then VUndef else nth (Z.to_nat i) arr VUndef.

(** [arr[i] = v]: replaces inside the array; at or past the end the array
    grows, the positions in between reading as [undefined]. *)
Fixpoint arr_set (arr : list value) (i : nat) (v : value) : list value :=
  match i, arr with
  | O, [] => [v]
  | O, _ :: arr' => v :: arr'
  | S i', [] => VUndef :: arr_set [] i' v
  | S i', a :: arr' => a :: arr_set arr' i' v
  end.

(** *** Ordinary objects used as dictionaries

    The own properties, in the order in which they were created. *)
Definition object (V : Type) : Type := list (string * V).

Definition empty {V : Type} : object V := [].

(** [o[k]]: [None] stands for [undefined]. The keys that the program uses
    are hex strings, decimal numbers and the word undefined; none of them
    names a property that a plain object inherits. *)
Fixpoint get {V : Type} (o : object V) (k : string) : option V :=
  match o with
  | [] => None
  | (k', v) :: o' => if String.eqb k' k then Some v else get o' k
  end.

(** [o[k] = v]: an existing property keeps its place, a new one is created
    after all the others. *)
Fixpoint set {V : Type} (o : object V) (k : string) (v : V) : object V :=
  match o with
  | [] => [(k, v)]
  | (k', v') :: o' =>
      if String.eqb k' k then (k', v) :: o' else (k', v') :: set o' k v
  end.

(** An array index is a property key that is the canonical decimal writing
    of an integer between 0 and 2^32 - 2. *)
Definition array_index (k : string) : option N :=
  match NilZero.uint_of_string k with
  | Some d =>
      let n := N.of_uint d in
      if String.eqb (NilZero.string_of_uint (N.to_uint n)) k && (n <? 4294967295)%N
      then Some n else None
  | None => None
  end.

Definition is_index (k : string) : bool :=
  match array_index k with Some _ => true | None => false end.

Definition index_of (k : string) : N :=
  match array_index k with Some n => n | None => 0%N end.

(** Insertion of a property among properties sorted by ascending index. *)
Fixpoint insert_by_index {V : Type} (p : string * V) (l : list (string * V)) : list (string * V) :=
  match l with
  | [] => [p]
  | q :: l' =>
      if (index_of (fst p) <=? index_of (fst q))%N then p :: q :: l'
      else q :: insert_by_index p l'
  end.

Definition sort_by_index {V : Type} (l : list (string * V)) : list (string * V) :=
  fold_right insert_by_index [] l.

(** [OrdinaryOwnPropertyKeys]: the array indexes in ascending numeric order,
    then the other string keys in creation order. *)
Definition own_properties {V : Type} (o : object V) : list (string * V) :=
  sort_by_index (filter (fun p => is_index (fst p)) o)
  ++ filter (fun p => negb (is_index (fst p))) o.

(** [Object.values]. *)
Definition values {V : Type} (o : object V) : list V := map snd (own_properties o).

(** *** Buffers *)

Definition Buffer : Type := list byte.

(** [buf.slice(start, end)] for non-negative integers. *)
Definition slice (buf : Buffer) (start stop : nat) : Buffer :=
  firstn (stop - start) (skipn start buf).

(** [buf.slice(start)]. *)
Definition slice_from (buf : Buffer) (start : nat) : Buffer := skipn start buf.

Definition hex_digit (n : N) : ascii :=
  match n with
  | 0 => "0" | 1 => "1" | 2 => "2" | 3 => "3" | 4 => "4" | 5 => "5" | 6 => "6" | 7 => "7"
  | 8 => "8" | 9 => "9" | 10 => "a" | 11 => "b" | 12 => "c" | 13 => "d" | 14 => "e"
  | _ => "f"
  end%N%char.

(** [buf.toString('hex')]: two lower-case digits per byte. *)
Fixpoint toString_hex (buf : Buffer) : string :=
  match buf with
  | [] => ""
  | b :: buf' =>
      String (hex_digit (Byte.to_N b / 16)) (String (hex_digit (Byte.to_N b mod 16)) (toString_hex buf'))
  end.

Definition byte_at (buf : Buffer) (i : nat) : N := Byte.to_N (nth i buf x00).

(** [buf.readUInt32LE(offset)]: the first and the last byte of the field
    are read; when one of them is missing a [RangeError] is thrown, whose
    code depends on whether the buffer could hold a field at all. *)
Definition readUInt32LE (buf : Buffer) (offset : nat) : completion N :=
  if (List.length buf <? offset + 4)%nat then
    if (List.length buf <? 4)%nat then Throw ERR_BUFFER_OUT_OF_BOUNDS else Throw ERR_OUT_OF_RANGE
  else
    Normal (byte_at buf offset
            + byte_at buf (offset + 1) * 2 ^ 8
            + byte_at buf (offset + 2) * 2 ^ 16
            + byte_at buf (offset + 3) * 2 ^ 24)%N.

(** *** Numbers with a fractional part: binary64 *)

Definition prec : Z := 53.
Definition emax : Z := 1024.

(** The number that an integer literal or a byte denotes. *)
Definition number_of_N (n : N) : spec_float := binary_normalize prec emax (Z.of_N n) 0 false.

(** The number that an integer denotes: the nearest binary64 value, the
    one with the even significand of two at equal distance. *)
Definition number_of_Z (z : Z) : spec_float := binary_normalize prec emax z 0 false.

(** [x + y], [x * y] and [x / y]. *)
Definition num_add (x y : spec_float) : spec_float := SFadd prec emax x y.
Definition num_mul (x y : spec_float) : spec_float := SFmul prec emax x y.
Definition div (x y : spec_float) : spec_float := SFdiv prec emax x y.

Definition is_zero (x : spec_float) : bool :=
  match x with S754_zero _ => true | _ => false end.

Definition string_of_N (n : N) : string := NilZero.string_of_uint (N.to_uint n).

Fixpoint zeros (k : nat) : string :=
  match k with O => "" | S k' => String "0" (zeros k') end.

(** The digits of [n] with a point before the last [f] of them, zeros
    added on the left so that a digit stands before the point. *)
Definition fixed_digits (n : N) (f : nat) : string :=
  let m := string_of_N n in
  match f with
  | O => m
  | _ =>
      let m' := if (String.length m <=? f)%nat then (zeros (f + 1 - String.length m) ++ m)%string else m in
      let k := String.length m' in
      (substring 0 (k - f) m' ++ "." ++ substring (k - f) f m')%string
  end.

(** The integer [n] for which [n / 10^f] is nearest to [m * 2^e], the
    larger one of two. *)
Definition nearest_scaled (m : positive) (e : Z) (f : nat) : N :=
  let num := (Npos m * 10 ^ N.of_nat f)%N in
  match e with
  | Zneg p => let den := (2 ^ Npos p)%N in ((2 * num + den) / (2 * den))%N
  | _ => (num * 2 ^ Z.to_N e)%N
  end.

(** Whether [m * 2^e >= 10^21]. *)
Definition at_least_1e21 (m : positive) (e : Z) : bool :=
  match e with
  | Zneg p => (10 ^ 21 * 2 ^ Npos p <=? Npos m)%N
  | _ => (10 ^ 21 <=? Npos m * 2 ^ Z.to_N e)%N
  end.

(** [x.toFixed(fractionDigits)]. At magnitudes of 10^21 and more the
    language falls back on the general number-to-string conversion, which
    is not modelled. *)
Definition toFixed (x : spec_float) (fractionDigits : nat) : completion string :=
  if (100 <? fractionDigits)%nat then Throw ERR_FRACTION_DIGITS else
  match x with
  | S754_nan => Normal "NaN"
  | S754_infinity false => Normal "Infinity"
  | S754_infinity true => Normal "-Infinity"
  | S754_zero _ => Normal (fixed_digits 0 fractionDigits)
  | S754_finite s m e =>
      if at_least_1e21 m e then NoResult
      else Normal ((if s then "-" else "") ++ fixed_digits (nearest_scaled m e fractionDigits) fractionDigits)%string
  end.

End JS.

Import JS.

(** ** The program *)

(** Tool version. *)
Definition version : string := "0.0.1".

(** Precision to use when saving to OBJ and MTL files. *)
Definition precision : nat := 6.

(** The faces that make up a cube assuming the first vertex is 1. *)
Definition defaultCubeFaces : list (list Z) :=
  [ [1; 2; 4; 3];
    [3; 4; 8; 7];
    [7; 8; 6; 5];
    [5; 6; 2; 1];
    [3; 7; 5; 1];
    [8; 4; 2; 6] ]%Z.

(** *** chunkBuffer *)

(** The loop [for (let i = 0; i < len; i += chunkSize) out.push(...)], from
    position [i] on; every turn takes one unit of [fuel]. *)
Fixpoint chunkBuffer_loop (fuel : nat) (buffer : Buffer) (chunkSize : nat)
    (i : nat) (out : list Buffer) : completion (list Buffer) :=
  if i <? length buffer then
    match fuel with
    | O => NoResult
    | S fuel' =>
        chunkBuffer_loop fuel' buffer chunkSize (i + chunkSize)
          (out ++ [slice buffer i (i + chunkSize)])
    end
  else Normal out.

(** A turn of the loop that goes forward consumes at least one byte, so the
    length of the buffer is fuel enough; with a chunk size of 0 and a buffer
    that is not empty the loop never ends. *)
Definition chunkBuffer (buffer : Buffer) (chunkSize : nat) : completion (list Buffer) :=
  chunkBuffer_loop (length buffer) buffer chunkSize 0 [].

(** *** matName and generateMTL *)

Definition matName (index : value) (name : string) : string :=
  (name ++ "-mat-" ++ ToString index)%string.

(** [l.map((a, i) => f(a, i))]. *)
Fixpoint mapi_from {A B : Type} (f : A -> nat -> B) (l : list A) (i : nat) : list B :=
  match l with
  | [] => []
  | a :: l' => f a i :: mapi_from f l' (S i)
  end.

Definition mapi {A B : Type} (f : A -> nat -> B) (l : list A) : list B := mapi_from f l 0.

(** [(x === 0 ? 0 : x / 255).toFixed(precision)] on an element [x] of
    [Array.from(color)]. *)
Definition component (x : byte) : completion string :=
  let x := number_of_N (Byte.to_N x) in
  toFixed (if is_zero x then number_of_N 0 else div x (number_of_N 255)) precision.

Definition zeroToOne (colors : list Buffer) : completion (list (list string)) :=
  mapM (fun color => mapM component color) colors.

Definition material_block (name : string) (material : list string) (i : nat) : string :=
  ("newmtl " ++ matName (VNum (Z.of_nat i)) name ++ nl ++ "Kd " ++ join " " material ++ nl)%string.

Definition generateMTL (colors : list Buffer) (name : string) : completion string :=
  let* zeroToOne := zeroToOne colors in
  Normal ("# CUB to OBJ v" ++ version ++ nl
          ++ join nl (mapi (material_block name) zeroToOne))%string.

(** *** Points and cubes

    First on integers, the sums and the product exact; then, in the module
    [Binary64], on the numbers of the language. The two agree as long as
    no sum or product is rounded. *)

Definition point : Type := (Z * Z * Z)%type.

Definition addX (p : point) (x : Z) : point := let '(p0, p1, p2) := p in (p0 + x, p1, p2)%Z.
Definition addY (p : point) (y : Z) : point := let '(p0, p1, p2) := p in (p0, p1 + y, p2)%Z.
Definition addZ (p : point) (z : Z) : point := let '(p0, p1, p2) := p in (p0, p1, p2 + z)%Z.

Record cube : Type := { vertices : list point; faces : list (list Z) }.

Definition pointToCube (p : point) (faceOffset : Z) : cube :=
  let vertices :=
    [ p;
      addX p 1;
      addY p 1;
      addY (addX p 1) 1;
      addZ p 1;
      addZ (addX p 1) 1;
      addZ (addY p 1) 1;
      addZ (addY (addX p 1) 1) 1 ] in
  let offset := (faceOffset * Z.of_nat (length vertices))%Z in
  let faces := map (fun face => map (fun value => (value + offset)%Z) face) defaultCubeFaces in
  {| vertices := vertices; faces := faces |}.

Definition xyzToIndex (x y z width depth height : Z) : Z := (x + width * (y + depth * z))%Z.

(** The same functions on the numbers of the language: every sum and
    product is rounded to binary64. *)
Module Binary64.

Definition number : Type := spec_float.

Definition point : Type := (number * number * number)%type.

Definition addX (p : point) (x : number) : point := let '(p0, p1, p2) := p in (num_add p0 x, p1, p2).
Definition addY (p : point) (y : number) : point := let '(p0, p1, p2) := p in (p0, num_add p1 y, p2).
Definition addZ (p : point) (z : number) : point := let '(p0, p1, p2) := p in (p0, p1, num_add p2 z).

Record cube : Type := { vertices : list point; faces : list (list number) }.

Definition defaultCubeFaces : list (list number) := map (map number_of_Z) defaultCubeFaces.

Definition pointToCube (p : point) (faceOffset : number) : cube :=
  let one := number_of_Z 1 in
  let vertices :=
    [ p;
      addX p one;
      addY p one;
      addY (addX p one) one;
      addZ p one;
      addZ (addX p one) one;
      addZ (addY p one) one;
      addZ (addY (addX p one) one) one ] in
  let offset := num_mul faceOffset (number_of_Z (Z.of_nat (length vertices))) in
  let faces := map (fun face => map (fun value => num_add value offset) face) defaultCubeFaces in
  {| vertices := vertices; faces := faces |}.

Definition xyzToIndex (x y z width depth height : number) : number :=
  num_add x (num_mul width (num_add y (num_mul depth z))).

End Binary64.

(** *** generateOBJ *)

Record group : Type := { colorIndex : value; points : list point }.

(** The values of a loop variable that counts from 0 up to [n]. *)
Definition range (n : nat) : list Z := map Z.of_nat (seq 0 n).

(** The body of the innermost loop. The two statements that create the
    entry of a colour and push the point on it are one update here: the
    entry read back by the second is the one found or just created by the
    first. *)
Definition collect (width depth height : nat) (colorIndicies : list value)
    (byColor : object group) (x y z : Z) : object group :=
  let color :=
    arr_get colorIndicies
      (xyzToIndex x y z (Z.of_nat width) (Z.of_nat depth) (Z.of_nat height)) in
  if value_eqb color (VNum (-1)) then byColor
  else
    let g := match get byColor (ToString color) with
             | None => {| colorIndex := color; points := [] |}
             | Some g => g
             end in
    set byColor (ToString color)
      {| colorIndex := colorIndex g; points := points g ++ [(x, y, z)] |}.

(** The three nested loops that fill [byColor]. *)
Definition byColor_of (width depth height : nat) (colorIndicies : list value) : object group :=
  fold_left (fun byColor x =>
    fold_left (fun byColor y =>
      fold_left (fun byColor z => collect width depth height colorIndicies byColor x y z)
        (range height) byColor)
      (range depth) byColor)
    (range width) empty.

(** [points.map(point => pointToCube(point, cubeIndex++))], with the
    counter it leaves behind. *)
Fixpoint cubes_of (points : list point) (cubeIndex : Z) : list cube * Z :=
  match points with
  | [] => ([], cubeIndex)
  | p :: points' =>
      let c := pointToCube p cubeIndex in
      let '(cs, cubeIndex') := cubes_of points' (cubeIndex + 1)%Z in
      (c :: cs, cubeIndex')
  end.

Definition vertex_line (v : point) : string :=
  let '(x, y, z) := v in
  ("v " ++ join " " [string_of_Z x; string_of_Z y; string_of_Z z] ++ nl)%string.

Definition face_line (f : list Z) : string :=
  ("f " ++ join " " (map string_of_Z f) ++ nl)%string.

Definition object_text (name : string) (colorIndex : value) (cubes : list cube) : string :=
  let allVertices := concat (map vertices cubes) in
  let allFaces := concat (map faces cubes) in
  ("o " ++ name ++ "-obj-" ++ ToString colorIndex ++ nl
   ++ join "" (map vertex_line allVertices)
   ++ "usemtl " ++ matName colorIndex name ++ nl
   ++ "s off" ++ nl
   ++ join "" (map face_line allFaces))%string.

(** The callback of [Object.values(byColor).map(...)] on one group: the
    cubes it builds, the text it returns, and the counter afterwards. *)
Definition object_of (name : string) (g : group) (cubeIndex : Z) : (list cube * string) * Z :=
  let '(cubes, cubeIndex') := cubes_of (points g) cubeIndex in
  ((cubes, object_text name (colorIndex g) cubes), cubeIndex').

Fixpoint objects_of (name : string) (groups : list group) (cubeIndex : Z) : list (list cube * string) :=
  match groups with
  | [] => []
  | g :: groups' =>
      let '(o, cubeIndex') := object_of name g cubeIndex in
      o :: objects_of name groups' cubeIndex'
  end.

Definition generateOBJ (width depth height : nat) (colorIndicies : list value) (name : string) : string :=
  let byColor := byColor_of width depth height colorIndicies in
  let objects := map snd (objects_of name (values byColor) 0) in
  ("# CUB to OBJ v" ++ version ++ nl ++ "mtllib " ++ name ++ ".mtl" ++ nl
   ++ join nl objects)%string.

(** *** isolateColors *)

(** A property value [{ color, index }] of the dictionary. *)
Record entry : Type := { entry_color : Buffer; entry_index : Z }.

Record isolated : Type := { uniqueColors : list Buffer; colorIndicies : list value }.

Definition blackKey : string := "000000".

(** The state of the [forEach]: the dictionary, the index array and the
    next free index. *)
Definition isolate_state : Type := (object entry * list value * Z)%type.

(** The callback of [inputColors.forEach((color, i) => ...)]. *)
Definition isolate_step (st : isolate_state) (color : Buffer) (i : nat) : isolate_state :=
  let '(uniqueColors, colorIndicies, index) := st in
  let key := toString_hex color in
  if String.eqb key blackKey then
    (uniqueColors, arr_set colorIndicies i (VNum (-1)), index)
  else
    match get uniqueColors key with
    | None =>
        (set uniqueColors key {| entry_color := color; entry_index := index |},
         arr_set colorIndicies i (VNum index),
         (index + 1)%Z)
    | Some existingColor =>
        (uniqueColors, arr_set colorIndicies i (VNum (entry_index existingColor)), index)
    end.

Fixpoint forEach_from {A St : Type} (f : St -> A -> nat -> St) (l : list A) (i : nat) (st : St) : St :=
  match l with
  | [] => st
  | a :: l' => forEach_from f l' (S i) (f st a i)
  end.

Definition isolate_run (inputColors : list Buffer) : isolate_state :=
  forEach_from isolate_step inputColors 0 (empty, [], 0%Z).

Definition isolateColors (inputColors : list Buffer) : isolated :=
  let '(uniqueColors, colorIndicies, _) := isolate_run inputColors in
  {| uniqueColors := map entry_color (values uniqueColors);
     colorIndicies := colorIndicies |}.

(** *** convertCub *)

Record converted : Type := { obj : string; mtl : string }.

Definition convertCub (data : Buffer) (name : string) : completion converted :=
  let* width := readUInt32LE data 0 in
  let* depth := readUInt32LE data 4 in
  let* height := readUInt32LE data 8 in
  let* colors := chunkBuffer (slice_from data 12) 3 in
  let r := isolateColors colors in
  let obj := generateOBJ (N.to_nat width) (N.to_nat depth) (N.to_nat height) (colorIndicies r) name in
  let* mtl := generateMTL (uniqueColors r) name in
  Normal {| obj := obj; mtl := mtl |}.

(** *** The command line: main and printHelp

    What the run does to the outside is a trace of events; what it asks of
    the outside (the arguments, the file system, the functions of [path])
    is a [platform]. A write asks the platform whether it fails, given the
    events so far. *)

Inductive failure : Type :=
| RangeFailure (e : error)          (* a [RangeError] of the conversion *)
| SystemFailure (code : string).    (* a system error of [fs], by its code *)

Inductive event : Type :=
| Stdout (line : string)            (* [console.log] *)
| Stderr (line : string)            (* [console.error] *)
| Written (path text : string).     (* [fs.writeFileSync(path, text, 'utf-8')] *)

(** How a run stops before the end of [main]. *)
Inductive stop : Type :=
| Exited (code : Z)                 (* [process.exit(code)] *)
| Uncaught (f : failure)            (* an exception that nothing catches *)
| Unending.                         (* no end *)

Record platform : Type := {
  script : string;                              (* [process.argv[1]] *)
  arguments : list string;                      (* [process.argv[2]], [process.argv[3]], ... *)
  existsSync : string -> bool;
  isFile : string -> bool;                      (* [fs.statSync(p).isFile()] of a path that exists *)
  isDirectory : string -> bool;                 (* [fs.statSync(p).isDirectory()] of a path that exists *)
  readFileSync : string -> Buffer + string;     (* the content, or the code of the error thrown *)
  writeFileSync : list event -> string -> string -> option string;
                                                (* the code of the error thrown, if any *)
  path_dirname : string -> string;
  path_resolve : string -> string;
  path_extname : string -> string;
  path_basename : string -> string;                  (* [path.basename(p)] *)
  path_basename_ext : string -> string -> string;    (* [path.basename(p, ext)] *)
  path_join : string -> string -> string
}.

(** A step of the run: from the events so far to the events after it, with
    a value, or with the way the run stops. *)
Definition proc (A : Type) : Type := list event -> list event * (A + stop).

Definition ret {A : Type} (a : A) : proc A := fun t => (t, inl a).

Definition and_then {A B : Type} (c : proc A) (k : A -> proc B) : proc B :=
  fun t => match c t with
           | (t', inl a) => k a t'
           | (t', inr s) => (t', inr s)
           end.

Notation "c1 ;; c2" := (and_then c1 (fun _ => c2)) (at level 61, right associativity).

Definition console_log (line : string) : proc unit := fun t => (t ++ [Stdout line], inl tt).
Definition console_error (line : string) : proc unit := fun t => (t ++ [Stderr line], inl tt).
Definition process_exit {A : Type} (code : Z) : proc A := fun t => (t, inr (Exited code)).

Definition fs_readFileSync (P : platform) (path : string) : proc Buffer :=
  fun t => match readFileSync P path with
           | inl content => (t, inl content)
           | inr code => (t, inr (Uncaught (SystemFailure code)))
           end.

Definition fs_writeFileSync (P : platform) (path text : string) : proc unit :=
  fun t => match writeFileSync P t path text with
           | None => (t ++ [Written path text], inl tt)
           | Some code => (t, inr (Uncaught (SystemFailure code)))
           end.

(** A call of a function of the conversion from [main]. *)
Definition call {A : Type} (c : completion A) : proc A :=
  fun t => match c with
           | Normal a => (t, inl a)
           | Throw e => (t, inr (Uncaught (RangeFailure e)))
           | NoResult => (t, inr Unending)
           end.

Definition printHelp (P : platform) : proc unit :=
  console_log ("Usage: node " ++ path_basename P (script P) ++ " <input-file> <output-folder?>")%string ;;
  console_log "" ;;
  console_log "  <input-file> the .cub file to process" ;;
  console_log "  <output-folder?> the optional output folder where to write the .obj and .mtl files" ;;
  console_log "  if not given, the files will be written to the directory of the .cub file".

(** An argument that is there and is not the empty string: what [!file]
    and [process.argv[3] || ...] test. *)
Definition truthy (a : option string) : option string :=
  match a with
  | Some EmptyString => None
  | _ => a
  end.

Definition is_help (a : option string) : bool :=
  match a with
  | Some file => String.eqb file "-h" || String.eqb file "--help"
  | None => false
  end.

Definition main (P : platform) : proc unit :=
  let file := nth_error (arguments P) 0 in
  (if is_help file then printHelp P else ret tt) ;;
  match truthy file with
  | None =>
      console_error "No file provided" ;;
      printHelp P ;;
      process_exit 1
  | Some file =>
      (if negb (existsSync P file) || negb (isFile P file) then
         console_error "The povided file is invalid" ;;
         process_exit 1
       else ret tt) ;;
      let outFolder :=
        match truthy (nth_error (arguments P) 1) with
        | Some folder => folder
        | None => path_dirname P file
        end in
      (if negb (existsSync P outFolder) || negb (isDirectory P outFolder) then
         console_error "The povided output directory is invalid" ;;
         process_exit 1
       else ret tt) ;;
      console_log ("Output folder is " ++ path_resolve P outFolder)%string ;;
      and_then (fs_readFileSync P file) (fun content =>
      let name := path_basename_ext P file (path_extname P file) in
      and_then (call (convertCub content name)) (fun r =>
      let outOBJ := path_join P outFolder (name ++ ".obj")%string in
      let outMTL := path_join P outFolder (name ++ ".mtl")%string in
      fs_writeFileSync P outOBJ (obj r) ;;
      fs_writeFileSync P outMTL (mtl r) ;;
      console_log "Done!"))
  end.

(** The whole run, from no event. *)
Definition run_main (P : platform) : list event * (unit + stop) := main P [].

(** * Definitions for the statements

    The definitions below are not functions of the program: they say what
    the functions of the program are to be compared with. *)

(** ** Colour components, from the wording of the format

    The byte divided by 255, as an exact fraction, rounded to the nearest
    millionth and written with six decimals. No fraction [b / 255] lies
    half way between two millionths. *)
Definition millionths (b : byte) : N := ((2 * Byte.to_N b * 1000000 + 255) / 510)%N.

Definition six_digits (n : N) : string :=
  let s := string_of_N n in (zeros (6 - String.length s) ++ s)%string.

Definition six_decimals (b : byte) : string :=
  (string_of_N (millionths b / 1000000) ++ "." ++ six_digits (millionths b mod 1000000))%string.

(** The block of the material at position [i]. *)
Definition kd_block (name : string) (c : Buffer) (i : nat) : string :=
  ("newmtl " ++ (name ++ "-mat-" ++ string_of_Z (Z.of_nat i)) ++ nl
   ++ "Kd " ++ join " " (map six_decimals c) ++ nl)%string.

(** ** Chunks *)

Definition chunk_sized (chunkSize : nat) (c : Buffer) : Prop :=
  1 <= length c <= chunkSize.

(** ** First appearances

    The distinct elements of a list, in the order in which each appears
    first, and the place of an element in a list. *)
Section FirstSeen.
Context {A : Type} (eqb : A -> A -> bool).

Fixpoint first_seen (l : list A) : list A :=
  match l with
  | [] => []
  | a :: l' => a :: filter (fun b => negb (eqb a b)) (first_seen l')
  end.

Fixpoint position (a : A) (l : list A) : nat :=
  match l with
  | [] => 0
  | b :: l' => if eqb a b then 0 else S (position a l')
  end.
End FirstSeen.

Fixpoint buffer_eqb (a b : Buffer) : bool :=
  match a, b with
  | [], [] => true
  | x :: a', y :: b' => Byte.eqb x y && buffer_eqb a' b'
  | _, _ => false
  end.

(** The digit that a character of a hex string stands for. *)
Definition hex_value (c : ascii) : N :=
  match c with
  | "0" => 0 | "1" => 1 | "2" => 2 | "3" => 3 | "4" => 4 | "5" => 5 | "6" => 6 | "7" => 7
  | "8" => 8 | "9" => 9 | "a" => 10 | "b" => 11 | "c" => 12 | "d" => 13 | "e" => 14
  | _ => 15
  end%char%N.

(** ** The colour registry *)

Definition is_black (c : Buffer) : bool := String.eqb (toString_hex c) blackKey.

(** The colours of the cells that are not the transparent colour, each
    once, in the order in which the cells bring them. *)
Definition seen_colors (cells : list Buffer) : list Buffer :=
  first_seen buffer_eqb (filter (fun c => negb (is_black c)) cells).

(** The index that the cells of a colour carry: the place of the colour
    among the colours seen, or -1 for the transparent colour. *)
Definition index_for (cells : list Buffer) (c : Buffer) : value :=
  if is_black c then VNum (-1)
  else VNum (Z.of_nat (position buffer_eqb c (seen_colors cells))).

(** The dictionary of the colours seen, in creation order. *)
Definition registry_of (seen : list Buffer) : object entry :=
  map (fun c => (toString_hex c,
                 {| entry_color := c;
                    entry_index := Z.of_nat (position buffer_eqb c seen) |})) seen.

(** The state of the loop of [isolateColors] once it has gone through the
    cells. *)
Definition isolate_spec (cells : list Buffer) : isolate_state :=
  (registry_of (seen_colors cells),
   map (index_for cells) cells,
   Z.of_nat (length (seen_colors cells))).

(** ** The scan of the grid *)

(** The grid points in the order of the three loops: [x] outermost, then
    [y], then [z]. *)
Definition scan_points (width depth height : nat) : list point :=
  flat_map (fun x => flat_map (fun y => map (fun z => (x, y, z)) (range height)) (range depth))
    (range width).

(** The colour index that the scan reads at a point. *)
Definition color_at (width depth height : nat) (colorIndicies : list value) (p : point) : value :=
  let '(x, y, z) := p in
  arr_get colorIndicies (xyzToIndex x y z (Z.of_nat width) (Z.of_nat depth) (Z.of_nat height)).

Definition excluded (c : value) : bool := value_eqb c (VNum (-1)).

(** The body of the innermost loop at a point. *)
Definition collect_point (width depth height : nat) (colorIndicies : list value)
    (byColor : object group) (p : point) : object group :=
  let '(x, y, z) := p in collect width depth height colorIndicies byColor x y z.

(** The colour indexes met on a run of points, the exclusion marker left
    out, each once, in the order in which the run discovers them. *)
Definition discovered_in (width depth height : nat) (colorIndicies : list value)
    (pts : list point) : list value :=
  first_seen value_eqb
    (filter (fun c => negb (excluded c)) (map (color_at width depth height colorIndicies) pts)).

(** The points of a run that carry a colour index, in the order of the
    run. *)
Definition points_in (width depth height : nat) (colorIndicies : list value)
    (pts : list point) (c : value) : list point :=
  filter (fun p => value_eqb (color_at width depth height colorIndicies p) c) pts.

Definition group_in (width depth height : nat) (colorIndicies : list value)
    (pts : list point) (c : value) : group :=
  {| colorIndex := c; points := points_in width depth height colorIndicies pts c |}.

(** The dictionary that the loops have built after a run of points. *)
Definition grouped_in (width depth height : nat) (colorIndicies : list value)
    (pts : list point) : object group :=
  map (fun c => (ToString c, group_in width depth height colorIndicies pts c))
    (discovered_in width depth height colorIndicies pts).

(** The same over the whole scan. *)
Definition discovered (width depth height : nat) (colorIndicies : list value) : list value :=
  discovered_in width depth height colorIndicies (scan_points width depth height).

Definition group_of (width depth height : nat) (colorIndicies : list value) (c : value) : group :=
  group_in width depth height colorIndicies (scan_points width depth height) c.

(** ** The order of the objects *)

(** Whether a colour index is an array index when used as a property key. *)
Definition index_key (c : value) : bool :=
  match c with
  | VNum z => (0 <=? z)%Z && (z <? 4294967295)%Z
  | VUndef => false
  end.

Definition value_lt (a b : value) : Prop :=
  match a, b with
  | VNum x, VNum y => (x < y)%Z
  | _, _ => False
  end.

Definition index_le (a b : value) : Prop :=
  (index_of (ToString a) <= index_of (ToString b))%N.

(** The order that [Object.values] gives colour indexes that are array
    indexes as keys: by ascending index. *)
Fixpoint insert_value (c : value) (l : list value) : list value :=
  match l with
  | [] => [c]
  | b :: l' =>
      if (index_of (ToString c) <=? index_of (ToString b))%N then c :: b :: l'
      else b :: insert_value c l'
  end.

Definition ascending (l : list value) : list value := fold_right insert_value [] l.

(** The order in which the objects of the colour indexes come out: the
    indexes that are array indexes in ascending order, then the others in
    the order of their discovery. *)
Definition object_order (width depth height : nat) (colorIndicies : list value) : list value :=
  ascending (filter index_key (discovered width depth height colorIndicies))
  ++ filter (fun c => negb (index_key c)) (discovered width depth height colorIndicies).

(** ** What the objects are made of *)

(** The points in the order in which the objects turn them into cubes. *)
Definition emitted_points (width depth height : nat) (colorIndicies : list value) : list point :=
  concat (map points (values (byColor_of width depth height colorIndicies))).

(** The cubes in the order in which the objects bring them. *)
Definition emitted_cubes (width depth height : nat) (colorIndicies : list value)
    (name : string) : list cube :=
  concat (map fst (objects_of name (values (byColor_of width depth height colorIndicies)) 0)).

(** The names that the objects put after [usemtl] and the material blocks
    after [newmtl]. *)
Definition usemtl_names (width depth height : nat) (colorIndicies : list value)
    (name : string) : list string :=
  map (fun g => matName (colorIndex g) name)
    (values (byColor_of width depth height colorIndicies)).

Definition newmtl_names (colors : list Buffer) (name : string) : list string :=
  mapi (fun _ i => matName (VNum (Z.of_nat i)) name) colors.

(** ** The lines of a text *)

Definition newline : ascii := "010"%char.

Fixpoint no_newline (s : string) : bool :=
  match s with
  | EmptyString => true
  | String c s' => negb (Ascii.eqb c newline) && no_newline s'
  end.

(** [text.split('\n')]. *)
Fixpoint lines (s : string) : list string :=
  match s with
  | EmptyString => [EmptyString]
  | String c s' =>
      if Ascii.eqb c newline then EmptyString :: lines s'
      else match lines s' with
           | [] => [String c EmptyString]
           | l :: ls => String c l :: ls
           end
  end.

(** What follows a prefix in a string that starts with it. *)
Fixpoint strip (pre s : string) : option string :=
  match pre, s with
  | EmptyString, _ => Some s
  | String a pre', String b s' => if Ascii.eqb a b then strip pre' s' else None
  | String _ _, EmptyString => None
  end.

Definition directive (pre line : string) : list string :=
  match strip pre line with
  | Some rest => [rest]
  | None => []
  end.

(** The names that the lines of a text give after a keyword. *)
Definition directive_names (pre text : string) : list string :=
  flat_map (directive pre) (lines text).

(** A text of whole lines. *)
Fixpoint unlines (ls : list string) : string :=
  match ls with
  | [] => EmptyString
  | l :: ls' => (l ++ nl ++ unlines ls')%string
  end.

Definition vertex_text (v : point) : string :=
  let '(x, y, z) := v in
  ("v " ++ join " " [string_of_Z x; string_of_Z y; string_of_Z z])%string.

Definition face_text (f : list Z) : string := ("f " ++ join " " (map string_of_Z f))%string.

(** The lines of an object. *)
Definition object_lines (name : string) (colorIndex : value) (cubes : list cube) : list string :=
  [("o " ++ name ++ "-obj-" ++ ToString colorIndex)%string]
  ++ map vertex_text (concat (map vertices cubes))
  ++ [("usemtl " ++ matName colorIndex name)%string; "s off"%string]
  ++ map face_text (concat (map faces cubes)).

(** The lines of a material block. *)
Definition material_lines (name : string) (c : Buffer) (i : nat) : list string :=
  [("newmtl " ++ matName (VNum (Z.of_nat i)) name)%string;
   ("Kd " ++ join " " (map six_decimals c))%string].

(** ** The indexes of the scan *)

(** The position in the cell array that the scan reads at a point. *)
Definition index_at (width depth height : nat) (p : point) : Z :=
  let '(x, y, z) := p in
  xyzToIndex x y z (Z.of_nat width) (Z.of_nat depth) (Z.of_nat height).

(** The positions read, in the order of the scan. *)
Definition scan_indices (width depth height : nat) : list Z :=
  map (index_at width depth height) (scan_points width depth height).

(** ** The geometry of a cube *)

(** The corner of a cube that a face index stands for, the cube having been
    built with the counter at [faceOffset]. *)
Definition corner_of (cb : cube) (faceOffset : Z) (i : Z) : option point :=
  if (i - 8 * faceOffset - 1 <? 0)%Z then None
  else nth_error (vertices cb) (Z.to_nat (i - 8 * faceOffset - 1)).

Inductive axis : Type := AxisX | AxisY | AxisZ.

Definition coordinate (a : axis) (p : point) : Z :=
  let '(x, y, z) := p in
  match a with AxisX => x | AxisY => y | AxisZ => z end.

(** A side of the unit cube at an anchor: the plane across an axis, at the
    anchor or one unit further. *)
Definition on_side (anchor : point) (side : axis * bool) (q : point) : Prop :=
  coordinate (fst side) q
  = (coordinate (fst side) anchor + if snd side then 1 else 0)%Z.

(** Two points one unit apart along one axis. *)
Definition adjacent (a b : point) : Prop :=
  let '(ax, ay, az) := a in
  let '(bx, by_, bz) := b in
  (Z.abs (ax - bx) + Z.abs (ay - by_) + Z.abs (az - bz) = 1)%Z.

Definition difference (a b : point) : point :=
  let '(ax, ay, az) := a in
  let '(bx, by_, bz) := b in
  (ax - bx, ay - by_, az - bz)%Z.

Definition cross (a b : point) : point :=
  let '(ax, ay, az) := a in
  let '(bx, by_, bz) := b in
  (ay * bz - az * by_, az * bx - ax * bz, ax * by_ - ay * bx)%Z.

Definition dot (a b : point) : Z :=
  let '(ax, ay, az) := a in
  let '(bx, by_, bz) := b in
  (ax * bx + ay * by_ + az * bz)%Z.

(** Twice the vector from a point to the centre of the unit cube at an
    anchor. *)
Definition to_centre (anchor q : point) : point :=
  let '(x, y, z) := anchor in
  let '(qx, qy, qz) := q in
  (2 * x + 1 - 2 * qx, 2 * y + 1 - 2 * qy, 2 * z + 1 - 2 * qz)%Z.

(** The six sides in the order of the six faces. *)
Definition face_sides : list (axis * bool) :=
  [ (AxisZ, false); (AxisY, true); (AxisZ, true); (AxisY, false);
    (AxisX, false); (AxisX, true) ].

(** What holds of the four corners of a face on a side of the cube. *)
Definition unit_square (anchor : point) (side : axis * bool) (corners : list (option point)) : Prop :=
  exists a b c d,
    corners = [Some a; Some b; Some c; Some d]
    /\ NoDup [a; b; c; d]
    /\ adjacent a b /\ adjacent b c /\ adjacent c d /\ adjacent d a
    /\ Forall (on_side anchor side) [a; b; c; d].

(** The normal of a face by the right-hand rule on its first three
    corners points to the inside of the cube. *)
Definition wound_inwards (anchor : point) (corners : list (option point)) : Prop :=
  exists a b c d,
    corners = [Some a; Some b; Some c; Some d]
    /\ (0 < dot (cross (difference b a) (difference c b)) (to_centre anchor a))%Z.

(** ** The vertex pool of the object text *)

(** All the vertices and all the faces of the object text, in the order of
    their lines: face indexes count the vertices of the whole text from
    1. *)
Definition vertex_pool (width depth height : nat) (colorIndicies : list value)
    (name : string) : list point :=
  concat (map vertices (emitted_cubes width depth height colorIndicies name)).

Definition face_pool (width depth height : nat) (colorIndicies : list value)
    (name : string) : list (list Z) :=
  concat (map faces (emitted_cubes width depth height colorIndicies name)).

Definition vertex_coords (v : point) : string :=
  let '(x, y, z) := v in join " " [string_of_Z x; string_of_Z y; string_of_Z z].

Definition face_coords (f : list Z) : string := join " " (map string_of_Z f).

(** The grid points whose colour index is not the exclusion marker. *)
Definition kept_points (width depth height : nat) (colorIndicies : list value) : list point :=
  filter (fun p => negb (excluded (color_at width depth height colorIndicies p)))
    (scan_points width depth height).

(** ** Reading values back *)

(** The number that the digits of a string write, other characters left
    out. *)
Fixpoint digits_value (s : string) (acc : N) : N :=
  match s with
  | EmptyString => acc
  | String c s' =>
      let n := N_of_ascii c in
      if (48 <=? n)%N && (n <=? 57)%N then digits_value s' (acc * 10 + (n - 48))%N
      else digits_value s' acc
  end.

(** The byte nearest to 255 times a component written with six
    decimals. *)
Definition byte_of_component (s : string) : option byte :=
  Byte.of_N ((digits_value s 0 * 255 + 500000) / 1000000)%N.

Definition byte_of_N (n : N) : byte :=
  match Byte.of_N n with Some b => b | None => x00 end.

(** The four bytes of an unsigned 32-bit number, the least significant
    first. *)
Definition uint32le (n : N) : Buffer :=
  [ byte_of_N (n mod 256);
    byte_of_N ((n / 256) mod 256);
    byte_of_N ((n / 256 / 256) mod 256);
    byte_of_N ((n / 256 / 256 / 256) mod 256) ]%N.

(** ** The command line *)

(** The lines that [printHelp] prints. *)
Definition usage (P : platform) : list event :=
  [ Stdout ("Usage: node " ++ path_basename P (script P) ++ " <input-file> <output-folder?>")%string;
    Stdout "";
    Stdout "  <input-file> the .cub file to process";
    Stdout "  <output-folder?> the optional output folder where to write the .obj and .mtl files";
    Stdout "  if not given, the files will be written to the directory of the .cub file" ].

(** The events of the help, when the first argument asks for it. *)
Definition help_first (P : platform) : list event :=
  if is_help (nth_error (arguments P) 0) then usage P else [].

Definition is_written (e : event) : bool :=
  match e with Written _ _ => true | _ => false end.

(** The folder that the two files go to. *)
Definition out_folder (P : platform) (file : string) : string :=
  match truthy (nth_error (arguments P) 1) with
  | Some folder => folder
  | None => path_dirname P file
  end.

(** The input file and the output folder pass the checks of [main]. *)
Definition valid_paths (P : platform) (file : string) : Prop :=
  truthy (nth_error (arguments P) 0) = Some file
  /\ existsSync P file = true /\ isFile P file = true
  /\ existsSync P (out_folder P file) = true
  /\ isDirectory P (out_folder P file) = true.

(** A platform for examples: a file system with the file [/in/a.cub] and
    the folder [/in], where every write goes through. *)
Definition example_platform (args : list string) (content : Buffer) : platform :=
  {| script := "/bin/cub-to-obj.js";
     arguments := args;
     existsSync := fun p => String.eqb p "/in/a.cub" || String.eqb p "/in";
     isFile := fun p => String.eqb p "/in/a.cub";
     isDirectory := fun p => String.eqb p "/in";
     readFileSync := fun p => if String.eqb p "/in/a.cub" then inl content else inr "ENOENT";
     writeFileSync := fun _ _ _ => None;
     path_dirname := fun _ => "/in";
     path_resolve := fun p => p;
     path_extname := fun _ => ".cub";
     path_basename := fun _ => "cub-to-obj.js";
     path_basename_ext := fun _ _ => "a";
     path_join := fun a b => (a ++ "/" ++ b)%string |}.

(** A platform where the write of the material text fails. *)
Definition mtl_is_a_folder (content : Buffer) : platform :=
  {| script := "/bin/cub-to-obj.js";
     arguments := ["/in/a.cub"];
     existsSync := fun p => String.eqb p "/in/a.cub" || String.eqb p "/in";
     isFile := fun p => String.eqb p "/in/a.cub";
     isDirectory := fun p => String.eqb p "/in";
     readFileSync := fun p => if String.eqb p "/in/a.cub" then inl content else inr "ENOENT";
     writeFileSync := fun _ p _ => if String.eqb p "/in/a.mtl" then Some "EISDIR" else None;
     path_dirname := fun _ => "/in";
     path_resolve := fun p => p;
     path_extname := fun _ => ".cub";
     path_basename := fun _ => "cub-to-obj.js";
     path_basename_ext := fun _ _ => "a";
     path_join := fun a b => (a ++ "/" ++ b)%string |}.


(** A file of one cell of colour (255,0,0) and what it converts to. *)
Definition example_file : Buffer :=
  [x01; x00; x00; x00; x01; x00; x00; x00; x01; x00; x00; x00; xff; x00; x00].

Definition example_result : converted :=
  {| obj := generateOBJ 1 1 1 [VNum 0] "a";
     mtl := ("# CUB to OBJ v0.0.1" ++ nl ++ "newmtl a-mat-0" ++ nl
             ++ "Kd 1.000000 0.000000 0.000000" ++ nl)%string |}.

(** ** Integers in binary64 *)

(** The integers that binary64 holds and that no other integer is rounded
    to: the magnitudes below 2^53. *)
Definition safe_integer (z : Z) : Prop := (Z.abs z < 2 ^ 53)%Z.

(** The integer that a number holds, when it is finite and has no
    fractional part. *)
Definition integer_of_number (x : spec_float) : option Z :=
  match x with
  | S754_zero _ => Some 0%Z
  | S754_finite s m e =>
      match e with
      | Zneg p =>
          if (Zpos m mod 2 ^ Zpos p =? 0)%Z
          then Some (cond_Zopp s (Zpos m / 2 ^ Zpos p)) else None
      | _ => Some (cond_Zopp s (Zpos m * 2 ^ e))
      end
  | _ => None
  end.

(** A point and a cube of integers as the program holds them. *)
Definition number_point (p : point) : Binary64.point :=
  let '(x, y, z) := p in (number_of_Z x, number_of_Z y, number_of_Z z).

Definition number_cube (cb : cube) : Binary64.cube :=
  {| Binary64.vertices := map number_point (vertices cb);
     Binary64.faces := map (map number_of_Z) (faces cb) |}.

Fixpoint all_some {A : Type} (l : list (option A)) : option (list A) :=
  match l with
  | [] => Some []
  | Some a :: l' => option_map (cons a) (all_some l')
  | None :: _ => None
  end.

(** The integers that a point and a cube of the program hold, when all
    their numbers are integers. *)
Definition integer_point (p : Binary64.point) : option point :=
  let '(x, y, z) := p in
  match integer_of_number x, integer_of_number y, integer_of_number z with
  | Some x', Some y', Some z' => Some (x', y', z')
  | _, _, _ => None
  end.

Definition integer_cube (cb : Binary64.cube) : option cube :=
  match all_some (map integer_point (Binary64.vertices cb)),
        all_some (map (fun f => all_some (map integer_of_number f)) (Binary64.faces cb)) with
  | Some vs, Some fs => Some {| vertices := vs; faces := fs |}
  | _, _ => None
  end.

(** The anchors and cube counters at which no sum or product of
    [pointToCube] is rounded. *)
Definition safe_cube (p : point) (cubeIndex : Z) : Prop :=
  let '(x, y, z) := p in
  safe_integer x /\ safe_integer (x + 1)
  /\ safe_integer y /\ safe_integer (y + 1)
  /\ safe_integer z /\ safe_integer (z + 1)
  /\ safe_integer (cubeIndex * 8) /\ safe_integer (cubeIndex * 8 + 8).

(** A significand with [n] zero bits added below, and the number of its
    bits. *)
Definition shl (p : positive) (n : nat) : positive := Nat.iter n xO p.

Definition digits (p : positive) : Z := Zpos (digits2_pos p).

(** The binary64 value of an integer below 2^53: the integer itself, its
    bits moved up to fill the significand. *)
Definition canonical (z : Z) : spec_float :=
  match z with
  | Z0 => S754_zero false
  | Zpos p => S754_finite false (shl p (Z.to_nat (53 - digits p))) (digits p - 53)
  | Zneg p => S754_finite true (shl p (Z.to_nat (53 - digits p))) (digits p - 53)
  end.

(** * Properties *)

(** ** Lists *)

Section FirstSeenFacts.
Context {A : Type} (eqb : A -> A -> bool).
Hypothesis eqb_spec : forall a b, reflect (a = b) (eqb a b).

Lemma eqb_same (a : A) : eqb a a = true.
Proof. now destruct (eqb_spec a a). Qed.

Lemma existsb_eqb (a : A) (l : list A) : existsb (eqb a) l = true <-> In a l.
Proof.
  rewrite existsb_exists. split.
  - intros (b & Hin & Heq). now destruct (eqb_spec a b); subst.
  - intros Hin. exists a. split; [assumption | apply eqb_same].
Qed.

Lemma first_seen_In (a : A) (l : list A) : In a (first_seen eqb l) <-> In a l.
Proof.
  induction l as [|b l IH]; simpl; [tauto|].
  rewrite filter_In, IH.
  destruct (eqb_spec b a); subst; simpl; intuition congruence.
Qed.

Lemma first_seen_NoDup (l : list A) : NoDup (first_seen eqb l).
Proof.
  induction l as [|b l IH]; simpl; constructor.
  - rewrite filter_In. intros [_ H]. now rewrite eqb_same in H.
  - now apply NoDup_filter.
Qed.

Lemma first_seen_snoc (l : list A) (a : A) :
  first_seen eqb (l ++ [a]) =
  if existsb (eqb a) l then first_seen eqb l else first_seen eqb l ++ [a].
Proof.
  induction l as [|b l IH]; simpl; [reflexivity|].
  rewrite IH.
  destruct (eqb_spec a b) as [->|Hab]; simpl.
  - destruct (existsb (eqb b) l); [reflexivity|].
    rewrite filter_app. simpl. rewrite eqb_same. simpl. now rewrite app_nil_r.
  - destruct (existsb (eqb a) l); [reflexivity|].
    rewrite filter_app. simpl.
    destruct (eqb_spec b a); [congruence | reflexivity].
Qed.

Lemma existsb_first_seen (a : A) (l : list A) :
  existsb (eqb a) (first_seen eqb l) = existsb (eqb a) l.
Proof.
  apply eq_true_iff_eq. now rewrite !existsb_eqb, first_seen_In.
Qed.

Lemma position_app_In (a : A) (l l' : list A) :
  In a l -> position eqb a (l ++ l') = position eqb a l.
Proof.
  induction l as [|b l IH]; simpl; [tauto|].
  intros [->|Hin].
  - now rewrite eqb_same.
  - destruct (eqb a b); [reflexivity | now rewrite IH].
Qed.

Lemma position_app_notin (a : A) (l : list A) :
  ~ In a l -> position eqb a (l ++ [a]) = length l.
Proof.
  induction l as [|b l IH]; simpl; intros Hnot.
  - now rewrite eqb_same.
  - destruct (eqb_spec a b) as [->|Hne].
    + exfalso. apply Hnot. now left.
    + rewrite IH; [reflexivity | tauto].
Qed.

Lemma position_lt (a : A) (l : list A) : In a l -> position eqb a l < length l.
Proof.
  induction l as [|b l IH]; simpl; [tauto|].
  intros Hin. destruct (eqb_spec a b); [lia|].
  destruct Hin; [congruence|]. apply IH in H. lia.
Qed.

Lemma position_nth_error (a : A) (l : list A) :
  In a l -> nth_error l (position eqb a l) = Some a.
Proof.
  induction l as [|b l IH]; simpl; [tauto|].
  intros Hin. destruct (eqb_spec a b); [now subst|].
  destruct Hin; [congruence | auto].
Qed.
End FirstSeenFacts.

Lemma fold_left_flat_map {A B C : Type} (f : A -> C -> A) (g : B -> list C) (l : list B) (a : A) :
  fold_left f (flat_map g l) a = fold_left (fun a b => fold_left f (g b) a) l a.
Proof.
  revert a; induction l as [|b l IH]; intros a; simpl; [reflexivity|].
  now rewrite fold_left_app, IH.
Qed.

Lemma fold_left_ext {A B : Type} (f g : A -> B -> A) (l : list B) (a : A) :
  (forall a b, f a b = g a b) -> fold_left f l a = fold_left g l a.
Proof.
  intros Hfg. revert a; induction l as [|b l IH]; intros a; simpl; [reflexivity|].
  now rewrite Hfg, IH.
Qed.

Lemma fold_left_map {A B C : Type} (f : A -> C -> A) (g : B -> C) (l : list B) (a : A) :
  fold_left f (map g l) a = fold_left (fun a b => f a (g b)) l a.
Proof. revert a; induction l as [|b l IH]; intros a; simpl; auto. Qed.

Lemma forEach_from_snoc {A St : Type} (f : St -> A -> nat -> St) (l : list A) (a : A) (i : nat) (st : St) :
  forEach_from f (l ++ [a]) i st = f (forEach_from f l i st) a (i + length l).
Proof.
  revert i st; induction l as [|b l IH]; intros i st; simpl.
  - now rewrite Nat.add_0_r.
  - rewrite IH. now replace (S i + length l) with (i + S (length l)) by lia.
Qed.

Lemma arr_set_end (arr : list value) (v : value) : arr_set arr (length arr) v = arr ++ [v].
Proof. induction arr as [|a arr IH]; simpl; [reflexivity | now rewrite IH]. Qed.

(** ** Objects *)

Section Objects.
Context {V : Type}.

Lemma insert_by_index_perm (p : string * V) (l : list (string * V)) :
  Permutation (insert_by_index p l) (p :: l).
Proof.
  induction l as [|q l IH]; simpl; [reflexivity|].
  destruct (index_of (fst p) <=? index_of (fst q))%N; [reflexivity|].
  rewrite IH. apply perm_swap.
Qed.

Lemma sort_by_index_perm (l : list (string * V)) : Permutation (sort_by_index l) l.
Proof.
  induction l as [|p l IH]; simpl; [reflexivity|].
  now rewrite insert_by_index_perm, IH.
Qed.

Lemma filter_split_perm {A : Type} (f : A -> bool) (l : list A) :
  Permutation (filter f l ++ filter (fun a => negb (f a)) l) l.
Proof.
  induction l as [|a l IH]; simpl; [reflexivity|].
  destruct (f a); simpl.
  - now rewrite IH.
  - rewrite <- Permutation_middle. now rewrite IH.
Qed.

Lemma own_properties_perm (o : object V) : Permutation (own_properties o) o.
Proof.
  unfold own_properties. rewrite sort_by_index_perm. apply filter_split_perm.
Qed.

Lemma values_perm (o : object V) : Permutation (values o) (map snd o).
Proof. unfold values. apply Permutation_map, own_properties_perm. Qed.

Lemma values_length (o : object V) : length (values o) = length o.
Proof. rewrite (Permutation_length (values_perm o)). apply length_map. Qed.

(** Without an array index among the keys the values come in creation
    order. *)
Lemma values_creation_order (o : object V) :
  forallb (fun p => negb (is_index (fst p))) o = true ->
  values o = map snd o.
Proof.
  intros Hno. unfold values, own_properties.
  rewrite (forallb_filter_id _ _ Hno).
  replace (filter (fun p => is_index (fst p)) o) with (@nil (string * V)); [reflexivity|].
  symmetry. induction o as [|p o IH]; simpl in *; [reflexivity|].
  apply andb_true_iff in Hno as [Hp Ho].
  destruct (is_index (fst p)); [discriminate | auto].
Qed.
End Objects.

Section Keyed.
Context {A V : Type} (eqb : A -> A -> bool) (key : A -> string).
Hypothesis eqb_spec : forall a b, reflect (a = b) (eqb a b).
Hypothesis key_inj : forall a b, key a = key b -> a = b.

Lemma key_eqb (a b : A) : String.eqb (key a) (key b) = eqb a b.
Proof.
  destruct (eqb_spec a b) as [->|Hne].
  - apply String.eqb_refl.
  - apply String.eqb_neq. intros H. now apply key_inj in H.
Qed.

Lemma get_keyed (val : A -> V) (D : list A) (c : A) :
  get (map (fun a => (key a, val a)) D) (key c) =
  if existsb (eqb c) D then Some (val c) else None.
Proof.
  induction D as [|a D IH]; simpl; [reflexivity|].
  rewrite key_eqb.
  destruct (eqb_spec a c) as [->|Hne].
  - now rewrite (eqb_same eqb eqb_spec).
  - destruct (eqb_spec c a); [congruence|]. simpl. apply IH.
Qed.

Lemma set_keyed (val : A -> V) (D : list A) (c : A) (v : V) :
  NoDup D ->
  set (map (fun a => (key a, val a)) D) (key c) v =
  if existsb (eqb c) D
  then map (fun a => if eqb a c then (key c, v) else (key a, val a)) D
  else map (fun a => (key a, val a)) D ++ [(key c, v)].
Proof.
  induction D as [|a D IH]; simpl; intros Hnd; [reflexivity|].
  inversion Hnd as [|? ? Hnotin Hnd']; subst.
  rewrite key_eqb.
  destruct (eqb_spec a c) as [->|Hne].
  - rewrite (eqb_same eqb eqb_spec). simpl. f_equal.
    apply map_ext_in. intros b Hb.
    destruct (eqb_spec b c); [congruence | reflexivity].
  - destruct (eqb_spec c a); [congruence|]. simpl.
    rewrite (IH Hnd'). now destruct (existsb (eqb c) D).
Qed.
End Keyed.

(** ** Keys *)

Lemma buffer_eqb_spec (a b : Buffer) : reflect (a = b) (buffer_eqb a b).
Proof.
  revert b; induction a as [|x a IH]; intros [|y b]; simpl; try (constructor; congruence).
  destruct (Byte.eqb x y) eqn:Hxy; simpl.
  - apply Byte.byte_dec_bl in Hxy. subst y.
    destruct (IH b); constructor; congruence.
  - constructor. intros [= -> _].
    now rewrite (Byte.byte_dec_lb eq_refl) in Hxy.
Qed.

Lemma hex_digits_byte (b : byte) :
  Byte.of_N (hex_value (hex_digit (Byte.to_N b / 16)) * 16
             + hex_value (hex_digit (Byte.to_N b mod 16))) = Some b.
Proof. destruct b; reflexivity. Qed.

Lemma toString_hex_inj (a b : Buffer) : toString_hex a = toString_hex b -> a = b.
Proof.
  revert b; induction a as [|x a IH]; intros [|y b]; simpl; try congruence.
  intros [= Hhi Hlo Hrest].
  pose proof (hex_digits_byte x) as Hx. pose proof (hex_digits_byte y) as Hy.
  rewrite Hhi, Hlo in Hx. rewrite Hx in Hy.
  f_equal; [congruence | auto].
Qed.

Lemma is_black_iff (c : Buffer) : is_black c = true <-> c = [x00; x00; x00].
Proof.
  unfold is_black. rewrite String.eqb_eq. split.
  - intros H. now apply toString_hex_inj.
  - now intros ->.
Qed.

Lemma value_eqb_spec (a b : value) : reflect (a = b) (value_eqb a b).
Proof.
  destruct a as [x|], b as [y|]; simpl; try (constructor; congruence).
  destruct (Z.eqb_spec x y); constructor; congruence.
Qed.

Lemma to_int_proper (z : Z) : Z.to_int z <> Pos Nil /\ Z.to_int z <> Neg Nil.
Proof.
  destruct z as [|p|p]; simpl; split; try discriminate;
    intros [= H]; now apply DecimalPos.Unsigned.to_uint_nonnil in H.
Qed.

Lemma string_of_Z_parse (z : Z) : NilZero.int_of_string (string_of_Z z) = Some (Z.to_int z).
Proof. unfold string_of_Z. apply NilZero.isi; apply to_int_proper. Qed.

Lemma ToString_inj (a b : value) : ToString a = ToString b -> a = b.
Proof.
  destruct a as [x|], b as [y|]; simpl; intros H.
  - f_equal. apply DecimalZ.to_int_inj.
    pose proof (string_of_Z_parse x) as Hx. rewrite H, string_of_Z_parse in Hx. congruence.
  - pose proof (string_of_Z_parse x) as Hx. rewrite H in Hx. discriminate.
  - pose proof (string_of_Z_parse y) as Hy. rewrite <- H in Hy. discriminate.
  - reflexivity.
Qed.

Lemma string_of_Z_nonneg (z : Z) : (0 <= z)%Z -> string_of_Z z = string_of_N (Z.to_N z).
Proof. destruct z; simpl; intros H; try reflexivity. lia. Qed.

Lemma array_index_string_of_N (n : N) :
  array_index (string_of_N n) = if (n <? 4294967295)%N then Some n else None.
Proof.
  unfold array_index, string_of_N.
  rewrite NilZero.usu.
  - rewrite DecimalN.Unsigned.of_to, String.eqb_refl. reflexivity.
  - destruct n; simpl; [discriminate | apply DecimalPos.Unsigned.to_uint_nonnil].
Qed.

Lemma array_index_negative (p : positive) : array_index (string_of_Z (Zneg p)) = None.
Proof.
  unfold array_index, string_of_Z. simpl.
  now destruct (NilEmpty.uint_of_string (NilZero.string_of_uint (Pos.to_uint p))).
Qed.

Lemma array_index_ToString (c : value) :
  array_index (ToString c) =
  match c with
  | VNum z => if index_key c then Some (Z.to_N z) else None
  | VUndef => None
  end.
Proof.
  destruct c as [z|]; [|reflexivity]. simpl.
  destruct z as [|p|p].
  - reflexivity.
  - rewrite string_of_Z_nonneg, array_index_string_of_N by lia.
    simpl Z.to_N.
    destruct (N.ltb_spec (N.pos p) 4294967295), (Z.ltb_spec (Z.pos p) 4294967295);
      try reflexivity; lia.
  - apply array_index_negative.
Qed.

Lemma is_index_ToString (c : value) : is_index (ToString c) = index_key c.
Proof.
  unfold is_index. rewrite array_index_ToString.
  destruct c as [z|]; [|reflexivity]. now destruct (index_key (VNum z)).
Qed.

Lemma index_of_ToString (z : Z) :
  index_key (VNum z) = true -> index_of (ToString (VNum z)) = Z.to_N z.
Proof. intros H. unfold index_of. now rewrite array_index_ToString, H. Qed.

(** ** Integers in binary64 *)

Lemma shl_Z (p : positive) (n : nat) : Zpos (shl p n) = (Zpos p * 2 ^ Z.of_nat n)%Z.
Proof.
  induction n as [|n IH].
  - cbn. lia.
  - change (shl p (S n)) with (xO (shl p n)).
    rewrite Nat2Z.inj_succ, Z.pow_succ_r by lia.
    rewrite Pos2Z.inj_xO, IH. lia.
Qed.

Lemma shl_add (p : positive) (a b : nat) : shl (shl p a) b = shl p (a + b).
Proof.
  unfold shl. rewrite Nat.add_comm. now rewrite Nat.iter_add.
Qed.

Lemma iter_xO_shl (p d : positive) : Pos.iter xO p d = shl p (Pos.to_nat d).
Proof. unfold shl. now rewrite Pos2Nat.inj_iter. Qed.

Lemma digits_shl (p : positive) (n : nat) : digits (shl p n) = (digits p + Z.of_nat n)%Z.
Proof.
  unfold digits. induction n as [|n IH].
  - cbn. lia.
  - change (shl p (S n)) with (xO (shl p n)). cbn [digits2_pos].
    rewrite Pos2Z.inj_succ, IH. lia.
Qed.

Lemma digits_size (p : positive) : digits2_pos p = Pos.size p.
Proof. induction p; cbn; congruence. Qed.

Lemma digits_bounds (p : positive) :
  (2 ^ (digits p - 1) <= Zpos p < 2 ^ digits p)%Z.
Proof.
  unfold digits. rewrite digits_size.
  pose proof (Pos.size_gt p) as Hgt. pose proof (Pos.size_le p) as Hle.
  split.
  - apply Pos2Z.pos_le_pos in Hle. rewrite Pos2Z.inj_pow, Pos2Z.inj_xO in Hle.
    assert (Hs : (2 ^ Zpos (Pos.size p) = 2 * 2 ^ (Zpos (Pos.size p) - 1))%Z).
    { rewrite <- Z.pow_succ_r by lia. f_equal. lia. }
    change (2 * 1)%Z with 2%Z in Hle. rewrite Hs in Hle. lia.
  - apply Pos2Z.pos_lt_pos in Hgt. now rewrite Pos2Z.inj_pow in Hgt.
Qed.

Lemma digits_le (p : positive) (n : Z) :
  (0 <= n)%Z -> (Zpos p < 2 ^ n)%Z -> (digits p <= n)%Z.
Proof.
  intros Hn Hp. destruct (digits_bounds p) as [Hlow _].
  destruct (Z.le_gt_cases (digits p) n) as [|Hgt]; [assumption|exfalso].
  assert (2 ^ n <= 2 ^ (digits p - 1))%Z by (apply Z.pow_le_mono_r; lia).
  lia.
Qed.

Lemma digits_pos (p : positive) : (1 <= digits p)%Z.
Proof. unfold digits. lia. Qed.

(** Shifting out zero bits leaves nothing to round. *)
Lemma shr_zero_bits (k : positive) (q : positive) :
  iter_pos shr_1 k {| shr_m := Zpos (Pos.iter xO q k); shr_r := false; shr_s := false |}
  = {| shr_m := Zpos q; shr_r := false; shr_s := false |}.
Proof.
  revert q. induction k as [k IH|k IH|]; intros q; cbn [iter_pos Pos.iter].
  - cbn [shr_1 orb]. now rewrite !IH.
  - now rewrite !IH.
  - reflexivity.
Qed.

Lemma binary_round_aux_exact (s : bool) (p : positive) (n : nat) :
  (digits p <= 53)%Z -> (53 - digits p <= Z.of_nat n)%Z ->
  binary_round_aux prec emax s (Zpos (shl p n)) (- Z.of_nat n) loc_Exact
  = S754_finite s (shl p (Z.to_nat (53 - digits p))) (digits p - 53).
Proof.
  intros Hd Hn. pose proof (digits_pos p) as Hd1.
  unfold binary_round_aux, shr_fexp.
  cbn [Zdigits2 shr_record_of_loc]. fold (digits (shl p n)). rewrite digits_shl.
  assert (Hfexp : forall e, (-1021 <= e)%Z -> fexp prec emax e = (e - 53)%Z).
  { intros e He. unfold fexp, emin, prec, emax. lia. }
  rewrite Hfexp by lia.
  (* the first shift *)
  assert (Hfirst :
    shr {| shr_m := Zpos (shl p n); shr_r := false; shr_s := false |} (- Z.of_nat n)
        (digits p + Z.of_nat n + - Z.of_nat n - 53 - - Z.of_nat n)
    = ({| shr_m := Zpos (shl p (Z.to_nat (53 - digits p))); shr_r := false; shr_s := false |},
       (digits p - 53)%Z)).
  { unfold shr.
    destruct (digits p + Z.of_nat n + - Z.of_nat n - 53 - - Z.of_nat n)%Z as [|k|k] eqn:Hk.
    - f_equal; [|lia]. do 2 f_equal. f_equal. lia.
    - replace n with (Z.to_nat (53 - digits p) + Pos.to_nat k) by lia.
      rewrite <- shl_add, <- iter_xO_shl, shr_zero_bits. f_equal. lia.
    - lia. }
  rewrite Hfirst. cbn [shr_m loc_of_shr_record round_nearest_even Zdigits2 shr_record_of_loc].
  fold (digits (shl p (Z.to_nat (53 - digits p)))). rewrite digits_shl.
  rewrite Hfexp by lia.
  replace (digits p + Z.of_nat (Z.to_nat (53 - digits p)) + (digits p - 53) - 53 - (digits p - 53))%Z
    with 0%Z by lia.
  cbn [shr shr_m].
  replace (digits p - 53 <=? emax - prec)%Z with true; [reflexivity|].
  symmetry. apply Z.leb_le. unfold emax, prec. lia.
Qed.

Lemma binary_round_shifted (s : bool) (p : positive) (n : nat) :
  (digits p <= 53)%Z ->
  binary_round prec emax s (shl p n) (- Z.of_nat n)
  = S754_finite s (shl p (Z.to_nat (53 - digits p))) (digits p - 53).
Proof.
  intros Hd. pose proof (digits_pos p) as Hd1.
  unfold binary_round, shl_align. fold (digits (shl p n)). rewrite digits_shl.
  replace (fexp prec emax (digits p + Z.of_nat n + - Z.of_nat n)) with (digits p - 53)%Z
    by (unfold fexp, emin, prec, emax; lia).
  destruct (digits p - 53 - - Z.of_nat n)%Z as [|k|k] eqn:Hk.
  - apply binary_round_aux_exact; lia.
  - apply binary_round_aux_exact; lia.
  - rewrite iter_xO_shl, shl_add.
    replace (digits p - 53)%Z with (- Z.of_nat (n + Pos.to_nat k))%Z at 1 by lia.
    apply binary_round_aux_exact; lia.
Qed.

Lemma safe_digits (p : positive) : (Zpos p < 2 ^ 53)%Z -> (digits p <= 53)%Z.
Proof. apply digits_le. lia. Qed.

Lemma binary_normalize_shifted (z : Z) (n : nat) :
  safe_integer z ->
  binary_normalize prec emax (z * 2 ^ Z.of_nat n) (- Z.of_nat n) false = canonical z.
Proof.
  unfold safe_integer. intros Hz. destruct z as [|p|p].
  - reflexivity.
  - assert (H : (Zpos p * 2 ^ Z.of_nat n = Zpos (shl p n))%Z) by now rewrite shl_Z.
    rewrite H. apply binary_round_shifted, safe_digits. lia.
  - assert (H : (Zneg p * 2 ^ Z.of_nat n = Zneg (shl p n))%Z).
    { rewrite <- !Pos2Z.opp_pos, shl_Z. lia. }
    rewrite H. apply binary_round_shifted, safe_digits. lia.
Qed.

Lemma number_of_Z_canonical (z : Z) : safe_integer z -> number_of_Z z = canonical z.
Proof.
  intros Hz. unfold number_of_Z.
  rewrite <- (binary_normalize_shifted z 0 Hz). f_equal. cbn. lia.
Qed.

Lemma canonical_finite (z : Z) :
  z <> 0%Z ->
  exists p, Z.abs z = Zpos p
    /\ canonical z = S754_finite (z <? 0)%Z (shl p (Z.to_nat (53 - digits p))) (digits p - 53).
Proof.
  intros Hz. destruct z as [|p|p]; [congruence| |]; exists p; split; reflexivity.
Qed.

(** Sums of integers are exact as long as the operands and the result are
    below 2^53. *)
Lemma num_add_exact (a b : Z) :
  safe_integer a -> safe_integer b -> safe_integer (a + b) ->
  num_add (number_of_Z a) (number_of_Z b) = number_of_Z (a + b).
Proof.
  intros Ha Hb Hab. rewrite !number_of_Z_canonical by assumption.
  destruct (Z.eq_dec a 0) as [->|Ha0].
  { cbn [canonical Z.add]. destruct b; reflexivity. }
  destruct (Z.eq_dec b 0) as [->|Hb0].
  { rewrite Z.add_0_r. destruct a; reflexivity. }
  destruct (canonical_finite a Ha0) as (pa & Hpa & ->).
  destruct (canonical_finite b Hb0) as (pb & Hpb & ->).
  unfold safe_integer in Ha, Hb. rewrite Hpa in Ha. rewrite Hpb in Hb.
  pose proof (safe_digits pa Ha) as Hda. pose proof (safe_digits pb Hb) as Hdb.
  pose proof (digits_pos pa) as Hda1. pose proof (digits_pos pb) as Hdb1.
  unfold num_add, SFadd.
  set (ez := Z.min (digits pa - 53) (digits pb - 53)).
  set (N := Z.to_nat (- ez)).
  assert (Hez : ez = (- Z.of_nat N)%Z) by (unfold N, ez; lia).
  assert (Hal : forall p, (digits p <= 53)%Z -> (ez <= digits p - 53)%Z ->
            fst (shl_align (shl p (Z.to_nat (53 - digits p))) (digits p - 53) ez) = shl p N).
  { intros p Hd Hle. unfold shl_align.
    destruct (ez - (digits p - 53))%Z as [|k|k] eqn:Hk; cbn [fst].
    - f_equal. unfold N. lia.
    - lia.
    - rewrite iter_xO_shl, shl_add. f_equal. unfold N. lia. }
  rewrite (Hal pa) by (unfold ez; lia). rewrite (Hal pb) by (unfold ez; lia).
  assert (Hsum : (cond_Zopp (a <? 0) (Zpos (shl pa N)) + cond_Zopp (b <? 0) (Zpos (shl pb N))
                  = (a + b) * 2 ^ Z.of_nat N)%Z).
  { rewrite !shl_Z, <- Hpa, <- Hpb.
    destruct (Z.ltb_spec a 0), (Z.ltb_spec b 0); cbn [cond_Zopp]; lia. }
  rewrite Hsum, Hez. apply binary_normalize_shifted. assumption.
Qed.

Lemma shl_mul (p q : positive) (a b : nat) :
  (shl p a * shl q b)%positive = shl (p * q) (a + b).
Proof.
  apply Pos2Z.inj. rewrite Pos2Z.inj_mul, !shl_Z, Pos2Z.inj_mul, Nat2Z.inj_add.
  rewrite Z.pow_add_r by lia. lia.
Qed.

(** Products of integers are exact on the same condition; the product with
    zero has the sign of the other operand, so that operand is to be
    positive. *)
Lemma num_mul_exact (a b : Z) :
  safe_integer a -> safe_integer b -> safe_integer (a * b) ->
  (a = 0 -> 0 <= b)%Z -> (b = 0 -> 0 <= a)%Z ->
  num_mul (number_of_Z a) (number_of_Z b) = number_of_Z (a * b).
Proof.
  intros Ha Hb Hab Hza Hzb. rewrite !number_of_Z_canonical by assumption.
  destruct (Z.eq_dec a 0) as [->|Ha0].
  { specialize (Hza eq_refl). destruct b; [reflexivity|reflexivity|lia]. }
  destruct (Z.eq_dec b 0) as [->|Hb0].
  { specialize (Hzb eq_refl). rewrite Z.mul_0_r. destruct a; [reflexivity|reflexivity|lia]. }
  assert (Hab0 : (a * b <> 0)%Z) by lia.
  destruct (canonical_finite a Ha0) as (pa & Hpa & ->).
  destruct (canonical_finite b Hb0) as (pb & Hpb & ->).
  destruct (canonical_finite (a * b) Hab0) as (pc & Hpc & ->).
  assert (Hc : pc = (pa * pb)%positive).
  { apply Pos2Z.inj. rewrite Pos2Z.inj_mul, <- Hpa, <- Hpb, <- Hpc. apply Z.abs_mul. }
  subst pc.
  unfold safe_integer in Ha, Hb, Hab. rewrite Hpa in Ha. rewrite Hpb in Hb. rewrite Hpc in Hab.
  pose proof (safe_digits pa Ha) as Hda. pose proof (safe_digits pb Hb) as Hdb.
  pose proof (safe_digits _ Hab) as Hdc.
  pose proof (digits_pos pa) as Hda1. pose proof (digits_pos pb) as Hdb1.
  assert (Hdbc : (digits pb <= digits (pa * pb))%Z).
  { apply digits_le; [pose proof (digits_pos (pa * pb)); lia|].
    destruct (digits_bounds (pa * pb)) as [_ Hup]. rewrite Pos2Z.inj_mul in *. nia. }
  unfold num_mul, SFmul. rewrite shl_mul.
  replace (digits pa - 53 + (digits pb - 53))%Z
    with (- Z.of_nat (Z.to_nat (53 - digits pa) + Z.to_nat (53 - digits pb)))%Z by lia.
  rewrite binary_round_aux_exact by lia.
  f_equal. destruct (Z.ltb_spec a 0), (Z.ltb_spec b 0), (Z.ltb_spec (a * b) 0);
    try reflexivity; nia.
Qed.

Lemma integer_of_number_of_Z (z : Z) :
  safe_integer z -> integer_of_number (number_of_Z z) = Some z.
Proof.
  intros Hz. rewrite number_of_Z_canonical by assumption.
  unfold safe_integer in Hz.
  assert (H : forall s p, (Zpos p < 2 ^ 53)%Z ->
            integer_of_number (S754_finite s (shl p (Z.to_nat (53 - digits p))) (digits p - 53))
            = Some (cond_Zopp s (Zpos p))).
  { intros s p Hp. pose proof (safe_digits p Hp) as Hd. pose proof (digits_pos p) as Hd1.
    unfold integer_of_number.
    destruct (digits p - 53)%Z as [|k|k] eqn:Hk.
    - replace (Z.to_nat (53 - digits p)) with 0 by lia. cbn [shl Nat.iter].
      now rewrite Z.pow_0_r, Z.mul_1_r.
    - lia.
    - rewrite shl_Z. replace (Z.of_nat (Z.to_nat (53 - digits p))) with (Zpos k) by lia.
      rewrite Z.mod_mul, Z.div_mul by lia. reflexivity. }
  destruct z as [|p|p]; [reflexivity| |]; cbn [canonical]; rewrite H by (cbn in Hz; lia);
    reflexivity.
Qed.

Lemma number_of_Z_inj (a b : Z) :
  safe_integer a -> safe_integer b -> number_of_Z a = number_of_Z b -> a = b.
Proof.
  intros Ha Hb H. apply (f_equal integer_of_number) in H.
  rewrite !integer_of_number_of_Z in H by assumption. congruence.
Qed.

(** ** The functions on [Z] and the functions on numbers *)

Ltac safe := unfold safe_integer in *; lia.

(** In the safe range the cube of numbers that [pointToCube] returns is the
    cube of integers of the function on [Z]. *)
Lemma pointToCube_numbers (p : point) (k : Z) :
  safe_cube p k ->
  Binary64.pointToCube (number_point p) (number_of_Z k) = number_cube (pointToCube p k).
Proof.
  destruct p as [[x y] z]. intros (Hx & Hx1 & Hy & Hy1 & Hz & Hz1 & Hk & Hk8).
  assert (H1 : safe_integer 1) by (unfold safe_integer; cbn; lia).
  assert (H8 : safe_integer 8) by (unfold safe_integer; cbn; lia).
  assert (Hk' : safe_integer k) by safe.
  unfold Binary64.pointToCube, pointToCube, number_cube,
    Binary64.defaultCubeFaces, defaultCubeFaces,
    Binary64.addX, Binary64.addY, Binary64.addZ, addX, addY, addZ.
  cbn [number_point vertices faces map length].
  change (Z.of_nat 8) with 8%Z.
  rewrite !(num_add_exact _ 1) by assumption.
  rewrite (num_mul_exact k 8) by (try assumption; lia).
  repeat match goal with
         | |- context [num_add (number_of_Z ?c) (number_of_Z (k * 8))] =>
             rewrite (num_add_exact c (k * 8)) by safe
         end.
  reflexivity.
Qed.

Lemma integer_point_numbers (p : point) :
  (let '(x, y, z) := p in safe_integer x /\ safe_integer y /\ safe_integer z) ->
  integer_point (number_point p) = Some p.
Proof.
  destruct p as [[x y] z]. intros (Hx & Hy & Hz). cbn [number_point integer_point].
  now rewrite !integer_of_number_of_Z by assumption.
Qed.

Lemma all_some_numbers (f : list Z) :
  Forall safe_integer f -> all_some (map integer_of_number (map number_of_Z f)) = Some f.
Proof.
  induction 1 as [|i f Hi _ IH]; cbn [map all_some]; [reflexivity|].
  now rewrite integer_of_number_of_Z, IH by assumption.
Qed.

Lemma integer_cube_numbers (cb : cube) :
  Forall (fun p => let '(x, y, z) := p in safe_integer x /\ safe_integer y /\ safe_integer z)
    (vertices cb) ->
  Forall (Forall safe_integer) (faces cb) ->
  integer_cube (number_cube cb) = Some cb.
Proof.
  destruct cb as [vs fs]. cbn [vertices faces]. intros Hvs Hfs.
  unfold integer_cube, number_cube. cbn [Binary64.vertices Binary64.faces vertices faces].
  assert (Hv : all_some (map integer_point (map number_point vs)) = Some vs).
  { induction Hvs as [|p vs Hp _ IH]; cbn [map all_some]; [reflexivity|].
    now rewrite integer_point_numbers, IH by assumption. }
  assert (Hf : all_some (map (fun f => all_some (map integer_of_number f))
                           (map (map number_of_Z) fs)) = Some fs).
  { induction Hfs as [|f fs Hf _ IH]; cbn [map all_some]; [reflexivity|].
    now rewrite all_some_numbers, IH by assumption. }
  now rewrite Hv, Hf.
Qed.

(** Read as integers, it is that cube. *)
Lemma pointToCube_integers (p : point) (k : Z) :
  safe_cube p k ->
  integer_cube (Binary64.pointToCube (number_point p) (number_of_Z k)) = Some (pointToCube p k).
Proof.
  intros Hsafe. rewrite (pointToCube_numbers p k Hsafe).
  destruct p as [[x y] z]. destruct Hsafe as (Hx & Hx1 & Hy & Hy1 & Hz & Hz1 & Hk & Hk8).
  apply integer_cube_numbers.
  - unfold pointToCube, addX, addY, addZ. cbn [vertices].
    repeat (constructor; [repeat split; assumption|]). constructor.
  - unfold pointToCube, defaultCubeFaces. cbn [faces map length].
    change (Z.of_nat 8) with 8%Z.
    repeat (constructor; [repeat (constructor; [safe|]); constructor|]). constructor.
Qed.

(** In the safe range the index that [xyzToIndex] returns is that of the
    function on [Z]. *)
Lemma xyzToIndex_numbers (x y z width depth height : Z) :
  (0 <= x < width)%Z -> (0 <= y < depth)%Z -> (0 <= z)%Z ->
  safe_integer width -> safe_integer depth ->
  safe_integer (xyzToIndex x y z width depth height) ->
  Binary64.xyzToIndex (number_of_Z x) (number_of_Z y) (number_of_Z z)
    (number_of_Z width) (number_of_Z depth) (number_of_Z height)
  = number_of_Z (xyzToIndex x y z width depth height).
Proof.
  unfold xyzToIndex, Binary64.xyzToIndex. intros Hx Hy Hz Hw Hd Hi.
  assert (Hdz : (0 <= depth * z)%Z) by nia.
  assert (Hzz : (z <= depth * z)%Z) by nia.
  assert (Hin : (0 <= y + depth * z <= width * (y + depth * z))%Z) by nia.
  rewrite (num_mul_exact depth z) by (try safe; lia).
  rewrite (num_add_exact y (depth * z)) by safe.
  rewrite (num_mul_exact width (y + depth * z)) by (try safe; lia).
  rewrite (num_add_exact x) by safe.
  reflexivity.
Qed.

(** ** Cubes *)

(** C6: in the safe range of the numbers the cube at an anchor has the
    eight corners in the fixed order and the six fixed faces, every index
    shifted by eight times the cube index. *)
Theorem pointToCube_vertices_faces (x y z cubeIndex : Z) :
  safe_cube (x, y, z) cubeIndex ->
  integer_cube
    (Binary64.pointToCube (number_of_Z x, number_of_Z y, number_of_Z z) (number_of_Z cubeIndex))
  = Some
      {| vertices :=
           [ (x, y, z); (x + 1, y, z); (x, y + 1, z); (x + 1, y + 1, z);
             (x, y, z + 1); (x + 1, y, z + 1); (x, y + 1, z + 1); (x + 1, y + 1, z + 1) ]%Z;
         faces :=
           [ [1 + cubeIndex * 8; 2 + cubeIndex * 8; 4 + cubeIndex * 8; 3 + cubeIndex * 8];
             [3 + cubeIndex * 8; 4 + cubeIndex * 8; 8 + cubeIndex * 8; 7 + cubeIndex * 8];
             [7 + cubeIndex * 8; 8 + cubeIndex * 8; 6 + cubeIndex * 8; 5 + cubeIndex * 8];
             [5 + cubeIndex * 8; 6 + cubeIndex * 8; 2 + cubeIndex * 8; 1 + cubeIndex * 8];
             [3 + cubeIndex * 8; 7 + cubeIndex * 8; 5 + cubeIndex * 8; 1 + cubeIndex * 8];
             [8 + cubeIndex * 8; 4 + cubeIndex * 8; 2 + cubeIndex * 8; 6 + cubeIndex * 8] ]%Z |}.
Proof.
  intros Hsafe. exact (pointToCube_integers (x, y, z) cubeIndex Hsafe).
Qed.

Lemma pointToCube_vertices_faces_witness :
  safe_cube (1, 2, 3)%Z 5
  /\ integer_cube
       (Binary64.pointToCube (number_of_Z 1, number_of_Z 2, number_of_Z 3) (number_of_Z 5))
     = Some
         {| vertices :=
              [ (1, 2, 3); (2, 2, 3); (1, 3, 3); (2, 3, 3);
                (1, 2, 4); (2, 2, 4); (1, 3, 4); (2, 3, 4) ]%Z;
            faces :=
              [ [41; 42; 44; 43]; [43; 44; 48; 47]; [47; 48; 46; 45];
                [45; 46; 42; 41]; [43; 47; 45; 41]; [48; 44; 42; 46] ]%Z |}.
Proof.
  assert (Hsafe : safe_cube (1, 2, 3)%Z 5) by (repeat split).
  split; [exact Hsafe|].
  exact (pointToCube_vertices_faces 1 2 3 5 Hsafe).
Defined.

(** Past the safe range the sums are rounded. With the cube counter at
    2^50 the indexes 2^53 + 1 and 2^53 + 3 of the first face are not
    numbers: the face comes out with 2^53 and twice 2^53 + 4. With the
    anchor at 2^53 the second corner is the anchor itself. *)
Lemma pointToCube_rounds_past_the_safe_range :
  option_map (fun cb => hd [] (faces cb))
    (integer_cube
       (Binary64.pointToCube (number_of_Z 0, number_of_Z 0, number_of_Z 0)
          (number_of_Z (2 ^ 50))))
  = Some [2 ^ 53; 2 ^ 53 + 2; 2 ^ 53 + 4; 2 ^ 53 + 4]%Z
  /\ integer_cube
       (Binary64.pointToCube (number_of_Z 0, number_of_Z 0, number_of_Z 0)
          (number_of_Z (2 ^ 50)))
     <> Some
          {| vertices :=
               [ (0, 0, 0); (0 + 1, 0, 0); (0, 0 + 1, 0); (0 + 1, 0 + 1, 0);
                 (0, 0, 0 + 1); (0 + 1, 0, 0 + 1); (0, 0 + 1, 0 + 1); (0 + 1, 0 + 1, 0 + 1) ]%Z;
             faces :=
               [ [1 + 2 ^ 50 * 8; 2 + 2 ^ 50 * 8; 4 + 2 ^ 50 * 8; 3 + 2 ^ 50 * 8];
                 [3 + 2 ^ 50 * 8; 4 + 2 ^ 50 * 8; 8 + 2 ^ 50 * 8; 7 + 2 ^ 50 * 8];
                 [7 + 2 ^ 50 * 8; 8 + 2 ^ 50 * 8; 6 + 2 ^ 50 * 8; 5 + 2 ^ 50 * 8];
                 [5 + 2 ^ 50 * 8; 6 + 2 ^ 50 * 8; 2 + 2 ^ 50 * 8; 1 + 2 ^ 50 * 8];
                 [3 + 2 ^ 50 * 8; 7 + 2 ^ 50 * 8; 5 + 2 ^ 50 * 8; 1 + 2 ^ 50 * 8];
                 [8 + 2 ^ 50 * 8; 4 + 2 ^ 50 * 8; 2 + 2 ^ 50 * 8; 6 + 2 ^ 50 * 8] ]%Z |}
  /\ option_map (fun cb => firstn 2 (vertices cb))
       (integer_cube
          (Binary64.pointToCube (number_of_Z (2 ^ 53), number_of_Z 0, number_of_Z 0)
             (number_of_Z 0)))
     = Some [(2 ^ 53, 0, 0); (2 ^ 53, 0, 0)]%Z.
Proof.
  split; [vm_compute; reflexivity|]. split; [|vm_compute; reflexivity].
  intros H.
  apply (f_equal (option_map (fun cb => hd [] (faces cb)))) in H.
  vm_compute in H. discriminate H.
Qed.

(** ** chunkBuffer *)

Lemma slice_step (buffer : Buffer) (i chunkSize : nat) :
  slice buffer i (i + chunkSize) ++ skipn (i + chunkSize) buffer = skipn i buffer.
Proof.
  unfold slice.
  replace (i + chunkSize - i) with chunkSize by lia.
  rewrite Nat.add_comm, <- skipn_skipn.
  apply firstn_skipn.
Qed.

Lemma slice_length (buffer : Buffer) (i chunkSize : nat) :
  length (slice buffer i (i + chunkSize)) = Nat.min chunkSize (length buffer - i).
Proof.
  unfold slice.
  replace (i + chunkSize - i) with chunkSize by lia.
  now rewrite length_firstn, length_skipn.
Qed.

Lemma concat_nil_sized (chunkSize : nat) (l : list Buffer) :
  Forall (chunk_sized chunkSize) l -> concat l = [] -> l = [].
Proof.
  intros HF Hc. destruct l as [|c l]; [reflexivity|].
  inversion HF as [|? ? [Hc1 _] _]; subst.
  destruct c; [simpl in Hc1; lia | discriminate].
Qed.

Lemma chunkBuffer_loop_spec (chunkSize : nat) (buffer : Buffer) :
  0 < chunkSize ->
  forall fuel i out,
    length buffer <= i + fuel ->
    exists rest,
      chunkBuffer_loop fuel buffer chunkSize i out = Normal (out ++ rest)
      /\ concat rest = skipn i buffer
      /\ Forall (chunk_sized chunkSize) rest
      /\ (forall j, S j < length rest -> length (nth j rest []) = chunkSize).
Proof.
  intros Hpos fuel.
  induction fuel as [|fuel IH]; intros i out Hfuel.
  - exists []. simpl.
    destruct (Nat.ltb_spec i (length buffer)); [lia|].
    rewrite app_nil_r, skipn_all2 by lia.
    repeat split; auto. simpl; lia.
  - simpl. destruct (Nat.ltb_spec i (length buffer)) as [Hlt|Hge].
    + destruct (IH (i + chunkSize) (out ++ [slice buffer i (i + chunkSize)]))
        as (rest & Hrun & Hcat & Hsz & Hfull); [lia|].
      exists (slice buffer i (i + chunkSize) :: rest).
      rewrite Hrun, <- app_assoc. simpl.
      split; [reflexivity|].
      split; [rewrite Hcat; apply slice_step|].
      split.
      * constructor; [|assumption].
        unfold chunk_sized. rewrite slice_length. lia.
      * intros [|j] Hj; simpl in *.
        -- rewrite slice_length.
           destruct (Nat.le_gt_cases (length buffer) (i + chunkSize)) as [Hend|Hmore]; [|lia].
           rewrite skipn_all2 in Hcat by lia.
           apply (concat_nil_sized chunkSize) in Hcat; [|assumption].
           subst rest. simpl in Hj. lia.
        -- apply Hfull. lia.
    + exists []. rewrite app_nil_r, skipn_all2 by lia.
      repeat split; auto. simpl; lia.
Qed.

(** C9: with a chunk size above 0 the chunks are each of the chunk size,
    the last one apart, which holds between 1 and that many bytes, and put
    end to end they are the buffer. *)
Theorem chunkBuffer_partition (buffer : Buffer) (chunkSize : nat) :
  0 < chunkSize ->
  exists chunks,
    chunkBuffer buffer chunkSize = Normal chunks
    /\ concat chunks = buffer
    /\ (forall j, S j < length chunks -> length (nth j chunks []) = chunkSize)
    /\ (forall c, In c chunks -> 1 <= length c <= chunkSize).
Proof.
  intros Hpos.
  destruct (chunkBuffer_loop_spec chunkSize buffer Hpos (length buffer) 0 [])
    as (rest & Hrun & Hcat & Hsz & Hfull); [lia|].
  exists rest. unfold chunkBuffer. rewrite Hrun. simpl.
  repeat split; auto; now apply (proj1 (Forall_forall _ _) Hsz).
Qed.

Lemma chunkBuffer_partition_witness :
  exists chunks,
    chunkBuffer [x01; x02; x03; x04; x05] 2 = Normal chunks
    /\ concat chunks = [x01; x02; x03; x04; x05]
    /\ (forall j, S j < length chunks -> length (nth j chunks []) = 2)
    /\ (forall c, In c chunks -> 1 <= length c <= 2).
Proof. apply (chunkBuffer_partition [x01; x02; x03; x04; x05] 2). lia. Defined.

(** ** The header *)

(** C8: on a buffer of fewer than 12 bytes one of the three reads of a
    dimension throws a range error, the conversion ends with that error and
    returns no text. *)
Theorem convertCub_short_buffer (data : Buffer) (name : string) :
  length data < 12 ->
  exists e,
    convertCub data name = Throw e
    /\ (e = ERR_BUFFER_OUT_OF_BOUNDS \/ e = ERR_OUT_OF_RANGE)
    /\ (readUInt32LE data 0 = Throw e
        \/ readUInt32LE data 4 = Throw e
        \/ readUInt32LE data 8 = Throw e)
    /\ (forall out, convertCub data name <> Normal out).
Proof.
  intros Hlen. unfold convertCub, readUInt32LE.
  destruct (Nat.ltb_spec (length data) (0 + 4)) as [H0|H0].
  - destruct (Nat.ltb_spec (length data) 4); [|lia].
    exists ERR_BUFFER_OUT_OF_BOUNDS. simpl. repeat split; auto. discriminate.
  - destruct (Nat.ltb_spec (length data) 4); [lia|].
    destruct (Nat.ltb_spec (length data) (4 + 4)) as [H4|H4].
    + exists ERR_OUT_OF_RANGE. simpl. repeat split; auto. discriminate.
    + destruct (Nat.ltb_spec (length data) (8 + 4)) as [H8|H8]; [|lia].
      exists ERR_OUT_OF_RANGE. simpl. repeat split; auto. discriminate.
Qed.

Lemma convertCub_short_buffer_witness :
  exists e,
    convertCub [x01; x00; x00; x00; x01] "a" = Throw e
    /\ (e = ERR_BUFFER_OUT_OF_BOUNDS \/ e = ERR_OUT_OF_RANGE)
    /\ (readUInt32LE [x01; x00; x00; x00; x01] 0 = Throw e
        \/ readUInt32LE [x01; x00; x00; x00; x01] 4 = Throw e
        \/ readUInt32LE [x01; x00; x00; x00; x01] 8 = Throw e)
    /\ (forall out, convertCub [x01; x00; x00; x00; x01] "a" <> Normal out).
Proof. apply (convertCub_short_buffer [x01; x00; x00; x00; x01] "a"). simpl. lia. Defined.

(** ** Materials *)

Lemma component_six_decimals (b : byte) : component b = Normal (six_decimals b).
Proof. destruct b; vm_compute; reflexivity. Qed.

Lemma mapM_component (color : Buffer) :
  mapM component color = Normal (map six_decimals color).
Proof.
  induction color as [|b color IH]; simpl; [reflexivity|].
  now rewrite component_six_decimals, IH.
Qed.

Lemma zeroToOne_six_decimals (colors : list Buffer) :
  zeroToOne colors = Normal (map (map six_decimals) colors).
Proof.
  unfold zeroToOne.
  induction colors as [|c colors IH]; simpl; [reflexivity|].
  now rewrite mapM_component, IH.
Qed.

Lemma mapi_from_map {A B C : Type} (f : B -> nat -> C) (g : A -> B) (l : list A) (i : nat) :
  mapi_from f (map g l) i = mapi_from (fun a j => f (g a) j) l i.
Proof.
  revert i; induction l as [|a l IH]; intros i; simpl; [reflexivity|].
  now rewrite IH.
Qed.

Lemma mapi_from_length {A B : Type} (f : A -> nat -> B) (l : list A) (i : nat) :
  length (mapi_from f l i) = length l.
Proof. revert i; induction l as [|a l IH]; intros i; simpl; auto. Qed.

Lemma mapi_from_nth_error {A B : Type} (f : A -> nat -> B) (l : list A) (i j : nat) :
  nth_error (mapi_from f l i) j = option_map (fun a => f a (i + j)) (nth_error l j).
Proof.
  revert i j; induction l as [|a l IH]; intros i [|j]; simpl; try reflexivity.
  - now rewrite Nat.add_0_r.
  - rewrite IH. now replace (S i + j) with (i + S j) by lia.
Qed.

Lemma generateMTL_text (colors : list Buffer) (name : string) :
  generateMTL colors name =
  Normal ("# CUB to OBJ v0.0.1" ++ nl ++ join nl (mapi (kd_block name) colors))%string.
Proof.
  unfold generateMTL. rewrite zeroToOne_six_decimals. simpl.
  unfold mapi. rewrite mapi_from_map. reflexivity.
Qed.

(** C1, as the program has it: one block per colour in the order of the
    list, each component being the byte over 255 with six decimals, the
    zero byte like any other. *)
Theorem generateMTL_blocks (colors : list Buffer) (name : string) :
  generateMTL colors name =
    Normal ("# CUB to OBJ v0.0.1" ++ nl ++ join nl (mapi (kd_block name) colors))%string
  /\ length (mapi (kd_block name) colors) = length colors
  /\ six_decimals x00 = "0.000000"
  /\ six_decimals xff = "1.000000"
  /\ six_decimals x80 = "0.501961".
Proof.
  split; [apply generateMTL_text|].
  split; [apply mapi_from_length | vm_compute; repeat split; reflexivity].
Qed.

(** C1, as worded, fails on a zero byte: it is written with six decimals
    too. *)
Lemma generateMTL_zero_component :
  generateMTL [[xff; x00; x00]] "a" =
    Normal ("# CUB to OBJ v0.0.1" ++ nl ++ "newmtl a-mat-0" ++ nl
            ++ "Kd 1.000000 0.000000 0.000000" ++ nl)%string
  /\ component x00 <> Normal "0".
Proof. split; [now vm_compute | vm_compute; discriminate]. Qed.

(** ** The colour registry *)

Lemma filter_snoc {A : Type} (f : A -> bool) (l : list A) (a : A) :
  filter f (l ++ [a]) = filter f l ++ (if f a then [a] else []).
Proof. rewrite filter_app. reflexivity. Qed.

Lemma seen_colors_snoc (cells : list Buffer) (c : Buffer) :
  seen_colors (cells ++ [c]) =
  if is_black c then seen_colors cells
  else if existsb (buffer_eqb c) (seen_colors cells) then seen_colors cells
       else seen_colors cells ++ [c].
Proof.
  unfold seen_colors. rewrite filter_snoc.
  destruct (is_black c); simpl.
  - now rewrite app_nil_r.
  - rewrite (first_seen_snoc _ buffer_eqb_spec).
    now rewrite (existsb_first_seen _ buffer_eqb_spec).
Qed.

Lemma seen_colors_In (cells : list Buffer) (c : Buffer) :
  In c (seen_colors cells) <-> In c cells /\ is_black c = false.
Proof.
  unfold seen_colors. rewrite (first_seen_In _ buffer_eqb_spec), filter_In.
  now rewrite negb_true_iff.
Qed.

Lemma seen_colors_NoDup (cells : list Buffer) : NoDup (seen_colors cells).
Proof. apply (first_seen_NoDup _ buffer_eqb_spec). Qed.

Lemma registry_of_snoc (seen : list Buffer) (c : Buffer) :
  ~ In c seen ->
  registry_of (seen ++ [c]) =
  registry_of seen
  ++ [(toString_hex c, {| entry_color := c; entry_index := Z.of_nat (length seen) |})].
Proof.
  intros Hnot. unfold registry_of. rewrite map_app. simpl.
  rewrite (position_app_notin _ buffer_eqb_spec) by assumption.
  f_equal. apply map_ext_in. intros a Ha.
  now rewrite (position_app_In _ buffer_eqb_spec).
Qed.

Lemma index_for_snoc (cells : list Buffer) (c a : Buffer) :
  In a cells -> index_for (cells ++ [c]) a = index_for cells a.
Proof.
  intros Hin. unfold index_for.
  destruct (is_black a) eqn:Ha; [reflexivity|].
  assert (Hseen : In a (seen_colors cells)) by now apply seen_colors_In.
  rewrite seen_colors_snoc.
  destruct (is_black c); [reflexivity|].
  destruct (existsb (buffer_eqb c) (seen_colors cells)); [reflexivity|].
  now rewrite (position_app_In _ buffer_eqb_spec).
Qed.


Lemma index_for_last (cells : list Buffer) (c : Buffer) :
  index_for (cells ++ [c]) c =
  if is_black c then VNum (-1)
  else VNum (Z.of_nat (if existsb (buffer_eqb c) (seen_colors cells)
                       then position buffer_eqb c (seen_colors cells)
                       else length (seen_colors cells))).
Proof.
  unfold index_for. rewrite seen_colors_snoc.
  destruct (is_black c); [reflexivity|].
  destruct (existsb (buffer_eqb c) (seen_colors cells)) eqn:Hmem; [reflexivity|].
  rewrite (position_app_notin _ buffer_eqb_spec); [reflexivity|].
  rewrite <- (existsb_eqb _ buffer_eqb_spec). congruence.
Qed.

Lemma isolate_step_spec (cells : list Buffer) (c : Buffer) :
  isolate_step (isolate_spec cells) c (length cells) = isolate_spec (cells ++ [c]).
Proof.
  assert (Hset : forall v, arr_set (map (index_for cells) cells) (length cells) v
                           = map (index_for cells) cells ++ [v]).
  { intros v. rewrite <- (length_map (index_for cells) cells). apply arr_set_end. }
  unfold isolate_spec, isolate_step.
  rewrite map_app. simpl map.
  rewrite (map_ext_in _ _ _ (fun a Ha => index_for_snoc cells c a Ha)).
  rewrite index_for_last, seen_colors_snoc.
  change (toString_hex c =? blackKey)%string with (is_black c).
  destruct (is_black c) eqn:Hblack; [now rewrite Hset|].
  unfold registry_of at 1.
  rewrite (get_keyed buffer_eqb toString_hex buffer_eqb_spec toString_hex_inj).
  destruct (existsb (buffer_eqb c) (seen_colors cells)) eqn:Hmem.
  - now rewrite Hset.
  - assert (Hnot : ~ In c (seen_colors cells)).
    { rewrite <- (existsb_eqb _ buffer_eqb_spec). congruence. }
    rewrite Hset, registry_of_snoc by assumption.
    rewrite length_app. simpl length.
    unfold registry_of at 1.
    rewrite (set_keyed buffer_eqb toString_hex buffer_eqb_spec toString_hex_inj)
      by apply seen_colors_NoDup.
    rewrite Hmem.
    f_equal. lia.
Qed.

Lemma isolate_run_spec (cells : list Buffer) : isolate_run cells = isolate_spec cells.
Proof.
  unfold isolate_run.
  induction cells as [|c cells IH] using rev_ind; [reflexivity|].
  rewrite forEach_from_snoc, IH. apply isolate_step_spec.
Qed.

Lemma registry_colors (seen : list Buffer) : map entry_color (map snd (registry_of seen)) = seen.
Proof.
  unfold registry_of. rewrite !map_map. simpl. apply map_id.
Qed.

Lemma colorIndicies_spec (cells : list Buffer) :
  colorIndicies (isolateColors cells) = map (index_for cells) cells.
Proof. unfold isolateColors. now rewrite isolate_run_spec. Qed.

Lemma uniqueColors_spec (cells : list Buffer) :
  uniqueColors (isolateColors cells) = map entry_color (values (registry_of (seen_colors cells))).
Proof. unfold isolateColors. now rewrite isolate_run_spec. Qed.

Lemma uniqueColors_perm (cells : list Buffer) :
  Permutation (uniqueColors (isolateColors cells)) (seen_colors cells).
Proof.
  rewrite uniqueColors_spec.
  rewrite <- (registry_colors (seen_colors cells)) at 2.
  apply Permutation_map, values_perm.
Qed.

Lemma uniqueColors_length (cells : list Buffer) :
  length (uniqueColors (isolateColors cells)) = length (seen_colors cells).
Proof. apply Permutation_length, uniqueColors_perm. Qed.

(** ** The scan of the grid *)

Section Scan.
Variables (width depth height : nat) (colorIndicies : list value).

Let color := color_at width depth height colorIndicies.
Let found := discovered_in width depth height colorIndicies.
Let group_on := group_in width depth height colorIndicies.
Let grouped := grouped_in width depth height colorIndicies.

Let collect_at := collect_point width depth height colorIndicies.

Lemma byColor_of_scan :
  byColor_of width depth height colorIndicies =
  fold_left collect_at (scan_points width depth height) empty.
Proof.
  unfold byColor_of, scan_points.
  rewrite fold_left_flat_map.
  apply fold_left_ext. intros o x.
  rewrite fold_left_flat_map.
  apply fold_left_ext. intros o' y.
  now rewrite fold_left_map.
Qed.

Lemma found_snoc (pts : list point) (p : point) :
  found (pts ++ [p]) =
  if excluded (color p) then found pts
  else if existsb (value_eqb (color p)) (found pts) then found pts
       else found pts ++ [color p].
Proof.
  unfold found, discovered_in. rewrite map_app. cbn [map]. rewrite filter_snoc. fold color.
  destruct (excluded (color p)); simpl.
  - now rewrite app_nil_r.
  - rewrite (first_seen_snoc _ value_eqb_spec).
    now rewrite (existsb_first_seen _ value_eqb_spec).
Qed.

Lemma found_In (pts : list point) (c : value) :
  In c (found pts) <-> excluded c = false /\ exists p, In p pts /\ color p = c.
Proof.
  unfold found, discovered_in.
  rewrite (first_seen_In _ value_eqb_spec), filter_In, in_map_iff, negb_true_iff.
  fold color. firstorder.
Qed.

Lemma found_NoDup (pts : list point) : NoDup (found pts).
Proof. apply (first_seen_NoDup _ value_eqb_spec). Qed.

Lemma group_on_snoc_other (pts : list point) (p : point) (c : value) :
  color p <> c -> group_on (pts ++ [p]) c = group_on pts c.
Proof.
  intros Hne. unfold group_on, group_in, points_in. f_equal.
  rewrite filter_snoc. fold color.
  destruct (value_eqb_spec (color p) c); [contradiction | apply app_nil_r].
Qed.

Lemma group_on_snoc_same (pts : list point) (p : point) :
  group_on (pts ++ [p]) (color p) =
  {| colorIndex := color p; points := points (group_on pts (color p)) ++ [p] |}.
Proof.
  unfold group_on, group_in, points_in. simpl. f_equal.
  rewrite filter_snoc. fold color.
  now rewrite (eqb_same _ value_eqb_spec).
Qed.

Lemma group_on_fresh (pts : list point) (c : value) :
  excluded c = false -> ~ In c (found pts) -> points (group_on pts c) = [].
Proof.
  intros Hex Hnot. unfold group_on, group_in, points_in. simpl.
  induction pts as [|q pts IH]; simpl; [reflexivity|].
  fold color.
  destruct (value_eqb_spec (color q) c) as [Heq|Hne].
  - exfalso. apply Hnot, found_In. split; [assumption|].
    exists q. split; [now left | assumption].
  - apply IH. intros Hin. apply Hnot.
    apply found_In in Hin as [_ (p & Hp & Hc)].
    apply found_In. split; [assumption|]. exists p. split; [now right | assumption].
Qed.

Lemma collect_point_spec (pts : list point) (p : point) :
  collect_at (grouped pts) p = grouped (pts ++ [p]).
Proof.
  destruct p as [[x y] z]. unfold collect_at, collect_point, collect.
  change (arr_get colorIndicies
            (xyzToIndex x y z (Z.of_nat width) (Z.of_nat depth) (Z.of_nat height)))
    with (color (x, y, z)).
  set (p := (x, y, z)). set (c := color p).
  change (value_eqb c (VNum (-1))) with (excluded c).
  unfold grouped, grouped_in. fold found. fold group_on.
  rewrite found_snoc. fold c.
  destruct (excluded c) eqn:Hex.
  - apply map_ext_in. intros a Ha. f_equal. symmetry.
    apply group_on_snoc_other. intros Heq. fold c in Heq. subst a.
    apply found_In in Ha. destruct Ha as [Ha _]. congruence.
  - rewrite (get_keyed value_eqb ToString value_eqb_spec ToString_inj).
    rewrite (set_keyed value_eqb ToString value_eqb_spec ToString_inj) by apply found_NoDup.
    destruct (existsb (value_eqb c) (found pts)) eqn:Hmem.
    + apply map_ext_in. intros a Ha.
      destruct (value_eqb_spec a c) as [->|Hne].
      * f_equal. unfold c. now rewrite group_on_snoc_same.
      * f_equal. symmetry. apply group_on_snoc_other. fold c. congruence.
    + assert (Hnot : ~ In c (found pts)).
      { rewrite <- (existsb_eqb _ value_eqb_spec). congruence. }
      rewrite map_app. simpl. f_equal.
      * apply map_ext_in. intros a Ha. f_equal. symmetry.
        apply group_on_snoc_other. fold c. congruence.
      * f_equal. f_equal. unfold c. rewrite group_on_snoc_same. f_equal.
        fold c. now rewrite group_on_fresh.
Qed.

Lemma fold_collect_point (pts : list point) :
  fold_left collect_at pts empty = grouped pts.
Proof.
  induction pts as [|p pts IH] using rev_ind; [reflexivity|].
  rewrite fold_left_app. simpl. rewrite IH. apply collect_point_spec.
Qed.

(** The dictionary after the three loops: one entry per colour index
    discovered, in the order of discovery, with the points that carry the
    index in scan order. *)
Lemma byColor_of_spec :
  byColor_of width depth height colorIndicies =
  map (fun c => (ToString c, group_of width depth height colorIndicies c))
    (discovered width depth height colorIndicies).
Proof. rewrite byColor_of_scan. apply fold_collect_point. Qed.
End Scan.

(** ** The order of the objects *)

Lemma insert_value_perm (c : value) (l : list value) : Permutation (insert_value c l) (c :: l).
Proof.
  induction l as [|b l IH]; simpl; [reflexivity|].
  destruct (index_of (ToString c) <=? index_of (ToString b))%N; [reflexivity|].
  rewrite IH. apply perm_swap.
Qed.

Lemma ascending_perm (l : list value) : Permutation (ascending l) l.
Proof.
  induction l as [|c l IH]; simpl; [reflexivity|].
  now rewrite insert_value_perm, IH.
Qed.

Lemma insert_value_sorted (c : value) (l : list value) :
  StronglySorted index_le l -> StronglySorted index_le (insert_value c l).
Proof.
  induction 1 as [|b l Hsorted IH Hall]; simpl.
  - repeat constructor.
  - destruct (N.leb_spec (index_of (ToString c)) (index_of (ToString b))) as [Hle|Hgt].
    + constructor; [now constructor|].
      constructor; [assumption|].
      eapply Forall_impl; [|exact Hall].
      intros a Ha. unfold index_le in *. lia.
    + constructor; [assumption|].
      apply (Permutation_Forall (Permutation_sym (insert_value_perm c l))).
      constructor; [unfold index_le; lia | assumption].
Qed.

Lemma ascending_sorted (l : list value) : StronglySorted index_le (ascending l).
Proof.
  induction l as [|c l IH]; simpl; [constructor | now apply insert_value_sorted].
Qed.

Lemma index_le_lt (a b : value) :
  index_key a = true -> index_key b = true -> a <> b -> index_le a b -> value_lt a b.
Proof.
  destruct a as [x|], b as [y|]; try discriminate.
  intros Ha Hb Hne. unfold index_le.
  rewrite !index_of_ToString by assumption.
  simpl in *. apply andb_true_iff in Ha as [Ha _], Hb as [Hb _].
  apply Z.leb_le in Ha, Hb. intros Hle.
  assert (x <> y) by congruence. lia.
Qed.

Lemma sorted_strict (l : list value) :
  NoDup l -> Forall (fun c => index_key c = true) l ->
  StronglySorted index_le l -> StronglySorted value_lt l.
Proof.
  intros Hnd Hkeys Hsorted.
  induction Hsorted as [|a l Hsorted IH Hall]; [constructor|].
  inversion Hnd as [|? ? Hnotin Hnd']; subst.
  inversion Hkeys as [|? ? Ha Hkeys']; subst.
  constructor; [auto|].
  rewrite Forall_forall in *. intros b Hb.
  apply index_le_lt; auto. intros ->. contradiction.
Qed.

(** The colour indexes that are array indexes come out in ascending
    order. *)
Lemma ascending_index_keys (l : list value) :
  NoDup l -> StronglySorted value_lt (ascending (filter index_key l)).
Proof.
  intros Hnd. apply sorted_strict.
  - apply (Permutation_NoDup (Permutation_sym (ascending_perm _))).
    now apply NoDup_filter.
  - apply (Permutation_Forall (Permutation_sym (ascending_perm _))).
    apply Forall_forall. intros c Hc. now apply filter_In in Hc.
  - apply ascending_sorted.
Qed.

Section KeyedValues.
Context {V : Type} (val : value -> V).

Let keyed (c : value) : string * V := (ToString c, val c).

Lemma sort_by_index_keyed (l : list value) :
  sort_by_index (map keyed l) = map keyed (ascending l).
Proof.
  induction l as [|c l IH]; simpl; [reflexivity|].
  rewrite IH. generalize (ascending l) as s.
  induction s as [|b s IHs]; simpl; [reflexivity|].
  destruct (index_of (ToString c) <=? index_of (ToString b))%N; [reflexivity|].
  now rewrite IHs.
Qed.

Lemma filter_keyed (f : string -> bool) (l : list value) :
  filter (fun p => f (fst p)) (map keyed l)
  = map keyed (filter (fun c => f (ToString c)) l).
Proof.
  induction l as [|c l IH]; simpl; [reflexivity|].
  destruct (f (ToString c)); simpl; now rewrite IH.
Qed.

(** [Object.values] of a dictionary keyed by colour indexes. *)
Lemma values_keyed (l : list value) :
  values (map keyed l)
  = map val (ascending (filter index_key l) ++ filter (fun c => negb (index_key c)) l).
Proof.
  unfold values, own_properties.
  rewrite (filter_keyed is_index), (filter_keyed (fun k => negb (is_index k))).
  rewrite sort_by_index_keyed, <- map_app, map_map. simpl.
  rewrite (filter_ext _ index_key) by apply is_index_ToString.
  rewrite (filter_ext (fun c => negb (is_index (ToString c))) (fun c => negb (index_key c)))
    by (intros c; now rewrite is_index_ToString).
  reflexivity.
Qed.
End KeyedValues.

Lemma discovered_NoDup (width depth height : nat) (colorIndicies : list value) :
  NoDup (discovered width depth height colorIndicies).
Proof. apply found_NoDup. Qed.

Lemma object_order_perm (width depth height : nat) (colorIndicies : list value) :
  Permutation (object_order width depth height colorIndicies)
    (discovered width depth height colorIndicies).
Proof.
  unfold object_order. rewrite ascending_perm. apply filter_split_perm.
Qed.

Lemma values_byColor_of (width depth height : nat) (colorIndicies : list value) :
  values (byColor_of width depth height colorIndicies)
  = map (group_of width depth height colorIndicies)
      (object_order width depth height colorIndicies).
Proof. rewrite byColor_of_spec. apply values_keyed. Qed.

Lemma objects_of_texts (name : string) (group_for : value -> group) (order : list value)
    (cubeIndex : Z) :
  (forall c, colorIndex (group_for c) = c) ->
  Forall2 (fun c o => snd o = object_text name c (fst o))
    order (objects_of name (map group_for order) cubeIndex).
Proof.
  intros Hindex.
  revert cubeIndex; induction order as [|c order IH]; intros cubeIndex; simpl.
  - constructor.
  - unfold object_of.
    destruct (cubes_of (points (group_for c)) cubeIndex) as [cubes cubeIndex'].
    constructor; [simpl; now rewrite Hindex | apply IH].
Qed.

(** C3, as the program has it: one object per colour index discovered,
    the exclusion marker apart; the objects come in the order of
    [Object.values], the array indexes ascending before the other keys in
    their order of discovery; a line feed stands between two objects. *)
Theorem generateOBJ_object_order (width depth height : nat) (colorIndicies : list value)
    (name : string) :
  let found := discovered width depth height colorIndicies in
  let order := object_order width depth height colorIndicies in
  let groups := map (group_of width depth height colorIndicies) order in
  values (byColor_of width depth height colorIndicies) = groups
  /\ generateOBJ width depth height colorIndicies name
     = ("# CUB to OBJ v0.0.1" ++ nl ++ "mtllib " ++ name ++ ".mtl" ++ nl
        ++ join nl (map snd (objects_of name groups 0)))%string
  /\ Forall2 (fun c o => snd o = object_text name c (fst o)) order (objects_of name groups 0)
  /\ NoDup order
  /\ Permutation order found
  /\ order = ascending (filter index_key found) ++ filter (fun c => negb (index_key c)) found
  /\ StronglySorted value_lt (ascending (filter index_key found)).
Proof.
  intros found order groups.
  assert (Hvalues : values (byColor_of width depth height colorIndicies) = groups)
    by apply values_byColor_of.
  split; [assumption|].
  split; [unfold generateOBJ; now rewrite Hvalues|].
  split; [now apply objects_of_texts|].
  split; [apply (Permutation_NoDup (Permutation_sym (object_order_perm _ _ _ _))),
            discovered_NoDup|].
  split; [apply object_order_perm|].
  split; [reflexivity|].
  apply ascending_index_keys, discovered_NoDup.
Qed.

(** C3, as worded, fails on a grid of 2 by 1 by 2 cells of four colours:
    the scan discovers the indexes 0, 2, 1, 3 in that order and the objects
    come out as 0, 1, 2, 3. *)
Lemma generateOBJ_order_not_discovery :
  let colorIndicies := [VNum 0; VNum 1; VNum 2; VNum 3] in
  discovered 2 1 2 colorIndicies = [VNum 0; VNum 2; VNum 1; VNum 3]
  /\ map colorIndex (values (byColor_of 2 1 2 colorIndicies))
     = [VNum 0; VNum 1; VNum 2; VNum 3]
  /\ map colorIndex (values (byColor_of 2 1 2 colorIndicies))
     <> discovered 2 1 2 colorIndicies.
Proof. vm_compute. split; [reflexivity|]. split; [reflexivity | discriminate]. Qed.

(** ** The cube counter *)

Lemma cubes_of_length (pts : list point) (cubeIndex : Z) :
  length (fst (cubes_of pts cubeIndex)) = length pts
  /\ snd (cubes_of pts cubeIndex) = (cubeIndex + Z.of_nat (length pts))%Z.
Proof.
  revert cubeIndex; induction pts as [|p pts IH]; intros cubeIndex; simpl.
  - split; [reflexivity | lia].
  - destruct (IH (cubeIndex + 1)%Z) as [Hlen Hnext].
    destruct (cubes_of pts (cubeIndex + 1)) as [cs next]. simpl in *.
    split; [now rewrite Hlen | lia].
Qed.

Lemma cubes_of_nth_error (pts : list point) (cubeIndex : Z) (j : nat) :
  nth_error (fst (cubes_of pts cubeIndex)) j
  = option_map (fun p => pointToCube p (cubeIndex + Z.of_nat j)) (nth_error pts j).
Proof.
  revert cubeIndex j; induction pts as [|p pts IH]; intros cubeIndex j; simpl.
  - now destruct j.
  - specialize (IH (cubeIndex + 1)%Z).
    destruct (cubes_of pts (cubeIndex + 1)) as [cs next]. simpl in *.
    destruct j as [|j]; simpl.
    + now rewrite Z.add_0_r.
    + rewrite IH. destruct (nth_error pts j); simpl; [|reflexivity].
      do 2 f_equal. lia.
Qed.

(** The counter goes on from one object to the next: the cube at place
    [j] of the whole output is built with the counter at [j] past its
    start. *)
Lemma objects_of_nth_error (name : string) (groups : list group) (cubeIndex : Z) (j : nat) :
  nth_error (concat (map fst (objects_of name groups cubeIndex))) j
  = option_map (fun p => pointToCube p (cubeIndex + Z.of_nat j))
      (nth_error (concat (map points groups)) j).
Proof.
  revert cubeIndex j; induction groups as [|g groups IH]; intros cubeIndex j; simpl.
  - now destruct j.
  - unfold object_of.
    pose proof (cubes_of_length (points g) cubeIndex) as [Hlen Hnext].
    pose proof (cubes_of_nth_error (points g) cubeIndex j) as Hnth.
    destruct (cubes_of (points g) cubeIndex) as [cubes next]. simpl in *.
    rewrite !nth_error_app, Hlen.
    destruct (Nat.ltb_spec j (length (points g))) as [Hlt|Hge]; [assumption|].
    rewrite IH, Hnext.
    destruct (nth_error (concat (map points groups)) (j - length (points g))); simpl;
      [|reflexivity].
    do 2 f_equal. lia.
Qed.

Lemma emitted_cubes_nth_error (width depth height : nat) (colorIndicies : list value)
    (name : string) (j : nat) :
  nth_error (emitted_cubes width depth height colorIndicies name) j
  = option_map (fun p => pointToCube p (Z.of_nat j))
      (nth_error (emitted_points width depth height colorIndicies) j).
Proof. unfold emitted_cubes, emitted_points. now rewrite objects_of_nth_error. Qed.

Lemma pointToCube_faces (p : point) (k : Z) :
  faces (pointToCube p k) =
  [ [1 + k * 8; 2 + k * 8; 4 + k * 8; 3 + k * 8];
    [3 + k * 8; 4 + k * 8; 8 + k * 8; 7 + k * 8];
    [7 + k * 8; 8 + k * 8; 6 + k * 8; 5 + k * 8];
    [5 + k * 8; 6 + k * 8; 2 + k * 8; 1 + k * 8];
    [3 + k * 8; 7 + k * 8; 5 + k * 8; 1 + k * 8];
    [8 + k * 8; 4 + k * 8; 2 + k * 8; 6 + k * 8] ]%Z.
Proof. reflexivity. Qed.

Lemma pointToCube_face_range (p : point) (k : Z) (f : list Z) (i : Z) :
  In f (faces (pointToCube p k)) -> In i f -> (8 * k + 1 <= i <= 8 * k + 8)%Z.
Proof.
  intros Hf Hi. rewrite pointToCube_faces in Hf. cbn [In] in Hf.
  repeat (destruct Hf as [<-|Hf]; [cbn [In] in Hi; intuition lia|]).
  contradiction.
Qed.

Lemma vertex_pool_length (cubes : list cube) :
  (forall cb, In cb cubes -> length (vertices cb) = 8) ->
  length (concat (map vertices cubes)) = 8 * length cubes.
Proof.
  induction cubes as [|cb cubes IH]; intros Hall; simpl; [reflexivity|].
  rewrite length_app, IH, (Hall cb) by (intros; apply Hall; now right) || now left.
  lia.
Qed.

Lemma emitted_cubes_vertices (width depth height : nat) (colorIndicies : list value)
    (name : string) (cb : cube) :
  In cb (emitted_cubes width depth height colorIndicies name) -> length (vertices cb) = 8.
Proof.
  intros Hin. apply In_nth_error in Hin as [j Hj].
  rewrite emitted_cubes_nth_error in Hj.
  destruct (nth_error _ j); [|discriminate]. now injection Hj as <-.
Qed.

(** C7: the cube at place [k] of the output is built with the counter at
    [k], whatever the object it belongs to; its face indexes lie between
    [8k + 1] and [8k + 8], inside the pool of all the vertices, and above
    every index of a cube that comes before. *)
Theorem cube_counter_global (width depth height : nat) (colorIndicies : list value)
    (name : string) (k : nat) (cb : cube) :
  nth_error (emitted_cubes width depth height colorIndicies name) k = Some cb ->
  (exists p, nth_error (emitted_points width depth height colorIndicies) k = Some p
             /\ cb = pointToCube p (Z.of_nat k))
  /\ (forall f i, In f (faces cb) -> In i f ->
        (8 * Z.of_nat k + 1 <= i <= 8 * Z.of_nat k + 8)%Z
        /\ (1 <= i <= Z.of_nat (length (concat (map vertices
                        (emitted_cubes width depth height colorIndicies name)))))%Z)
  /\ (forall j cb' f i f' i',
        j < k ->
        nth_error (emitted_cubes width depth height colorIndicies name) j = Some cb' ->
        In f (faces cb) -> In i f -> In f' (faces cb') -> In i' f' -> (i' < i)%Z).
Proof.
  intros Hk.
  assert (Hplace : forall j c, nth_error (emitted_cubes width depth height colorIndicies name) j = Some c ->
            exists p, nth_error (emitted_points width depth height colorIndicies) j = Some p
                      /\ c = pointToCube p (Z.of_nat j)).
  { intros j c Hj. rewrite emitted_cubes_nth_error in Hj.
    destruct (nth_error _ j) as [p|]; [|discriminate].
    exists p. split; [reflexivity | now injection Hj]. }
  destruct (Hplace k cb Hk) as (p & Hp & ->).
  split; [now exists p|].
  split.
  - intros f i Hf Hi.
    pose proof (pointToCube_face_range _ _ _ _ Hf Hi) as Hrange.
    split; [assumption|].
    rewrite vertex_pool_length by apply emitted_cubes_vertices.
    assert (k < length (emitted_cubes width depth height colorIndicies name))
      by (apply nth_error_Some; congruence).
    lia.
  - intros j cb' f i f' i' Hjk Hj Hf Hi Hf' Hi'.
    destruct (Hplace j cb' Hj) as (p' & _ & ->).
    pose proof (pointToCube_face_range _ _ _ _ Hf Hi).
    pose proof (pointToCube_face_range _ _ _ _ Hf' Hi').
    lia.
Qed.

Lemma cube_counter_global_witness :
  exists cb,
    nth_error (emitted_cubes 2 1 1 [VNum 1; VNum 0] "a") 1 = Some cb
    /\ (exists p, nth_error (emitted_points 2 1 1 [VNum 1; VNum 0]) 1 = Some p
                  /\ cb = pointToCube p 1)
    /\ (forall f i, In f (faces cb) -> In i f -> (9 <= i <= 16)%Z).
Proof.
  exists (pointToCube (0, 0, 0)%Z 1).
  assert (H : nth_error (emitted_cubes 2 1 1 [VNum 1; VNum 0] "a") 1
              = Some (pointToCube (0, 0, 0)%Z 1)) by reflexivity.
  destruct (cube_counter_global 2 1 1 [VNum 1; VNum 0] "a" 1 _ H) as (Hp & Hrange & _).
  split; [exact H|]. split; [exact Hp|].
  intros f i Hf Hi. destruct (Hrange f i Hf Hi) as [Hr _]. simpl in Hr. lia.
Defined.

(** ** What the scan keeps *)

Lemma scan_points_In (width depth height : nat) (p : point) :
  In p (scan_points width depth height) <->
  exists x y z, x < width /\ y < depth /\ z < height
                /\ p = (Z.of_nat x, Z.of_nat y, Z.of_nat z).
Proof.
  unfold scan_points, range. rewrite in_flat_map. split.
  - intros (x' & Hx & Hin). apply in_map_iff in Hx as (x & <- & Hx).
    apply in_flat_map in Hin as (y' & Hy & Hin). apply in_map_iff in Hy as (y & <- & Hy).
    apply in_map_iff in Hin as (z' & <- & Hz). apply in_map_iff in Hz as (z & <- & Hz).
    apply in_seq in Hx, Hy, Hz. exists x, y, z. repeat split; lia.
  - intros (x & y & z & Hx & Hy & Hz & ->).
    exists (Z.of_nat x). split; [apply in_map, in_seq; lia|].
    apply in_flat_map. exists (Z.of_nat y). split; [apply in_map, in_seq; lia|].
    apply in_map, in_map, in_seq. lia.
Qed.

Lemma object_order_In (width depth height : nat) (colorIndicies : list value) (c : value) :
  In c (object_order width depth height colorIndicies) <->
  excluded c = false
  /\ exists p, In p (scan_points width depth height)
               /\ color_at width depth height colorIndicies p = c.
Proof.
  rewrite <- found_In. split; apply Permutation_in.
  - apply object_order_perm.
  - apply Permutation_sym, object_order_perm.
Qed.

(** Every point that becomes a cube is a point of the scan whose colour
    index is not the exclusion marker. *)
Lemma emitted_points_In (width depth height : nat) (colorIndicies : list value) (p : point) :
  In p (emitted_points width depth height colorIndicies) ->
  In p (scan_points width depth height)
  /\ excluded (color_at width depth height colorIndicies p) = false.
Proof.
  unfold emitted_points. rewrite values_byColor_of, map_map.
  intros Hin. apply in_concat in Hin as (pts & Hpts & Hp).
  apply in_map_iff in Hpts as (c & <- & Hc). simpl in Hp.
  unfold points_in in Hp. apply filter_In in Hp as [Hscan Hcolor].
  split; [assumption|].
  destruct (value_eqb_spec (color_at width depth height colorIndicies p) c); [|discriminate].
  subst c. now apply object_order_In in Hc.
Qed.

Lemma pointToCube_anchor (p q : point) (j k : Z) : pointToCube p j = pointToCube q k -> p = q.
Proof. intros H. apply (f_equal vertices) in H. simpl in H. congruence. Qed.

Lemma emitted_cubes_In (width depth height : nat) (colorIndicies : list value)
    (name : string) (cb : cube) :
  In cb (emitted_cubes width depth height colorIndicies name) ->
  exists p k, cb = pointToCube p k
              /\ In p (emitted_points width depth height colorIndicies).
Proof.
  intros Hin. apply In_nth_error in Hin as [j Hj].
  rewrite emitted_cubes_nth_error in Hj.
  destruct (nth_error (emitted_points width depth height colorIndicies) j) as [p|] eqn:Hp;
    [|discriminate].
  exists p, (Z.of_nat j). split; [now injection Hj | eapply nth_error_In; eassumption].
Qed.

Lemma xyzToIndex_nat (x y z width depth height : nat) :
  xyzToIndex (Z.of_nat x) (Z.of_nat y) (Z.of_nat z)
    (Z.of_nat width) (Z.of_nat depth) (Z.of_nat height)
  = Z.of_nat (x + width * (y + depth * z)).
Proof. unfold xyzToIndex. lia. Qed.

Lemma arr_get_nat (arr : list value) (i : nat) : arr_get arr (Z.of_nat i) = nth i arr VUndef.
Proof.
  unfold arr_get. destruct (Z.ltb_spec (Z.of_nat i) 0); [lia|]. now rewrite Nat2Z.id.
Qed.

Lemma color_at_cell (width depth height : nat) (cells : list Buffer) (x y z : nat) (c : Buffer) :
  nth_error cells (x + width * (y + depth * z)) = Some c ->
  color_at width depth height (colorIndicies (isolateColors cells))
    (Z.of_nat x, Z.of_nat y, Z.of_nat z)
  = index_for cells c.
Proof.
  intros Hc. unfold color_at. rewrite xyzToIndex_nat, arr_get_nat, colorIndicies_spec.
  apply nth_error_nth. now rewrite nth_error_map, Hc.
Qed.


(** ** One cube per cell that is kept *)

Section Grouping.
Context {A : Type} (key : A -> value).

Lemma flat_map_filter_cons (a : A) (l : list A) (D : list value) :
  NoDup D ->
  Permutation
    (flat_map (fun c => filter (fun x => value_eqb (key x) c) (a :: l)) D)
    ((if existsb (value_eqb (key a)) D then [a] else [])
     ++ flat_map (fun c => filter (fun x => value_eqb (key x) c) l) D).
Proof.
  induction 1 as [|c D Hnotin Hnd IH]; simpl; [reflexivity|].
  rewrite IH.
  destruct (value_eqb_spec (key a) c) as [Heq|Hne]; simpl.
  - assert (Hmem : existsb (value_eqb (key a)) D = false).
    { destruct (existsb (value_eqb (key a)) D) eqn:Hmem; [|reflexivity].
      apply (existsb_eqb _ value_eqb_spec) in Hmem. congruence. }
    rewrite Hmem. reflexivity.
  - destruct (existsb (value_eqb (key a)) D); simpl; [|reflexivity].
    apply Permutation_sym, Permutation_middle.
Qed.

Lemma flat_map_filter_perm (keep : value -> bool) (l : list A) (D : list value) :
  NoDup D ->
  (forall a, In a l -> existsb (value_eqb (key a)) D = keep (key a)) ->
  Permutation
    (flat_map (fun c => filter (fun x => value_eqb (key x) c) l) D)
    (filter (fun x => keep (key x)) l).
Proof.
  intros Hnd. induction l as [|a l IH]; intros Hkeys.
  - simpl. clear Hkeys. induction D as [|c D IHD]; [reflexivity|].
    simpl. apply IHD. now inversion Hnd.
  - rewrite flat_map_filter_cons by assumption.
    rewrite IH by (intros b Hb; apply Hkeys; now right).
    simpl. rewrite (Hkeys a) by now left.
    now destruct (keep (key a)).
Qed.
End Grouping.

(** The points that become cubes are the points of the scan whose colour
    index is not the exclusion marker, each once. *)
Lemma emitted_points_perm (width depth height : nat) (colorIndicies : list value) :
  Permutation (emitted_points width depth height colorIndicies)
    (filter (fun p => negb (excluded (color_at width depth height colorIndicies p)))
       (scan_points width depth height)).
Proof.
  unfold emitted_points. rewrite values_byColor_of, map_map. simpl.
  rewrite <- flat_map_concat_map.
  rewrite (Permutation_flat_map _ (object_order_perm width depth height colorIndicies)).
  apply (flat_map_filter_perm (color_at width depth height colorIndicies)
           (fun c => negb (excluded c))).
  - apply discovered_NoDup.
  - intros p Hp. apply eq_true_iff_eq.
    rewrite (existsb_eqb _ value_eqb_spec), negb_true_iff.
    unfold discovered. rewrite found_In. split.
    + now intros [Hex _].
    + intros Hex. split; [assumption|]. now exists p.
Qed.

Lemma objects_of_length (name : string) (groups : list group) (cubeIndex : Z) :
  length (concat (map fst (objects_of name groups cubeIndex)))
  = length (concat (map points groups)).
Proof.
  revert cubeIndex; induction groups as [|g groups IH]; intros cubeIndex; simpl; [reflexivity|].
  unfold object_of.
  pose proof (cubes_of_length (points g) cubeIndex) as [Hlen _].
  destruct (cubes_of (points g) cubeIndex) as [cubes next]. simpl in *.
  now rewrite !length_app, Hlen, IH.
Qed.

Lemma emitted_cubes_length (width depth height : nat) (colorIndicies : list value)
    (name : string) :
  length (emitted_cubes width depth height colorIndicies name)
  = length (emitted_points width depth height colorIndicies).
Proof. apply objects_of_length. Qed.
(** ** The transparent colour *)

(** C4: a cell that holds (0,0,0) carries the marker -1 in the index
    array; (0,0,0) is not among the unique colours, which are the colours
    of the material blocks; no cube of the output, the source of every
    vertex and face line, is anchored at the place of such a cell; the cubes
    are as many as the places of the grid whose index is not the marker. *)
Theorem transparent_cells_excluded (cells : list Buffer) (width depth height : nat)
    (name : string) :
  let r := isolateColors cells in
  (forall i, nth_error cells i = Some [x00; x00; x00] ->
             nth_error (colorIndicies r) i = Some (VNum (-1)))
  /\ ~ In [x00; x00; x00] (uniqueColors r)
  /\ generateMTL (uniqueColors r) name
     = Normal ("# CUB to OBJ v0.0.1" ++ nl
               ++ join nl (mapi (kd_block name) (uniqueColors r)))%string
  /\ (forall x y z k,
        nth_error cells (x + width * (y + depth * z)) = Some [x00; x00; x00] ->
        ~ In (pointToCube (Z.of_nat x, Z.of_nat y, Z.of_nat z) k)
             (emitted_cubes width depth height (colorIndicies r) name))
  /\ length (emitted_cubes width depth height (colorIndicies r) name)
     = length (filter (fun p => negb (excluded (color_at width depth height (colorIndicies r) p)))
                 (scan_points width depth height)).
Proof.
  intros r. unfold r. split; [|split; [|split; [|split]]].
  - intros i Hi. rewrite colorIndicies_spec, nth_error_map, Hi. reflexivity.
  - intros Hin.
    apply (Permutation_in _ (uniqueColors_perm cells)) in Hin.
    apply seen_colors_In in Hin as [_ Hblack]. discriminate.
  - apply generateMTL_text.
  - intros x y z k Hcell Hin.
    apply emitted_cubes_In in Hin as (p & j & Heq & Hp).
    apply pointToCube_anchor in Heq. subst p.
    apply emitted_points_In in Hp as [_ Hex].
    rewrite (color_at_cell _ _ _ _ _ _ _ _ Hcell) in Hex. discriminate.
  - rewrite emitted_cubes_length. apply Permutation_length, emitted_points_perm.
Qed.

Lemma transparent_cells_excluded_witness :
  nth_error (colorIndicies (isolateColors [[xff; x00; x00]; [x00; x00; x00]])) 1
    = Some (VNum (-1))
  /\ ~ In (pointToCube (1, 0, 0)%Z 1)
         (emitted_cubes 2 1 1
            (colorIndicies (isolateColors [[xff; x00; x00]; [x00; x00; x00]])) "a").
Proof.
  destruct (transparent_cells_excluded [[xff; x00; x00]; [x00; x00; x00]] 2 1 1 "a")
    as (Hmark & _ & _ & Hcube & _).
  split.
  - apply Hmark. reflexivity.
  - apply (Hcube 1 0 0 1%Z). reflexivity.
Defined.

(** ** Material names *)

Lemma index_for_range (cells : list Buffer) (c : Buffer) :
  In c cells ->
  index_for cells c = VNum (-1)
  \/ exists j, j < length (uniqueColors (isolateColors cells))
               /\ index_for cells c = VNum (Z.of_nat j).
Proof.
  intros Hin. unfold index_for. destruct (is_black c) eqn:Hblack; [now left|].
  right. exists (position buffer_eqb c (seen_colors cells)). split; [|reflexivity].
  rewrite uniqueColors_length. apply (position_lt _ buffer_eqb_spec).
  now apply seen_colors_In.
Qed.

Lemma newmtl_names_In (colors : list Buffer) (name : string) (j : nat) :
  j < length colors -> In (matName (VNum (Z.of_nat j)) name) (newmtl_names colors name).
Proof.
  intros Hj. unfold newmtl_names, mapi.
  destruct (nth_error colors j) as [c|] eqn:Hc; [|now apply nth_error_None in Hc; lia].
  apply (nth_error_In _ j). now rewrite mapi_from_nth_error, Hc.
Qed.

Lemma grid_index_bound (x y z width depth height : nat) :
  x < width -> y < depth -> z < height ->
  x + width * (y + depth * z) < width * depth * height.
Proof.
  intros Hx Hy Hz.
  assert (Hrow : y + depth * z + 1 <= depth * height).
  { assert (depth * (z + 1) <= depth * height) by (apply Nat.mul_le_mono_l; lia). lia. }
  assert (Hall : width * (y + depth * z + 1) <= width * (depth * height))
    by now apply Nat.mul_le_mono_l.
  rewrite <- Nat.mul_assoc. lia.
Qed.

(** The colour index of every object lies among the places of the unique
    colours, when the grid does not run past the cells. *)
Lemma usemtl_names_defined (cells : list Buffer) (width depth height : nat) (name : string) :
  width * depth * height <= length cells ->
  incl (usemtl_names width depth height (colorIndicies (isolateColors cells)) name)
       (newmtl_names (uniqueColors (isolateColors cells)) name).
Proof.
  intros Hsize m Hm. unfold usemtl_names in Hm.
  rewrite values_byColor_of, map_map in Hm. simpl in Hm.
  apply in_map_iff in Hm as (c & <- & Hc).
  apply object_order_In in Hc as (Hex & p & Hp & Hcolor).
  apply scan_points_In in Hp as (x & y & z & Hx & Hy & Hz & ->).
  pose proof (grid_index_bound x y z width depth height Hx Hy Hz) as Hbound.
  destruct (nth_error cells (x + width * (y + depth * z))) as [cell|] eqn:Hcell;
    [|apply nth_error_None in Hcell; lia].
  rewrite (color_at_cell _ _ _ _ _ _ _ _ Hcell) in Hcolor. subst c.
  destruct (index_for_range cells cell (nth_error_In _ _ Hcell)) as [Hm1|(j & Hj & Hidx)].
  - rewrite Hm1 in Hex. discriminate.
  - rewrite Hidx. now apply newmtl_names_In.
Qed.

Lemma readUInt32LE_long (data : Buffer) (offset : nat) :
  offset + 4 <= length data -> exists n, readUInt32LE data offset = Normal n.
Proof.
  intros Hlen. unfold readUInt32LE.
  destruct (Nat.ltb_spec (length data) (offset + 4)); [lia|]. eauto.
Qed.

Lemma chunkBuffer_three (buffer : Buffer) :
  exists colors, chunkBuffer buffer 3 = Normal colors /\ concat colors = buffer.
Proof.
  destruct (chunkBuffer_loop_spec 3 buffer (Nat.lt_0_succ 2) (length buffer) 0 [])
    as (rest & Hrun & Hcat & _); [lia|].
  exists rest. split; assumption.
Qed.


(** ** A payload that is not a multiple of three bytes *)

Lemma concat_length_three (full : list Buffer) :
  Forall (fun c => length c = 3) full -> length (concat full) = 3 * length full.
Proof.
  induction 1 as [|c full Hc _ IH]; simpl; [reflexivity|].
  rewrite length_app, Hc, IH. lia.
Qed.

(** The chunks of three of a buffer whose length is not a multiple of
    three: full chunks, then a last one with the bytes that are left. *)
Lemma chunkBuffer_three_tail (buffer : Buffer) :
  length buffer mod 3 <> 0 ->
  exists full tail,
    chunkBuffer buffer 3 = Normal (full ++ [tail])
    /\ Forall (fun c => length c = 3) full
    /\ length tail = length buffer mod 3
    /\ concat full ++ tail = buffer.
Proof.
  intros Hmod.
  destruct (chunkBuffer_loop_spec 3 buffer (Nat.lt_0_succ 2) (length buffer) 0 [])
    as (chunks & Hrun & Hcat & Hsz & Hfull); [lia|].
  simpl in Hrun, Hcat.
  destruct (exists_last (l := chunks)) as (full & tail & ->).
  { intros ->. simpl in Hcat. subst buffer. now apply Hmod. }
  assert (Hthree : Forall (fun c => length c = 3) full).
  { apply Forall_forall. intros c Hc.
    destruct (In_nth full c [] Hc) as (j & Hj & Hnth).
    rewrite <- Hnth, <- (app_nth1 full [tail] [] Hj).
    apply Hfull. rewrite length_app. simpl. lia. }
  assert (Htail : 1 <= length tail <= 3).
  { apply (proj1 (Forall_forall _ _) Hsz). apply in_or_app. right. now left. }
  assert (Hlen : length buffer = 3 * length full + length tail).
  { rewrite <- Hcat, concat_app, length_app, (concat_length_three full Hthree).
    simpl. rewrite app_nil_r. reflexivity. }
  exists full, tail. unfold chunkBuffer. rewrite Hrun.
  split; [reflexivity|]. split; [assumption|].
  split.
  - rewrite Hlen in Hmod |- *.
    rewrite Nat.add_comm, Nat.mul_comm, Nat.Div0.mod_add in Hmod |- *.
    destruct (Nat.eq_dec (length tail) 3) as [H3|H3].
    + rewrite H3 in Hmod. now simpl in Hmod.
    + symmetry. apply Nat.mod_small. lia.
  - rewrite <- Hcat, concat_app. simpl. now rewrite app_nil_r.
Qed.

Lemma short_cell_not_black (c : Buffer) : length c <> 3 -> is_black c = false.
Proof.
  intros Hlen. destruct (is_black c) eqn:Hb; [|reflexivity].
  apply is_black_iff in Hb. subst c. now simpl in Hlen.
Qed.

(** The last, short cell is a colour of its own: it goes into the
    registry with the next free index. *)
Lemma isolateColors_short_tail (full : list Buffer) (tail : Buffer) :
  Forall (fun c => length c = 3) full -> length tail <> 3 ->
  let r := isolateColors (full ++ [tail]) in
  In tail (uniqueColors r)
  /\ length (uniqueColors r) = S (length (uniqueColors (isolateColors full)))
  /\ colorIndicies r
     = colorIndicies (isolateColors full)
       ++ [VNum (Z.of_nat (length (uniqueColors (isolateColors full))))].
Proof.
  intros Hfull Htail r. unfold r.
  assert (Hblack : is_black tail = false) by now apply short_cell_not_black.
  assert (Hnew : existsb (buffer_eqb tail) (seen_colors full) = false).
  { destruct (existsb (buffer_eqb tail) (seen_colors full)) eqn:Hmem; [|reflexivity].
    apply (existsb_eqb _ buffer_eqb_spec) in Hmem.
    apply seen_colors_In in Hmem as [Hin _].
    rewrite Forall_forall in Hfull. now apply Hfull in Hin. }
  assert (Hseen : seen_colors (full ++ [tail]) = seen_colors full ++ [tail])
    by now rewrite seen_colors_snoc, Hblack, Hnew.
  split; [|split].
  - apply (Permutation_in _ (Permutation_sym (uniqueColors_perm _))).
    rewrite Hseen. apply in_or_app. right. now left.
  - rewrite !uniqueColors_length, Hseen, length_app. simpl. lia.
  - rewrite !colorIndicies_spec, map_app. simpl.
    rewrite (map_ext_in _ _ _ (fun a Ha => index_for_snoc full tail a Ha)).
    now rewrite index_for_last, Hblack, Hnew, uniqueColors_length.
Qed.

(** C2, as the program has it: when the bytes after the header are not a
    multiple of three, the bytes left over make a last, short cell; it is
    not taken for the transparent colour, it enters the registry as a colour
    of its own and carries the next free index. *)
Theorem trailing_group_kept (data : Buffer) :
  12 <= length data ->
  (length data - 12) mod 3 <> 0 ->
  exists full tail,
    chunkBuffer (slice_from data 12) 3 = Normal (full ++ [tail])
    /\ Forall (fun c => length c = 3) full
    /\ length tail = (length data - 12) mod 3
    /\ concat full ++ tail = slice_from data 12
    /\ In tail (uniqueColors (isolateColors (full ++ [tail])))
    /\ length (uniqueColors (isolateColors (full ++ [tail])))
       = S (length (uniqueColors (isolateColors full)))
    /\ colorIndicies (isolateColors (full ++ [tail]))
       = colorIndicies (isolateColors full)
         ++ [VNum (Z.of_nat (length (uniqueColors (isolateColors full))))].
Proof.
  intros Hlen Hmod.
  assert (Hrest : length (slice_from data 12) = length data - 12)
    by (unfold slice_from; apply length_skipn).
  destruct (chunkBuffer_three_tail (slice_from data 12)) as (full & tail & Hrun & Hfull & Htail & Hcat).
  { now rewrite Hrest. }
  rewrite Hrest in Htail.
  exists full, tail.
  repeat (split; [assumption|]).
  apply isolateColors_short_tail; [assumption|].
  rewrite Htail. pose proof (Nat.mod_upper_bound (length data - 12) 3). lia.
Qed.

Lemma trailing_group_kept_witness :
  exists full tail,
    chunkBuffer
      (slice_from [x01; x00; x00; x00; x01; x00; x00; x00; x01; x00; x00; x00;
                   xff; x00; x00; x12] 12) 3
    = Normal (full ++ [tail])
    /\ length tail = 1
    /\ In tail (uniqueColors (isolateColors (full ++ [tail]))).
Proof.
  destruct (trailing_group_kept
              [x01; x00; x00; x00; x01; x00; x00; x00; x01; x00; x00; x00; xff; x00; x00; x12])
    as (full & tail & Hrun & _ & Htail & _ & Hin & _).
  - simpl. lia.
  - simpl. lia.
  - exists full, tail. repeat split; assumption.
Defined.

(** C2, as worded, fails on a grid of one cell followed by one more byte:
    the byte is a cell of the decoded sequence, a colour of the registry and
    a block of the material text. *)
Lemma trailing_group_not_dropped :
  let data := [x01; x00; x00; x00; x01; x00; x00; x00; x01; x00; x00; x00;
               xff; x00; x00; x12] in
  chunkBuffer (slice_from data 12) 3 = Normal [[xff; x00; x00]; [x12]]
  /\ chunkBuffer (slice_from data 12) 3 <> Normal [[xff; x00; x00]]
  /\ uniqueColors (isolateColors [[xff; x00; x00]; [x12]]) = [[x12]; [xff; x00; x00]]
  /\ option_map mtl (match convertCub data "a" with Normal r => Some r | _ => None end)
     = Some ("# CUB to OBJ v0.0.1" ++ nl
             ++ "newmtl a-mat-0" ++ nl ++ "Kd 0.070588" ++ nl ++ nl
             ++ "newmtl a-mat-1" ++ nl ++ "Kd 1.000000 0.000000 0.000000" ++ nl)%string.
Proof.
  vm_compute. split; [reflexivity|]. split; [discriminate|]. split; reflexivity.
Qed.

(** ** The unique colours and the indexes into them *)

(** What holds of [isolateColors] on every input: the index array has one
    entry per cell, the cells of one colour carry one index, the unique
    colours are the colours seen, in some order. *)
Lemma isolateColors_indices (cells : list Buffer) :
  let r := isolateColors cells in
  colorIndicies r = map (index_for cells) cells
  /\ length (colorIndicies r) = length cells
  /\ Permutation (uniqueColors r) (seen_colors cells).
Proof.
  simpl. rewrite colorIndicies_spec, length_map.
  split; [reflexivity|]. split; [reflexivity | apply uniqueColors_perm].
Qed.

(** When no colour has a hex key that is an array index, the unique
    colours come in the order of first appearance and every index is the
    place of the colour of its cell. *)
Lemma isolateColors_first_appearance (cells : list Buffer) :
  forallb (fun c => negb (is_index (toString_hex c))) cells = true ->
  uniqueColors (isolateColors cells) = seen_colors cells
  /\ forall i c, nth_error cells i = Some c -> is_black c = false ->
       exists j, nth_error (colorIndicies (isolateColors cells)) i = Some (VNum (Z.of_nat j))
                 /\ nth_error (uniqueColors (isolateColors cells)) j = Some c.
Proof.
  intros Hkeys.
  assert (Hunique : uniqueColors (isolateColors cells) = seen_colors cells).
  { rewrite uniqueColors_spec, values_creation_order; [apply registry_colors|].
    unfold registry_of. rewrite forallb_forall. intros p Hp.
    apply in_map_iff in Hp as (c & <- & Hc). simpl.
    apply seen_colors_In in Hc as [Hc _].
    rewrite forallb_forall in Hkeys. now apply Hkeys. }
  split; [assumption|].
  intros i c Hi Hblack.
  exists (position buffer_eqb c (seen_colors cells)). split.
  - rewrite colorIndicies_spec, nth_error_map, Hi. simpl.
    unfold index_for. now rewrite Hblack.
  - rewrite Hunique. apply (position_nth_error _ buffer_eqb_spec).
    apply seen_colors_In. split; [eapply nth_error_In; eassumption | assumption].
Qed.

(** C5 fails on the cells (ff,ff,ff), (12,34,56): the hex key of the
    second colour, 123456, is an array index, so [Object.values] puts that
    colour before the first; the indexes 0 and 1 of the cells then name the
    colour of the other cell, and so do the materials of the objects. *)
Theorem isolateColors_registry_order_broken :
  let cells := [[xff; xff; xff]; [x12; x34; x56]] in
  let data := [x02; x00; x00; x00; x01; x00; x00; x00; x01; x00; x00; x00;
               xff; xff; xff; x12; x34; x56] in
  let r := isolateColors cells in
  chunkBuffer (slice_from data 12) 3 = Normal cells
  /\ uniqueColors r = [[x12; x34; x56]; [xff; xff; xff]]
  /\ colorIndicies r = [VNum 0; VNum 1]
  /\ seen_colors cells = [[xff; xff; xff]; [x12; x34; x56]]
  /\ nth_error (uniqueColors r) 0 <> nth_error cells 0
  /\ option_map mtl (match convertCub data "a" with Normal out => Some out | _ => None end)
     = Some ("# CUB to OBJ v0.0.1" ++ nl
             ++ "newmtl a-mat-0" ++ nl ++ "Kd 0.070588 0.203922 0.337255" ++ nl ++ nl
             ++ "newmtl a-mat-1" ++ nl ++ "Kd 1.000000 1.000000 1.000000" ++ nl)%string.
Proof.
  vm_compute. repeat (split; [reflexivity|]). split; [discriminate | reflexivity].
Qed.

(** ** The lines of the two texts *)


Lemma append_assoc (a b c : string) : ((a ++ b) ++ c = a ++ (b ++ c))%string.
Proof. induction a as [|x a IH]; simpl; [reflexivity | now rewrite IH]. Qed.

Lemma append_empty_r (a : string) : (a ++ "")%string = a.
Proof. induction a as [|x a IH]; simpl; [reflexivity | now rewrite IH]. Qed.

Lemma no_newline_append (a b : string) :
  no_newline (a ++ b) = no_newline a && no_newline b.
Proof.
  induction a as [|x a IH]; simpl; [reflexivity|].
  now rewrite IH, andb_assoc.
Qed.

Lemma no_newline_join (sep : string) (l : list string) :
  no_newline sep = true -> Forall (fun s => no_newline s = true) l ->
  no_newline (join sep l) = true.
Proof.
  intros Hsep. induction 1 as [|s l Hs Hl IH]; [reflexivity|].
  destruct l as [|s' l]; [exact Hs|].
  change (join sep (s :: s' :: l)) with (s ++ sep ++ join sep (s' :: l))%string.
  now rewrite !no_newline_append, Hs, Hsep, IH.
Qed.

Lemma no_newline_uint (d : Decimal.uint) : no_newline (NilEmpty.string_of_uint d) = true.
Proof. induction d; simpl; auto. Qed.

Lemma no_newline_string_of_Z (z : Z) : no_newline (string_of_Z z) = true.
Proof.
  unfold string_of_Z. destruct (Z.to_int z) as [d|d]; simpl.
  - destruct d; try reflexivity; apply (no_newline_uint (_ d)) || apply no_newline_uint.
  - destruct d; try reflexivity; apply no_newline_uint.
Qed.

Lemma no_newline_ToString (c : value) : no_newline (ToString c) = true.
Proof. destruct c; [apply no_newline_string_of_Z | reflexivity]. Qed.

Lemma no_newline_six_decimals (b : byte) : no_newline (six_decimals b) = true.
Proof. destruct b; reflexivity. Qed.

Lemma lines_line (l rest : string) :
  no_newline l = true -> lines (l ++ nl ++ rest) = l :: lines rest.
Proof.
  induction l as [|c l IH]; intros Hl; [reflexivity|].
  cbn [no_newline] in Hl. apply andb_true_iff in Hl as [Hc Hl].
  apply negb_true_iff in Hc.
  cbn [append lines]. rewrite Hc.
  now rewrite (IH Hl).
Qed.

Lemma lines_unlines (ls : list string) (rest : string) :
  Forall (fun l => no_newline l = true) ls ->
  lines (unlines ls ++ rest) = ls ++ lines rest.
Proof.
  induction 1 as [|l ls Hl _ IH]; [reflexivity|].
  cbn [unlines List.app].
  rewrite !append_assoc, lines_line by assumption.
  now rewrite IH.
Qed.

(** The lines of blocks that a line feed separates: those of each block,
    with an empty line between two blocks and at the end. *)
Lemma directive_names_blocks (pre : string) (header : list string) (blocks : list (list string)) :
  directive pre "" = [] ->
  Forall (fun l => no_newline l = true) header ->
  Forall (Forall (fun l => no_newline l = true)) blocks ->
  directive_names pre (unlines header ++ join nl (map unlines blocks))
  = flat_map (directive pre) header ++ flat_map (flat_map (directive pre)) blocks.
Proof.
  intros Hblank Hheader Hblocks. unfold directive_names.
  rewrite lines_unlines, flat_map_app by assumption. f_equal.
  induction Hblocks as [|b blocks Hb Hblocks IH]; [simpl; now rewrite Hblank|].
  destruct blocks as [|b' blocks].
  - cbn [map join flat_map].
    rewrite <- (append_empty_r (unlines b)), lines_unlines by assumption.
    rewrite flat_map_app. cbn [lines flat_map]. now rewrite Hblank, !app_nil_r.
  - change (join nl (map unlines (b :: b' :: blocks)))
      with (unlines b ++ nl ++ join nl (map unlines (b' :: blocks)))%string.
    rewrite lines_unlines by assumption.
    change (nl ++ join nl (map unlines (b' :: blocks)))%string
      with ("" ++ nl ++ join nl (map unlines (b' :: blocks)))%string.
    rewrite lines_line by reflexivity.
    rewrite flat_map_app.
    change (flat_map (directive pre) ("" :: lines (join nl (map unlines (b' :: blocks)))))
      with (directive pre "" ++ flat_map (directive pre) (lines (join nl (map unlines (b' :: blocks))))).
    rewrite Hblank, IH. reflexivity.
Qed.

Lemma join_lines {A : Type} (f : A -> string) (l : list A) :
  join "" (map (fun a => f a ++ nl)%string l) = unlines (map f l).
Proof.
  induction l as [|a l IH]; [reflexivity|].
  destruct l as [|a' l].
  - cbn [map join unlines]. now rewrite append_empty_r.
  - change (join "" (map (fun a => f a ++ nl)%string (a :: a' :: l)))
      with ((f a ++ nl) ++ "" ++ join "" (map (fun a => f a ++ nl)%string (a' :: l)))%string.
    rewrite IH. cbn [map unlines append]. now rewrite append_assoc.
Qed.

Lemma unlines_app (a b : list string) : unlines (a ++ b) = (unlines a ++ unlines b)%string.
Proof.
  induction a as [|l a IH]; [reflexivity|].
  cbn [List.app unlines]. now rewrite IH, !append_assoc.
Qed.

Lemma vertex_line_text (v : point) : vertex_line v = (vertex_text v ++ nl)%string.
Proof. destruct v as [[x y] z]. unfold vertex_line, vertex_text. now rewrite append_assoc. Qed.

Lemma face_line_text (f : list Z) : face_line f = (face_text f ++ nl)%string.
Proof. unfold face_line, face_text. now rewrite append_assoc. Qed.

Lemma object_text_lines (name : string) (c : value) (cubes : list cube) :
  object_text name c cubes = unlines (object_lines name c cubes).
Proof.
  unfold object_text, object_lines.
  rewrite (map_ext _ _ vertex_line_text), (map_ext _ _ face_line_text), !join_lines.
  rewrite !unlines_app. cbn [unlines]. rewrite append_empty_r.
  now rewrite !append_assoc.
Qed.

Lemma kd_block_lines (name : string) (c : Buffer) (i : nat) :
  kd_block name c i = unlines (material_lines name c i).
Proof.
  unfold kd_block, material_lines, matName. cbn [unlines ToString].
  now rewrite append_empty_r, !append_assoc.
Qed.

Lemma flat_map_none {A B C : Type} (f : B -> list C) (g : A -> B) (l : list A) :
  (forall a, f (g a) = []) -> flat_map f (map g l) = [].
Proof.
  intros Hf. induction l as [|a l IH]; simpl; [reflexivity|]. now rewrite Hf, IH.
Qed.

Lemma no_newline_matName (c : value) (name : string) :
  no_newline name = true -> no_newline (matName c name) = true.
Proof.
  intros Hname. unfold matName.
  now rewrite !no_newline_append, Hname, no_newline_ToString.
Qed.

Lemma no_newline_vertex_text (v : point) : no_newline (vertex_text v) = true.
Proof.
  destruct v as [[x y] z]. unfold vertex_text.
  rewrite no_newline_append, no_newline_join; [reflexivity | reflexivity|].
  repeat constructor; apply no_newline_string_of_Z.
Qed.

Lemma no_newline_face_text (f : list Z) : no_newline (face_text f) = true.
Proof.
  unfold face_text.
  rewrite no_newline_append, no_newline_join; [reflexivity | reflexivity|].
  apply Forall_forall. intros s Hs. apply in_map_iff in Hs as (z & <- & _).
  apply no_newline_string_of_Z.
Qed.

Lemma object_lines_no_newline (name : string) (c : value) (cubes : list cube) :
  no_newline name = true ->
  Forall (fun l => no_newline l = true) (object_lines name c cubes).
Proof.
  intros Hname. unfold object_lines.
  repeat (apply Forall_app; split).
  - constructor; [|constructor].
    now rewrite !no_newline_append, Hname, no_newline_ToString.
  - apply Forall_forall. intros l Hl. apply in_map_iff in Hl as (v & <- & _).
    apply no_newline_vertex_text.
  - constructor; [|constructor; [reflexivity | constructor]].
    rewrite no_newline_append. now rewrite no_newline_matName.
  - apply Forall_forall. intros l Hl. apply in_map_iff in Hl as (f & <- & _).
    apply no_newline_face_text.
Qed.

(** Of the lines of an object one starts with [usemtl]. *)
Lemma object_lines_usemtl (name : string) (c : value) (cubes : list cube) :
  flat_map (directive "usemtl ") (object_lines name c cubes) = [matName c name].
Proof.
  unfold object_lines. rewrite !flat_map_app.
  rewrite (flat_map_none _ vertex_text), (flat_map_none _ face_text).
  - reflexivity.
  - intros f. reflexivity.
  - intros [[x y] z]. reflexivity.
Qed.

Lemma objects_of_lines (name : string) (groups : list group) (cubeIndex : Z) :
  exists blocks,
    map snd (objects_of name groups cubeIndex) = map unlines blocks
    /\ Forall2 (fun g b => exists cubes, b = object_lines name (colorIndex g) cubes)
         groups blocks.
Proof.
  revert cubeIndex; induction groups as [|g groups IH]; intros cubeIndex; simpl.
  - exists []. split; constructor.
  - unfold object_of. destruct (cubes_of (points g) cubeIndex) as [cubes next].
    destruct (IH next) as (blocks & Htexts & Hblocks).
    exists (object_lines name (colorIndex g) cubes :: blocks). simpl.
    rewrite object_text_lines, Htexts.
    split; [reflexivity|]. constructor; [now exists cubes | assumption].
Qed.

(** The names after [usemtl] in the lines of the object text, when the
    base name has no line feed. *)
Lemma generateOBJ_usemtl_lines (width depth height : nat) (colorIndicies : list value)
    (name : string) :
  no_newline name = true ->
  directive_names "usemtl " (generateOBJ width depth height colorIndicies name)
  = usemtl_names width depth height colorIndicies name.
Proof.
  intros Hname. unfold generateOBJ, usemtl_names.
  destruct (objects_of_lines name (values (byColor_of width depth height colorIndicies)) 0)
    as (blocks & -> & Hblocks).
  change ("# CUB to OBJ v" ++ version ++ nl ++ "mtllib " ++ name ++ ".mtl" ++ nl
          ++ join nl (map unlines blocks))%string
    with ("# CUB to OBJ v0.0.1" ++ nl ++ "mtllib " ++ name ++ ".mtl" ++ nl
          ++ join nl (map unlines blocks))%string.
  replace ("# CUB to OBJ v0.0.1" ++ nl ++ "mtllib " ++ name ++ ".mtl" ++ nl
           ++ join nl (map unlines blocks))%string
    with (unlines ["# CUB to OBJ v0.0.1"; ("mtllib " ++ name ++ ".mtl")]
          ++ join nl (map unlines blocks))%string
    by (cbn [unlines]; now rewrite append_empty_r, !append_assoc).
  rewrite directive_names_blocks.
  - change (flat_map (directive "usemtl ")
              ["# CUB to OBJ v0.0.1"%string; ("mtllib " ++ name ++ ".mtl")%string])
      with (@nil string).
    cbn [List.app].
    induction Hblocks as [|g b groups blocks (cubes & ->) _ IH]; [reflexivity|].
    cbn [flat_map map]. rewrite object_lines_usemtl, IH. reflexivity.
  - reflexivity.
  - constructor; [reflexivity|]. constructor; [|constructor].
    now rewrite !no_newline_append, Hname.
  - induction Hblocks as [|g b groups blocks (cubes & ->) _ IH]; constructor;
      [now apply object_lines_no_newline | assumption].
Qed.

Lemma map_mapi_from {A B C : Type} (g : B -> C) (f : A -> nat -> B) (l : list A) (i : nat) :
  map g (mapi_from f l i) = mapi_from (fun a j => g (f a j)) l i.
Proof. revert i; induction l as [|a l IH]; intros i; simpl; [reflexivity | now rewrite IH]. Qed.

Lemma mapi_from_ext {A B : Type} (f g : A -> nat -> B) (l : list A) (i : nat) :
  (forall a j, f a j = g a j) -> mapi_from f l i = mapi_from g l i.
Proof.
  intros Hfg. revert i; induction l as [|a l IH]; intros i; simpl; [reflexivity|].
  now rewrite Hfg, IH.
Qed.

(** The names after [newmtl] in the lines of the material text, when the
    base name has no line feed. *)
Lemma generateMTL_newmtl_lines (colors : list Buffer) (name mtl : string) :
  no_newline name = true ->
  generateMTL colors name = Normal mtl ->
  directive_names "newmtl " mtl = newmtl_names colors name.
Proof.
  intros Hname Hmtl. rewrite generateMTL_text in Hmtl.
  assert (Hform : forall i,
            ("# CUB to OBJ v0.0.1" ++ nl ++ join nl (mapi_from (kd_block name) colors i))%string
            = (unlines ["# CUB to OBJ v0.0.1"%string]
               ++ join nl (map unlines (mapi_from (material_lines name) colors i)))%string).
  { intros i.
    rewrite (mapi_from_ext _ _ _ _ (kd_block_lines name)), <- map_mapi_from. reflexivity. }
  assert (Hm : mtl = ("# CUB to OBJ v0.0.1" ++ nl
                       ++ join nl (mapi_from (kd_block name) colors 0))%string)
    by (unfold mapi in Hmtl; congruence).
  rewrite Hm, Hform. clear Hm Hmtl Hform.
  unfold newmtl_names, mapi. generalize 0 as i. intros i.
  rewrite directive_names_blocks.
  - change (flat_map (directive "newmtl ") ["# CUB to OBJ v0.0.1"%string]) with (@nil string).
    cbn [List.app]. revert i.
    induction colors as [|c colors IH]; intros i; [reflexivity|].
    cbn [mapi_from flat_map]. rewrite IH. reflexivity.
  - reflexivity.
  - repeat constructor.
  - revert i. induction colors as [|c colors IH]; intros i; constructor; [|apply IH].
    constructor; [|constructor; [|constructor]].
    + rewrite no_newline_append. now rewrite no_newline_matName.
    + rewrite no_newline_append, no_newline_join; [reflexivity | reflexivity|].
      apply Forall_forall. intros s Hs. apply in_map_iff in Hs as (b & <- & _).
      apply no_newline_six_decimals.
Qed.

(** ** Material names in the two texts *)

(** C10: on a buffer of 12 bytes or more the conversion returns both
    texts; when the cells are at least as many as the grid has places,
    every name that an object gives after [usemtl] is a name that a material
    block gives after [newmtl], because the colour index of every object is
    a place among the unique colours. With a base name free of line feeds
    these names are the ones read off the lines of the two texts. *)
Theorem usemtl_names_in_newmtl_names (data : Buffer) (name : string) :
  12 <= length data ->
  exists width depth height colors result,
    readUInt32LE data 0 = Normal width
    /\ readUInt32LE data 4 = Normal depth
    /\ readUInt32LE data 8 = Normal height
    /\ chunkBuffer (slice_from data 12) 3 = Normal colors
    /\ convertCub data name = Normal result
    /\ obj result = generateOBJ (N.to_nat width) (N.to_nat depth) (N.to_nat height)
                      (colorIndicies (isolateColors colors)) name
    /\ generateMTL (uniqueColors (isolateColors colors)) name = Normal (mtl result)
    /\ (N.to_nat width * N.to_nat depth * N.to_nat height <= length colors ->
        incl (usemtl_names (N.to_nat width) (N.to_nat depth) (N.to_nat height)
                (colorIndicies (isolateColors colors)) name)
             (newmtl_names (uniqueColors (isolateColors colors)) name)
        /\ (no_newline name = true ->
            incl (directive_names "usemtl " (obj result))
                 (directive_names "newmtl " (mtl result)))).
Proof.
  intros Hlen.
  destruct (readUInt32LE_long data 0) as [width Hw]; [lia|].
  destruct (readUInt32LE_long data 4) as [depth Hd]; [lia|].
  destruct (readUInt32LE_long data 8) as [height Hh]; [lia|].
  destruct (chunkBuffer_three (slice_from data 12)) as (colors & Hcolors & _).
  exists width, depth, height, colors.
  exists {| obj := generateOBJ (N.to_nat width) (N.to_nat depth) (N.to_nat height)
                     (colorIndicies (isolateColors colors)) name;
            mtl := ("# CUB to OBJ v0.0.1" ++ nl
                    ++ join nl (mapi (kd_block name) (uniqueColors (isolateColors colors))))%string |}.
  cbn [obj mtl].
  repeat (split; [assumption|]).
  split.
  { unfold convertCub. rewrite Hw, Hd, Hh, Hcolors. cbn [bind].
    now rewrite generateMTL_text. }
  split; [reflexivity|].
  split; [apply generateMTL_text|].
  intros Hsize.
  pose proof (usemtl_names_defined colors _ _ _ name Hsize) as Hincl.
  split; [assumption|].
  intros Hname.
  rewrite (generateOBJ_usemtl_lines _ _ _ _ _ Hname).
  rewrite (generateMTL_newmtl_lines (uniqueColors (isolateColors colors)) name _ Hname
             (generateMTL_text _ _)).
  assumption.
Qed.

Lemma usemtl_names_in_newmtl_names_witness :
  exists result,
    convertCub [x01; x00; x00; x00; x01; x00; x00; x00; x01; x00; x00; x00; xff; x00; x00] "a"
      = Normal result
    /\ incl (directive_names "usemtl " (obj result)) (directive_names "newmtl " (mtl result)).
Proof.
  destruct (usemtl_names_in_newmtl_names
              [x01; x00; x00; x00; x01; x00; x00; x00; x01; x00; x00; x00; xff; x00; x00] "a")
    as (width & depth & height & colors & result & Hw & Hd & Hh & Hc & Hres & _ & _ & Hincl).
  - simpl. lia.
  - injection Hw as <-. injection Hd as <-. injection Hh as <-. injection Hc as <-.
    exists result. split; [exact Hres|].
    apply Hincl; [simpl; lia | reflexivity].
Defined.

(** A base name with a line feed breaks the lines of the two texts: what
    follows the line feed starts a line of its own wherever the name is
    written. With the name [a], line feed, [usemtl x], the object text has
    a line [usemtl x.mtl] from its [mtllib] line, and the material text
    defines no material of that name. *)
Lemma usemtl_name_with_line_feed :
  exists result,
    convertCub [x01; x00; x00; x00; x01; x00; x00; x00; x01; x00; x00; x00; xff; x00; x00]
      ("a" ++ nl ++ "usemtl x")
    = Normal result
    /\ directive_names "usemtl " (obj result) = ["x.mtl"; "x-obj-0"; "a"; "x-mat-0"]%string
    /\ directive_names "newmtl " (mtl result) = ["a"]%string
    /\ ~ incl (directive_names "usemtl " (obj result)) (directive_names "newmtl " (mtl result)).
Proof.
  eexists. split; [vm_compute; reflexivity|].
  split; [vm_compute; reflexivity|]. split; [vm_compute; reflexivity|].
  intros Hincl. specialize (Hincl "x.mtl"%string).
  vm_compute in Hincl. destruct Hincl as [H|[]]; [now left | discriminate H].
Qed.

(** * Further properties *)

(** ** The grid and the cell array *)

(** The coordinates are read back from the exact index. *)
Lemma index_read_back (x y z width depth height : Z) :
  (0 <= x < width)%Z -> (0 <= y < depth)%Z -> (0 <= z)%Z ->
  let i := xyzToIndex x y z width depth height in
  (i mod width = x /\ (i / width) mod depth = y /\ i / (width * depth) = z)%Z.
Proof.
  intros Hx Hy Hz i. unfold i, xyzToIndex.
  assert (Hdiv : ((x + width * (y + depth * z)) / width = y + depth * z)%Z).
  { rewrite Z.mul_comm, Z.div_add by lia. rewrite Z.div_small by lia. lia. }
  split; [|split].
  - rewrite Z.mul_comm, Z.mod_add by lia. apply Z.mod_small. lia.
  - rewrite Hdiv, Z.mul_comm, Z.mod_add by lia. apply Z.mod_small. lia.
  - rewrite <- Z.div_div by lia. rewrite Hdiv.
    rewrite Z.mul_comm, Z.div_add by lia. rewrite Z.div_small by lia. lia.
Qed.

(** X1: in the safe range of the numbers [xyzToIndex] returns the integer
    x + width * (y + depth * z) without rounding, and is undone by
    remainders and quotients: inside the width and the depth, the three
    coordinates are read back from the index. *)
Theorem xyzToIndex_inverse (x y z width depth height : Z) :
  (0 <= x < width)%Z -> (0 <= y < depth)%Z -> (0 <= z)%Z ->
  safe_integer width -> safe_integer depth ->
  safe_integer (x + width * (y + depth * z)) ->
  exists i,
    integer_of_number
      (Binary64.xyzToIndex (number_of_Z x) (number_of_Z y) (number_of_Z z)
         (number_of_Z width) (number_of_Z depth) (number_of_Z height))
    = Some i
    /\ (i = x + width * (y + depth * z)
        /\ i mod width = x /\ (i / width) mod depth = y /\ i / (width * depth) = z)%Z.
Proof.
  intros Hx Hy Hz Hw Hd Hi.
  exists (xyzToIndex x y z width depth height). split.
  - rewrite xyzToIndex_numbers by assumption.
    now apply integer_of_number_of_Z.
  - split; [reflexivity|]. now apply index_read_back.
Qed.

Lemma xyzToIndex_inverse_witness :
  exists i,
    integer_of_number
      (Binary64.xyzToIndex (number_of_Z 1) (number_of_Z 2) (number_of_Z 3)
         (number_of_Z 4) (number_of_Z 5) (number_of_Z 6))
    = Some i
    /\ (i = 1 + 4 * (2 + 5 * 3)
        /\ i mod 4 = 1 /\ (i / 4) mod 5 = 2 /\ i / (4 * 5) = 3)%Z.
Proof. apply (xyzToIndex_inverse 1 2 3 4 5 6); first [lia | reflexivity]. Defined.

(** Past the safe range the index is rounded: with a width and a depth
    of 2^32 - 1, the largest that the header can hold, the index at (0, 0, 1)
    is 2^64 - 2^33, one less than the product. *)
Lemma xyzToIndex_rounds_past_the_safe_range :
  integer_of_number
    (Binary64.xyzToIndex (number_of_Z 0) (number_of_Z 0) (number_of_Z 1)
       (number_of_Z (2 ^ 32 - 1)) (number_of_Z (2 ^ 32 - 1)) (number_of_Z 1))
  = Some (2 ^ 64 - 2 ^ 33)%Z.
Proof. vm_compute. reflexivity. Qed.

Lemma flat_map_length_const {A B : Type} (f : A -> list B) (n : nat) (l : list A) :
  (forall a, length (f a) = n) -> length (flat_map f l) = length l * n.
Proof.
  intros Hf. induction l as [|a l IH]; simpl; [reflexivity|].
  rewrite length_app, Hf, IH. lia.
Qed.

Lemma range_length (n : nat) : length (range n) = n.
Proof. unfold range. now rewrite length_map, length_seq. Qed.

Lemma scan_points_length (width depth height : nat) :
  length (scan_points width depth height) = width * depth * height.
Proof.
  unfold scan_points.
  rewrite (flat_map_length_const _ (depth * height)), range_length; [lia|].
  intros x. rewrite (flat_map_length_const _ height), range_length; [lia|].
  intros y. now rewrite length_map, range_length.
Qed.

Lemma grid_index_point (width depth height i : nat) :
  i < width * depth * height ->
  exists x y z, x < width /\ y < depth /\ z < height /\ i = x + width * (y + depth * z).
Proof.
  intros Hi.
  assert (Hw : width <> 0) by (intros ->; simpl in Hi; lia).
  assert (Hd : depth <> 0) by (intros ->; rewrite Nat.mul_0_r in Hi; simpl in Hi; lia).
  exists (i mod width), ((i / width) mod depth), (i / width / depth).
  split; [now apply Nat.mod_upper_bound|].
  split; [now apply Nat.mod_upper_bound|].
  split.
  - apply Nat.Div0.div_lt_upper_bound. apply Nat.Div0.div_lt_upper_bound. lia.
  - rewrite (Nat.add_comm ((i / width) mod depth)), <- (Nat.div_mod_eq (i / width) depth).
    pose proof (Nat.div_mod_eq i width). lia.
Qed.

Lemma NoDup_map_of_nat (l : list nat) : NoDup l -> NoDup (map Z.of_nat l).
Proof.
  induction 1 as [|n l Hnotin _ IH]; simpl; constructor; [|assumption].
  intros Hin. apply in_map_iff in Hin as (m & Hm & Hin).
  apply Nat2Z.inj in Hm. now subst m.
Qed.

Lemma scan_indices_perm (width depth height : nat) :
  Permutation (map Z.of_nat (seq 0 (width * depth * height)))
    (scan_indices width depth height).
Proof.
  apply NoDup_Permutation_bis.
  - apply NoDup_map_of_nat, seq_NoDup.
  - unfold scan_indices. rewrite !length_map, length_seq, scan_points_length. lia.
  - intros i Hi. apply in_map_iff in Hi as (n & <- & Hn). apply in_seq in Hn.
    destruct (grid_index_point width depth height n) as (x & y & z & Hx & Hy & Hz & ->); [lia|].
    unfold scan_indices. apply in_map_iff.
    exists (Z.of_nat x, Z.of_nat y, Z.of_nat z). split.
    + simpl. apply xyzToIndex_nat.
    + apply scan_points_In. exists x, y, z. auto.
Qed.

Lemma scan_indices_NoDup (width depth height : nat) : NoDup (scan_indices width depth height).
Proof.
  apply (Permutation_NoDup (scan_indices_perm width depth height)).
  apply NoDup_map_of_nat, seq_NoDup.
Qed.

Lemma scan_points_NoDup (width depth height : nat) : NoDup (scan_points width depth height).
Proof. exact (NoDup_map_inv _ _ (scan_indices_NoDup width depth height)). Qed.

Lemma filter_perm {A : Type} (f : A -> bool) (l l' : list A) :
  Permutation l l' -> Permutation (filter f l) (filter f l').
Proof.
  induction 1 as [|a l l' _ IH|a b l|l l' l'' _ IH1 _ IH2]; cbn [filter].
  - constructor.
  - destruct (f a); [now constructor | assumption].
  - destruct (f a), (f b); try apply Permutation_refl. apply perm_swap.
  - now transitivity (filter f l').
Qed.

(** At the points of a grid of fewer than 2^53 places the index is not
    rounded. *)
Lemma scan_index_numbers (width depth height : nat) (x y z : Z) :
  (Z.of_nat (width * depth * height) < 2 ^ 53)%Z ->
  In (x, y, z) (scan_points width depth height) ->
  Binary64.xyzToIndex (number_of_Z x) (number_of_Z y) (number_of_Z z)
    (number_of_Z (Z.of_nat width)) (number_of_Z (Z.of_nat depth)) (number_of_Z (Z.of_nat height))
  = number_of_Z (index_at width depth height (x, y, z))
  /\ safe_integer (index_at width depth height (x, y, z)).
Proof.
  intros Hgrid Hin.
  apply scan_points_In in Hin as (a & b & c & Ha & Hb & Hc & Hp).
  injection Hp as -> -> ->.
  pose proof (grid_index_bound a b c width depth height Ha Hb Hc) as Hbound.
  assert (Hi : safe_integer (index_at width depth height (Z.of_nat a, Z.of_nat b, Z.of_nat c))).
  { cbn [index_at]. rewrite xyzToIndex_nat. unfold safe_integer. lia. }
  split; [|exact Hi].
  assert (Hwd : width * 1 <= width * (depth * height) /\ depth * 1 <= depth * (width * height)).
  { split; apply Nat.mul_le_mono_l; nia. }
  apply xyzToIndex_numbers; try lia; try exact Hi; unfold safe_integer; nia.
Qed.

(** X2: in a grid of fewer than 2^53 places the index computed at a point
    of the scan is not rounded, and the positions of the index array at
    which the loops find the points that become cubes are the positions
    from 0 up to width * depth * height whose entry is not the exclusion
    marker, each once. *)
Theorem scan_reads_each_index_once (width depth height : nat) (colorIndicies : list value) :
  (Z.of_nat (width * depth * height) < 2 ^ 53)%Z ->
  (forall x y z, In (x, y, z) (scan_points width depth height) ->
     integer_of_number
       (Binary64.xyzToIndex (number_of_Z x) (number_of_Z y) (number_of_Z z)
          (number_of_Z (Z.of_nat width)) (number_of_Z (Z.of_nat depth))
          (number_of_Z (Z.of_nat height)))
     = Some (index_at width depth height (x, y, z)))
  /\ Permutation
       (map (index_at width depth height) (emitted_points width depth height colorIndicies))
       (filter (fun i => negb (excluded (arr_get colorIndicies i)))
          (map Z.of_nat (seq 0 (width * depth * height)))).
Proof.
  intros Hgrid. split.
  - intros x y z Hin.
    destruct (scan_index_numbers width depth height x y z Hgrid Hin) as [-> Hsafe].
    now apply integer_of_number_of_Z.
  - rewrite (Permutation_map _ (emitted_points_perm width depth height colorIndicies)).
    rewrite (filter_perm _ _ _ (scan_indices_perm width depth height)).
    unfold scan_indices. rewrite filter_map_swap.
    apply Permutation_map. erewrite filter_ext; [apply Permutation_refl|].
    intros [[x y] z]. reflexivity.
Qed.

Lemma scan_reads_each_index_once_witness :
  (Z.of_nat (2 * 1 * 2) < 2 ^ 53)%Z
  /\ ((forall x y z, In (x, y, z) (scan_points 2 1 2) ->
        integer_of_number
          (Binary64.xyzToIndex (number_of_Z x) (number_of_Z y) (number_of_Z z)
             (number_of_Z (Z.of_nat 2)) (number_of_Z (Z.of_nat 1)) (number_of_Z (Z.of_nat 2)))
        = Some (index_at 2 1 2 (x, y, z)))
      /\ Permutation
           (map (index_at 2 1 2) (emitted_points 2 1 2 [VNum 0; VNum (-1); VNum 1; VNum 0]))
           (filter (fun i => negb (excluded (arr_get [VNum 0; VNum (-1); VNum 1; VNum 0] i)))
              (map Z.of_nat (seq 0 (2 * 1 * 2))))).
Proof.
  split; [reflexivity|].
  apply (scan_reads_each_index_once 2 1 2 [VNum 0; VNum (-1); VNum 1; VNum 0]).
  reflexivity.
Defined.

(** ** Chunks *)

Lemma chunkBuffer_loop_nth (chunkSize : nat) (buffer : Buffer) :
  0 < chunkSize ->
  forall fuel i out,
    length buffer <= i + fuel ->
    exists rest,
      chunkBuffer_loop fuel buffer chunkSize i out = Normal (out ++ rest)
      /\ forall j, nth_error rest j =
           if i + j * chunkSize <? length buffer
           then Some (slice buffer (i + j * chunkSize) (i + j * chunkSize + chunkSize))
           else None.
Proof.
  intros Hpos fuel.
  induction fuel as [|fuel IH]; intros i out Hfuel; simpl.
  - destruct (Nat.ltb_spec i (length buffer)); [lia|].
    exists []. rewrite app_nil_r. split; [reflexivity|].
    intros j. destruct (Nat.ltb_spec (i + j * chunkSize) (length buffer)); [lia|].
    now destruct j.
  - destruct (Nat.ltb_spec i (length buffer)) as [Hlt|Hge].
    + destruct (IH (i + chunkSize) (out ++ [slice buffer i (i + chunkSize)]))
        as (rest & Hrun & Hnth); [lia|].
      exists (slice buffer i (i + chunkSize) :: rest).
      rewrite Hrun, <- app_assoc. split; [reflexivity|].
      intros [|j]; simpl.
      * rewrite Nat.add_0_r. destruct (Nat.ltb_spec i (length buffer)); [reflexivity | lia].
      * rewrite Hnth.
        now replace (i + chunkSize + j * chunkSize) with (i + (chunkSize + j * chunkSize)) by lia.
    + exists []. rewrite app_nil_r. split; [reflexivity|].
      intros j. destruct (Nat.ltb_spec (i + j * chunkSize) (length buffer)); [lia|].
      now destruct j.
Qed.

Lemma ceil_div_lt (len size j : nat) :
  0 < size -> (j * size < len <-> j < (len + size - 1) / size).
Proof.
  intros Hpos.
  pose proof (Nat.div_mod_eq (len + size - 1) size) as Hdm.
  pose proof (Nat.mod_upper_bound (len + size - 1) size ltac:(lia)) as Hmod.
  remember ((len + size - 1) / size) as q. remember ((len + size - 1) mod size) as r.
  clear Heqq Heqr. split; intros H; nia.
Qed.

(** X3: with a chunk size above 0 the chunks are the consecutive slices
    of the buffer: chunk [j] is [buffer.slice(j * chunkSize, j * chunkSize +
    chunkSize)], and there are as many chunks as the length divided by the
    chunk size, rounded up. *)
Theorem chunkBuffer_slices (buffer : Buffer) (chunkSize : nat) :
  0 < chunkSize ->
  exists chunks,
    chunkBuffer buffer chunkSize = Normal chunks
    /\ length chunks = (length buffer + chunkSize - 1) / chunkSize
    /\ forall j, j < length chunks ->
         nth_error chunks j
         = Some (slice buffer (j * chunkSize) (j * chunkSize + chunkSize)).
Proof.
  intros Hpos.
  destruct (chunkBuffer_loop_nth chunkSize buffer Hpos (length buffer) 0 [])
    as (chunks & Hrun & Hnth); [lia|].
  exists chunks. split; [exact Hrun|].
  assert (Hsome : forall j, j < length chunks <-> j * chunkSize < length buffer).
  { intros j. rewrite <- nth_error_Some, Hnth. simpl.
    destruct (Nat.ltb_spec (j * chunkSize) (length buffer)); split; intros; congruence || lia. }
  split.
  - apply Nat.le_antisymm.
    + destruct (Nat.le_gt_cases (length chunks) ((length buffer + chunkSize - 1) / chunkSize))
        as [Hle|Hgt]; [assumption|].
      apply Hsome, (ceil_div_lt _ _ _ Hpos) in Hgt. lia.
    + destruct (Nat.le_gt_cases ((length buffer + chunkSize - 1) / chunkSize) (length chunks))
        as [Hle|Hgt]; [assumption|].
      apply (ceil_div_lt _ _ _ Hpos), Hsome in Hgt. lia.
  - intros j Hj. rewrite Hnth. simpl.
    apply Hsome in Hj. destruct (Nat.ltb_spec (j * chunkSize) (length buffer)); [reflexivity | lia].
Qed.

Lemma chunkBuffer_slices_witness :
  exists chunks,
    chunkBuffer [x01; x02; x03; x04; x05] 2 = Normal chunks
    /\ length chunks = (5 + 2 - 1) / 2
    /\ forall j, j < length chunks ->
         nth_error chunks j = Some (slice [x01; x02; x03; x04; x05] (j * 2) (j * 2 + 2)).
Proof. apply (chunkBuffer_slices [x01; x02; x03; x04; x05] 2). lia. Defined.

(** X4: an empty buffer gives no chunk, whatever the chunk size; with a
    chunk size of 0 the loop over a buffer that is not empty stays at its
    position and does not end, whatever the number of turns it is
    given. *)
Theorem chunkBuffer_zero_size (buffer : Buffer) (fuel i : nat) (out : list Buffer) :
  (forall chunkSize, chunkBuffer [] chunkSize = Normal [])
  /\ (i < length buffer -> chunkBuffer_loop fuel buffer 0 i out = NoResult).
Proof.
  split; [reflexivity|].
  intros Hi. revert out.
  induction fuel as [|fuel IH]; intros out; simpl;
    destruct (Nat.ltb_spec i (length buffer)); try lia; [reflexivity|].
  rewrite Nat.add_0_r. apply IH.
Qed.

Lemma chunkBuffer_zero_size_witness :
  chunkBuffer_loop 7 [x01; x02] 0 0 [] = NoResult.
Proof. apply (chunkBuffer_zero_size [x01; x02] 7 0 []). simpl. lia. Defined.

Lemma firstn_three (l : Buffer) (n : nat) :
  n + 3 <= length l ->
  firstn 3 (skipn n l) = [nth n l x00; nth (n + 1) l x00; nth (n + 2) l x00].
Proof.
  revert l; induction n as [|n IH]; intros l Hlen.
  - destruct l as [|a [|b [|c l]]]; simpl in Hlen; try lia. reflexivity.
  - destruct l as [|a l]; simpl in Hlen; [lia|]. simpl. apply IH. lia.
Qed.

(** X5: the cell at position [i] of the decoded sequence holds the three
    bytes of the file at 12 + 3i, 12 + 3i + 1 and 12 + 3i + 2. *)
Theorem decoded_cell_bytes (data : Buffer) (colors : list Buffer) (i : nat) :
  chunkBuffer (slice_from data 12) 3 = Normal colors ->
  12 + 3 * i + 3 <= length data ->
  nth_error colors i
  = Some [nth (12 + 3 * i) data x00; nth (12 + 3 * i + 1) data x00;
          nth (12 + 3 * i + 2) data x00].
Proof.
  intros Hrun Hlen.
  destruct (chunkBuffer_loop_nth 3 (slice_from data 12) (Nat.lt_0_succ 2)
              (length (slice_from data 12)) 0 []) as (chunks & Hrun' & Hnth); [lia|].
  unfold chunkBuffer in Hrun. rewrite Hrun' in Hrun. injection Hrun as <-.
  rewrite Hnth. simpl Nat.add.
  assert (Hrest : length (slice_from data 12) = length data - 12)
    by (unfold slice_from; apply length_skipn).
  destruct (Nat.ltb_spec (i * 3) (length (slice_from data 12))); [|lia].
  f_equal. unfold slice, slice_from.
  replace (i * 3 + 3 - i * 3) with 3 by lia.
  rewrite skipn_skipn, firstn_three by lia.
  repeat f_equal; lia.
Qed.

Lemma decoded_cell_bytes_witness :
  nth_error [[xff; x00; x00]; [x12; x34; x56]] 1 = Some [x12; x34; x56].
Proof.
  apply (decoded_cell_bytes
           [x02; x00; x00; x00; x01; x00; x00; x00; x01; x00; x00; x00;
            xff; x00; x00; x12; x34; x56] [[xff; x00; x00]; [x12; x34; x56]] 1).
  - reflexivity.
  - simpl. lia.
Defined.

(** ** The faces of a cube *)

Lemma corner_of_local (cb : cube) (k : Z) (n : Z) :
  (1 <= n)%Z ->
  corner_of cb k (n + k * 8) = nth_error (vertices cb) (Z.to_nat (n - 1)).
Proof.
  intros Hn. unfold corner_of.
  replace (n + k * 8 - 8 * k - 1)%Z with (n - 1)%Z by lia.
  destruct (Z.ltb_spec (n - 1) 0); [lia | reflexivity].
Qed.

(** The corners of the six faces of the cube at an anchor. *)
Lemma pointToCube_face_corners (x y z k : Z) :
  map (map (corner_of (pointToCube (x, y, z) k) k)) (faces (pointToCube (x, y, z) k)) =
  [ [Some (x, y, z); Some (x + 1, y, z); Some (x + 1, y + 1, z); Some (x, y + 1, z)];
    [Some (x, y + 1, z); Some (x + 1, y + 1, z); Some (x + 1, y + 1, z + 1); Some (x, y + 1, z + 1)];
    [Some (x, y + 1, z + 1); Some (x + 1, y + 1, z + 1); Some (x + 1, y, z + 1); Some (x, y, z + 1)];
    [Some (x, y, z + 1); Some (x + 1, y, z + 1); Some (x + 1, y, z); Some (x, y, z)];
    [Some (x, y + 1, z); Some (x, y + 1, z + 1); Some (x, y, z + 1); Some (x, y, z)];
    [Some (x + 1, y + 1, z + 1); Some (x + 1, y + 1, z); Some (x + 1, y, z); Some (x + 1, y, z + 1)]
  ]%Z.
Proof.
  rewrite pointToCube_faces. cbn [map].
  rewrite !corner_of_local by lia. reflexivity.
Qed.

Ltac distinct_points :=
  repeat constructor; cbn [In]; intros H;
  repeat (destruct H as [H|H]; [injection H; intros; lia|]); exact H.

Lemma exact_faces_are_sides (p : point) (k : Z) :
  Forall2 (unit_square p) face_sides
    (map (map (corner_of (pointToCube p k) k)) (faces (pointToCube p k))).
Proof.
  destruct p as [[x y] z].
  rewrite pointToCube_face_corners. unfold face_sides.
  repeat (constructor;
          [unfold unit_square; do 4 eexists; split; [reflexivity|];
           split; [distinct_points|];
           unfold adjacent, on_side; cbn [fst snd];
           do 4 (split; [lia|]);
           repeat (apply Forall_cons; [cbn [coordinate]; lia|]); apply Forall_nil|]).
  constructor.
Qed.

Lemma face_sides_NoDup : NoDup face_sides.
Proof.
  unfold face_sides. repeat constructor; cbn [In]; intros H;
    repeat (destruct H as [H|H]; [discriminate|]); exact H.
Qed.

Lemma exact_faces_wound_inwards (p : point) (k : Z) :
  Forall (wound_inwards p)
    (map (map (corner_of (pointToCube p k) k)) (faces (pointToCube p k))).
Proof.
  destruct p as [[x y] z]. rewrite pointToCube_face_corners.
  repeat (constructor;
          [unfold wound_inwards; do 4 eexists; split; [reflexivity|];
           unfold dot, cross, difference, to_centre; lia|]).
  constructor.
Qed.

(** X6: in the safe range of the numbers the six faces of the cube that
    [pointToCube] returns are its six sides: the four indexes of a face
    stand for four different corners of the cube, each one unit from the
    next along one axis and the last from the first, all on one side of the
    cube, and the six faces are on the six different sides. *)
Theorem pointToCube_faces_are_sides (p : point) (k : Z) :
  safe_cube p k ->
  exists cb,
    integer_cube (Binary64.pointToCube (number_point p) (number_of_Z k)) = Some cb
    /\ Forall2 (unit_square p) face_sides (map (map (corner_of cb k)) (faces cb))
    /\ NoDup face_sides.
Proof.
  intros Hsafe. exists (pointToCube p k).
  split; [now apply pointToCube_integers|].
  split; [apply exact_faces_are_sides | apply face_sides_NoDup].
Qed.

Lemma pointToCube_faces_are_sides_witness :
  safe_cube (1, 2, 3)%Z 5
  /\ exists cb,
       integer_cube (Binary64.pointToCube (number_point (1, 2, 3)%Z) (number_of_Z 5)) = Some cb
       /\ Forall2 (unit_square (1, 2, 3)%Z) face_sides (map (map (corner_of cb 5)) (faces cb))
       /\ NoDup face_sides.
Proof.
  assert (Hsafe : safe_cube (1, 2, 3)%Z 5) by (repeat split).
  split; [exact Hsafe|].
  exact (pointToCube_faces_are_sides (1, 2, 3)%Z 5 Hsafe).
Defined.

(** X7: in the safe range of the numbers the six faces are wound the same
    way: by the right-hand rule on the order of its corners, the normal of
    every face points from the face to the inside of the cube. *)
Theorem pointToCube_faces_wound_inwards (p : point) (k : Z) :
  safe_cube p k ->
  exists cb,
    integer_cube (Binary64.pointToCube (number_point p) (number_of_Z k)) = Some cb
    /\ Forall (wound_inwards p) (map (map (corner_of cb k)) (faces cb)).
Proof.
  intros Hsafe. exists (pointToCube p k).
  split; [now apply pointToCube_integers | apply exact_faces_wound_inwards].
Qed.

Lemma pointToCube_faces_wound_inwards_witness :
  safe_cube (1, 2, 3)%Z 5
  /\ exists cb,
       integer_cube (Binary64.pointToCube (number_point (1, 2, 3)%Z) (number_of_Z 5)) = Some cb
       /\ Forall (wound_inwards (1, 2, 3)%Z) (map (map (corner_of cb 5)) (faces cb)).
Proof.
  assert (Hsafe : safe_cube (1, 2, 3)%Z 5) by (repeat split).
  split; [exact Hsafe|].
  exact (pointToCube_faces_wound_inwards (1, 2, 3)%Z 5 Hsafe).
Defined.

(** ** Faces and the vertices they name *)

Lemma nth_error_concat_blocks {A : Type} (n : nat) (blocks : list (list A)) (k r : nat)
    (block : list A) :
  (forall b, In b blocks -> length b = n) ->
  nth_error blocks k = Some block -> r < n ->
  nth_error (concat blocks) (n * k + r) = nth_error block r.
Proof.
  revert k. induction blocks as [|b blocks IH]; intros k Hlen Hk Hr.
  - now destruct k.
  - simpl. destruct k as [|k]; simpl in Hk.
    + injection Hk as ->. rewrite Nat.mul_0_r. simpl.
      apply nth_error_app1. rewrite (Hlen block); [assumption | now left].
    + rewrite nth_error_app2 by (rewrite (Hlen b); [lia | now left]).
      rewrite (Hlen b) by now left.
      replace (n * S k + r - n) with (n * k + r) by lia.
      apply IH; auto. intros b' Hb'. apply Hlen. now right.
Qed.

(** X8: in the object text a face index names a vertex of the cube of the
    face: index [i] of a face of the cube at place [k] stands for the vertex
    at line [i] of the vertex pool of the whole text, and that vertex is the
    corner of this very cube that the index stands for. *)
Theorem face_index_resolves (width depth height : nat) (colorIndicies : list value)
    (name : string) (k : nat) (cb : cube) (f : list Z) (i : Z) :
  nth_error (emitted_cubes width depth height colorIndicies name) k = Some cb ->
  In f (faces cb) -> In i f ->
  exists v,
    nth_error (vertex_pool width depth height colorIndicies name) (Z.to_nat (i - 1)) = Some v
    /\ corner_of cb (Z.of_nat k) i = Some v.
Proof.
  intros Hk Hf Hi.
  assert (Hcb : exists p, cb = pointToCube p (Z.of_nat k)).
  { rewrite emitted_cubes_nth_error in Hk.
    destruct (nth_error _ k) as [p|]; [|discriminate]. exists p. now injection Hk. }
  destruct Hcb as [p ->].
  pose proof (pointToCube_face_range _ _ _ _ Hf Hi) as Hrange.
  set (r := Z.to_nat (i - 8 * Z.of_nat k - 1)).
  assert (Hr : r < 8) by (unfold r; lia).
  assert (Hpos : Z.to_nat (i - 1) = 8 * k + r) by (unfold r; lia).
  unfold vertex_pool, corner_of. fold r.
  destruct (Z.ltb_spec (i - 8 * Z.of_nat k - 1) 0); [lia|].
  rewrite Hpos.
  rewrite (nth_error_concat_blocks 8 _ k r (vertices (pointToCube p (Z.of_nat k)))); auto.
  - destruct (nth_error (vertices (pointToCube p (Z.of_nat k))) r) as [v|] eqn:Hv.
    + now exists v.
    + apply nth_error_None in Hv. simpl in Hv. lia.
  - intros b Hb. apply in_map_iff in Hb as (c & <- & Hc).
    now apply emitted_cubes_vertices in Hc.
  - now rewrite nth_error_map, Hk.
Qed.

Lemma face_index_resolves_witness :
  exists v,
    nth_error (vertex_pool 2 1 1 [VNum 1; VNum 0] "a") (Z.to_nat (12 - 1)) = Some v
    /\ corner_of (pointToCube (0, 0, 0)%Z 1) 1 12 = Some v.
Proof.
  apply (face_index_resolves 2 1 1 [VNum 1; VNum 0] "a" 1 (pointToCube (0, 0, 0)%Z 1)
           [9; 10; 12; 11]%Z 12%Z).
  - reflexivity.
  - now left.
  - simpl. tauto.
Defined.

(** ** The vertex and face lines of the object text *)

Lemma flat_map_single {A B C : Type} (f : B -> list C) (g : A -> B) (h : A -> C) (l : list A) :
  (forall a, f (g a) = [h a]) -> flat_map f (map g l) = map h l.
Proof.
  intros Hf. induction l as [|a l IH]; simpl; [reflexivity|]. now rewrite Hf, IH.
Qed.

Lemma object_lines_vertices (name : string) (c : value) (cubes : list cube) :
  flat_map (directive "v ") (object_lines name c cubes)
  = map vertex_coords (concat (map vertices cubes)).
Proof.
  unfold object_lines. rewrite !flat_map_app.
  rewrite (flat_map_single _ vertex_text vertex_coords), (flat_map_none _ face_text).
  - simpl. now rewrite app_nil_r.
  - intros f. reflexivity.
  - intros [[x y] z]. reflexivity.
Qed.

Lemma object_lines_faces (name : string) (c : value) (cubes : list cube) :
  flat_map (directive "f ") (object_lines name c cubes)
  = map face_coords (concat (map faces cubes)).
Proof.
  unfold object_lines. rewrite !flat_map_app.
  rewrite (flat_map_single _ face_text face_coords), (flat_map_none _ vertex_text).
  - reflexivity.
  - intros [[x y] z]. reflexivity.
  - intros f. reflexivity.
Qed.

Lemma objects_of_lines_cubes (name : string) (groups : list group) (cubeIndex : Z) :
  exists colors,
    length colors = length (objects_of name groups cubeIndex)
    /\ map snd (objects_of name groups cubeIndex)
       = map (fun b => unlines (object_lines name (fst b) (snd b)))
           (combine colors (map fst (objects_of name groups cubeIndex))).
Proof.
  revert cubeIndex; induction groups as [|g groups IH]; intros cubeIndex; simpl.
  - exists []. split; reflexivity.
  - unfold object_of. destruct (cubes_of (points g) cubeIndex) as [cubes next].
    destruct (IH next) as (colors & Hlen & Htexts).
    exists (colorIndex g :: colors). simpl.
    rewrite object_text_lines, Htexts, Hlen. split; reflexivity.
Qed.

Lemma generateOBJ_directive_lines (pre : string) (collect_in : list cube -> list string)
    (width depth height : nat) (colorIndicies : list value) (name : string) :
  no_newline name = true ->
  directive pre "" = [] ->
  directive pre "# CUB to OBJ v0.0.1" = [] ->
  (forall s, directive pre ("mtllib " ++ s) = []) ->
  (forall c cubes, flat_map (directive pre) (object_lines name c cubes) = collect_in cubes) ->
  directive_names pre (generateOBJ width depth height colorIndicies name)
  = flat_map collect_in
      (map fst (objects_of name (values (byColor_of width depth height colorIndicies)) 0)).
Proof.
  intros Hname Hblank Hhead Hlib Hobject. unfold generateOBJ.
  destruct (objects_of_lines_cubes name (values (byColor_of width depth height colorIndicies)) 0)
    as (colors & Hlen & ->).
  set (cubes := map fst (objects_of name (values (byColor_of width depth height colorIndicies)) 0)).
  assert (Hlen' : length colors = length cubes) by (unfold cubes; now rewrite length_map).
  clearbody cubes. clear Hlen.
  rewrite <- (map_map (fun b => object_lines name (fst b) (snd b)) unlines).
  replace ("# CUB to OBJ v" ++ version ++ nl ++ "mtllib " ++ name ++ ".mtl" ++ nl
           ++ join nl (map unlines
                         (map (fun b => object_lines name (fst b) (snd b))
                            (combine colors cubes))))%string
    with (unlines ["# CUB to OBJ v0.0.1"; ("mtllib " ++ name ++ ".mtl")]
          ++ join nl (map unlines
                        (map (fun b => object_lines name (fst b) (snd b))
                           (combine colors cubes))))%string
    by (cbn [unlines]; unfold version; now rewrite append_empty_r, !append_assoc).
  rewrite directive_names_blocks.
  - cbn [flat_map]. rewrite Hhead, Hlib. cbn [List.app].
    revert cubes Hlen'. induction colors as [|c colors IH]; intros [|cb cubes] Hlen';
      simpl in Hlen'; try discriminate; [reflexivity|].
    cbn [combine map flat_map]. rewrite Hobject, IH by lia. reflexivity.
  - assumption.
  - constructor; [reflexivity|]. constructor; [|constructor].
    now rewrite !no_newline_append, Hname.
  - apply Forall_forall. intros b Hb. apply in_map_iff in Hb as ([c cb] & <- & _).
    now apply object_lines_no_newline.
Qed.

Lemma kept_points_count (width depth height : nat) (colorIndicies : list value)
    (name : string) :
  length (emitted_cubes width depth height colorIndicies name)
  = length (kept_points width depth height colorIndicies).
Proof.
  rewrite emitted_cubes_length. apply Permutation_length, emitted_points_perm.
Qed.

Lemma face_pool_length (cubes : list cube) :
  (forall cb, In cb cubes -> length (faces cb) = 6) ->
  length (concat (map faces cubes)) = 6 * length cubes.
Proof.
  induction cubes as [|cb cubes IH]; intros Hall; simpl; [reflexivity|].
  rewrite length_app, IH, (Hall cb) by (intros; apply Hall; now right) || now left.
  lia.
Qed.

Lemma emitted_cubes_faces (width depth height : nat) (colorIndicies : list value)
    (name : string) (cb : cube) :
  In cb (emitted_cubes width depth height colorIndicies name) -> length (faces cb) = 6.
Proof.
  intros Hin. apply emitted_cubes_In in Hin as (p & k & -> & _). reflexivity.
Qed.

(** X9: when the base name has no line feed, the lines of the object text
    that start with [v] are the vertices of the cubes in their order, and
    those that start with [f] the faces: eight vertex lines and six face
    lines for every grid point whose colour index is not the exclusion
    marker. *)
Theorem generateOBJ_vertex_and_face_lines (width depth height : nat)
    (colorIndicies : list value) (name : string) :
  no_newline name = true ->
  let text := generateOBJ width depth height colorIndicies name in
  let kept := length (kept_points width depth height colorIndicies) in
  directive_names "v " text
    = map vertex_coords (vertex_pool width depth height colorIndicies name)
  /\ directive_names "f " text
     = map face_coords (face_pool width depth height colorIndicies name)
  /\ length (directive_names "v " text) = 8 * kept
  /\ length (directive_names "f " text) = 6 * kept.
Proof.
  intros Hname text kept.
  assert (Hv : directive_names "v " text
               = map vertex_coords (vertex_pool width depth height colorIndicies name)).
  { unfold text.
    rewrite (generateOBJ_directive_lines "v "
               (fun cubes => map vertex_coords (concat (map vertices cubes))));
      try reflexivity; try assumption.
    - unfold vertex_pool, emitted_cubes.
      generalize (map fst (objects_of name (values (byColor_of width depth height colorIndicies)) 0)).
      intros l. induction l as [|cubes l IH]; [reflexivity|].
      cbn [flat_map concat map]. now rewrite IH, !map_app, concat_app, map_app.
    - intros c cubes. apply object_lines_vertices. }
  assert (Hf : directive_names "f " text
               = map face_coords (face_pool width depth height colorIndicies name)).
  { unfold text.
    rewrite (generateOBJ_directive_lines "f "
               (fun cubes => map face_coords (concat (map faces cubes))));
      try reflexivity; try assumption.
    - unfold face_pool, emitted_cubes.
      generalize (map fst (objects_of name (values (byColor_of width depth height colorIndicies)) 0)).
      intros l. induction l as [|cubes l IH]; [reflexivity|].
      cbn [flat_map concat map]. now rewrite IH, !map_app, concat_app, map_app.
    - intros c cubes. apply object_lines_faces. }
  split; [assumption|]. split; [assumption|].
  rewrite Hv, Hf, !length_map. unfold vertex_pool, face_pool.
  rewrite vertex_pool_length by apply emitted_cubes_vertices.
  rewrite face_pool_length by apply emitted_cubes_faces.
  unfold kept. now rewrite kept_points_count.
Qed.

Lemma generateOBJ_vertex_and_face_lines_witness :
  length (directive_names "v " (generateOBJ 2 1 1 [VNum 0; VNum (-1)] "a")) = 8 * 1
  /\ length (directive_names "f " (generateOBJ 2 1 1 [VNum 0; VNum (-1)] "a")) = 6 * 1.
Proof.
  destruct (generateOBJ_vertex_and_face_lines 2 1 1 [VNum 0; VNum (-1)] "a" eq_refl)
    as (_ & _ & Hv & Hf).
  split; [exact Hv | exact Hf].
Defined.

(** ** The groups of the scan *)

(** X10: the groups of [byColor] part the grid points that are kept: a
    group holds, once each, the points of the scan that carry its colour
    index, it is not empty, its index is not the exclusion marker, and two
    groups with a point in common are one group. *)
Theorem byColor_groups_partition (width depth height : nat) (colorIndicies : list value)
    (g : group) :
  In g (values (byColor_of width depth height colorIndicies)) ->
  excluded (colorIndex g) = false
  /\ points g <> []
  /\ NoDup (points g)
  /\ (forall p, In p (points g) <->
                In p (scan_points width depth height)
                /\ color_at width depth height colorIndicies p = colorIndex g)
  /\ (forall g' p, In g' (values (byColor_of width depth height colorIndicies)) ->
                   In p (points g) -> In p (points g') -> g' = g).
Proof.
  rewrite values_byColor_of. intros Hg.
  apply in_map_iff in Hg as (c & <- & Hc).
  assert (Hpoints : forall c' p, In p (points (group_of width depth height colorIndicies c')) <->
                      In p (scan_points width depth height)
                      /\ color_at width depth height colorIndicies p = c').
  { intros c' p. simpl. unfold points_in. rewrite filter_In.
    now destruct (value_eqb_spec (color_at width depth height colorIndicies p) c'). }
  apply object_order_In in Hc as (Hex & p0 & Hp0 & Hcolor).
  split; [exact Hex|]. split; [|split; [|split]].
  - intros Hnil. assert (Hin : In p0 (points (group_of width depth height colorIndicies c)))
      by now apply Hpoints.
    rewrite Hnil in Hin. contradiction.
  - simpl. apply NoDup_filter, scan_points_NoDup.
  - intros p. apply Hpoints.
  - intros g' p Hg' Hp Hp'. apply in_map_iff in Hg' as (c' & <- & _).
    apply Hpoints in Hp as [_ Hp]. apply Hpoints in Hp' as [_ Hp']. congruence.
Qed.

Lemma byColor_groups_partition_witness :
  points {| colorIndex := VNum 0; points := [(0, 0, 0)%Z] |} <> [].
Proof.
  apply (byColor_groups_partition 2 1 1 [VNum 0; VNum (-1)]
           {| colorIndex := VNum 0; points := [(0, 0, 0)%Z] |}).
  simpl. now left.
Defined.

Lemma generateOBJ_no_group (width depth height : nat) (colorIndicies : list value)
    (name : string) :
  discovered width depth height colorIndicies = [] ->
  generateOBJ width depth height colorIndicies name
  = ("# CUB to OBJ v0.0.1" ++ nl ++ "mtllib " ++ name ++ ".mtl" ++ nl)%string.
Proof.
  intros Hnone. unfold generateOBJ. rewrite values_byColor_of.
  unfold object_order. rewrite Hnone. reflexivity.
Qed.

(** X11: a grid with a dimension of 0 gives an object text of the two
    header lines alone, whatever the index array. *)
Theorem generateOBJ_empty_grid (width depth height : nat) (colorIndicies : list value)
    (name : string) :
  width * depth * height = 0 ->
  generateOBJ width depth height colorIndicies name
  = ("# CUB to OBJ v0.0.1" ++ nl ++ "mtllib " ++ name ++ ".mtl" ++ nl)%string.
Proof.
  intros Hzero. apply generateOBJ_no_group.
  unfold discovered, discovered_in.
  pose proof (scan_points_length width depth height) as Hlen. rewrite Hzero in Hlen.
  destruct (scan_points width depth height); [reflexivity | discriminate].
Qed.

Lemma generateOBJ_empty_grid_witness :
  generateOBJ 3 0 5 [VNum 0; VNum 1] "a"
  = ("# CUB to OBJ v0.0.1" ++ nl ++ "mtllib " ++ "a" ++ ".mtl" ++ nl)%string.
Proof. apply (generateOBJ_empty_grid 3 0 5 [VNum 0; VNum 1] "a"). reflexivity. Defined.

Lemma first_seen_nil {A : Type} (eqb : A -> A -> bool) (l : list A) :
  l = [] -> first_seen eqb l = [].
Proof. now intros ->. Qed.

Lemma filter_none {A : Type} (f : A -> bool) (l : list A) :
  (forall a, In a l -> f a = false) -> filter f l = [].
Proof.
  induction l as [|a l IH]; intros Hf; simpl; [reflexivity|].
  rewrite (Hf a) by now left. apply IH. intros b Hb. apply Hf. now right.
Qed.

(** X12: when every cell is (0,0,0) and the cells are at least as many as
    the grid has places, both texts are their header lines alone: no object
    and no material. *)
Theorem all_transparent_grid (cells : list Buffer) (width depth height : nat)
    (name : string) :
  Forall (fun c => c = [x00; x00; x00]) cells ->
  width * depth * height <= length cells ->
  let r := isolateColors cells in
  uniqueColors r = []
  /\ generateOBJ width depth height (colorIndicies r) name
     = ("# CUB to OBJ v0.0.1" ++ nl ++ "mtllib " ++ name ++ ".mtl" ++ nl)%string
  /\ generateMTL (uniqueColors r) name = Normal ("# CUB to OBJ v0.0.1" ++ nl)%string.
Proof.
  intros Hblack Hsize r. unfold r.
  assert (Hseen : seen_colors cells = []).
  { unfold seen_colors. apply first_seen_nil, filter_none.
    intros c Hc. rewrite Forall_forall in Hblack. now rewrite (Hblack c Hc). }
  assert (Hunique : uniqueColors (isolateColors cells) = []).
  { apply Permutation_nil. rewrite <- Hseen. apply Permutation_sym, uniqueColors_perm. }
  split; [assumption|]. split; [|now rewrite Hunique].
  apply generateOBJ_no_group. unfold discovered, discovered_in.
  apply first_seen_nil, filter_none.
  intros c Hc. apply in_map_iff in Hc as (p & <- & Hp).
  apply scan_points_In in Hp as (x & y & z & Hx & Hy & Hz & ->).
  pose proof (grid_index_bound x y z width depth height Hx Hy Hz) as Hbound.
  destruct (nth_error cells (x + width * (y + depth * z))) as [cell|] eqn:Hcell;
    [|apply nth_error_None in Hcell; lia].
  rewrite (color_at_cell _ _ _ _ _ _ _ _ Hcell).
  rewrite Forall_forall in Hblack. rewrite (Hblack cell (nth_error_In _ _ Hcell)). reflexivity.
Qed.

Lemma all_transparent_grid_witness :
  generateOBJ 2 1 1 (colorIndicies (isolateColors [[x00; x00; x00]; [x00; x00; x00]])) "a"
  = ("# CUB to OBJ v0.0.1" ++ nl ++ "mtllib " ++ "a" ++ ".mtl" ++ nl)%string.
Proof.
  apply (all_transparent_grid [[x00; x00; x00]; [x00; x00; x00]] 2 1 1 "a").
  - repeat constructor.
  - simpl. lia.
Defined.

(** ** A grid larger than the cells *)

Lemma append_cancel_l (a b c : string) : (a ++ b = a ++ c)%string -> b = c.
Proof. induction a as [|x a IH]; simpl; intros H; [assumption|]. injection H. auto. Qed.

Lemma matName_inj (a b : value) (name : string) : matName a name = matName b name -> a = b.
Proof.
  unfold matName. intros H. apply append_cancel_l in H.
  apply (append_cancel_l "-mat-") in H. now apply ToString_inj.
Qed.

Lemma colorIndicies_no_undefined (cells : list Buffer) :
  ~ In VUndef (colorIndicies (isolateColors cells)).
Proof.
  rewrite colorIndicies_spec. intros Hin. apply in_map_iff in Hin as (c & Hc & _).
  unfold index_for in Hc. now destruct (is_black c).
Qed.

(** X13: when the grid has more places than there are cells, the places
    past the cells read as [undefined]; they make an object of their own,
    named after [undefined], whose material no block of the material text
    defines. *)
Theorem grid_larger_than_cells (cells : list Buffer) (width depth height : nat)
    (name : string) :
  length cells < width * depth * height ->
  let r := isolateColors cells in
  In VUndef (object_order width depth height (colorIndicies r))
  /\ (forall p, In p (points (group_of width depth height (colorIndicies r) VUndef)) <->
                In p (scan_points width depth height)
                /\ (Z.of_nat (length cells) <= index_at width depth height p)%Z)
  /\ In (name ++ "-mat-undefined")%string
        (usemtl_names width depth height (colorIndicies r) name)
  /\ ~ In (name ++ "-mat-undefined")%string (newmtl_names (uniqueColors r) name).
Proof.
  intros Hshort r.
  assert (Hlen : length (colorIndicies r) = length cells)
    by (unfold r; now rewrite colorIndicies_spec, length_map).
  assert (Hundef : forall p, In p (scan_points width depth height) ->
            (color_at width depth height (colorIndicies r) p = VUndef <->
             (Z.of_nat (length cells) <= index_at width depth height p)%Z)).
  { intros p Hp. apply scan_points_In in Hp as (x & y & z & _ & _ & _ & ->).
    unfold color_at, index_at. rewrite xyzToIndex_nat, arr_get_nat. split.
    - intros Hread.
      destruct (Nat.lt_ge_cases (x + width * (y + depth * z)) (length cells)) as [Hlt|Hge]; [|lia].
      exfalso. apply (colorIndicies_no_undefined cells). fold r. rewrite <- Hread.
      apply nth_In. lia.
    - intros Hpast. apply nth_overflow. lia. }
  assert (Horder : In VUndef (object_order width depth height (colorIndicies r))).
  { apply object_order_In. split; [reflexivity|].
    destruct (grid_index_point width depth height (length cells) Hshort)
      as (x & y & z & Hx & Hy & Hz & Hi).
    exists (Z.of_nat x, Z.of_nat y, Z.of_nat z).
    assert (Hp : In (Z.of_nat x, Z.of_nat y, Z.of_nat z) (scan_points width depth height))
      by (apply scan_points_In; exists x, y, z; auto).
    split; [assumption|]. apply (Hundef _ Hp).
    unfold index_at. rewrite xyzToIndex_nat. lia. }
  split; [assumption|]. split; [|split].
  - intros p. simpl. unfold points_in. rewrite filter_In. split.
    + intros [Hp Hc]. split; [assumption|]. apply (Hundef p Hp).
      now destruct (value_eqb_spec (color_at width depth height (colorIndicies r) p) VUndef).
    + intros [Hp Hpast]. split; [assumption|].
      apply (Hundef p Hp) in Hpast. now rewrite Hpast.
  - unfold usemtl_names. rewrite values_byColor_of, map_map.
    apply in_map_iff. exists VUndef. split; [reflexivity | assumption].
  - unfold newmtl_names, mapi. intros Hin.
    apply In_nth_error in Hin as [j Hj].
    rewrite mapi_from_nth_error in Hj.
    destruct (nth_error (uniqueColors r) j); [|discriminate].
    simpl in Hj. injection Hj as Hj.
    change (name ++ "-mat-undefined")%string with (matName VUndef name) in Hj.
    apply matName_inj in Hj. discriminate.
Qed.

Lemma grid_larger_than_cells_witness :
  In (("a" ++ "-mat-undefined")%string)
     (usemtl_names 2 1 1 (colorIndicies (isolateColors [[xff; x00; x00]])) "a")
  /\ ~ In (("a" ++ "-mat-undefined")%string)
         (newmtl_names (uniqueColors (isolateColors [[xff; x00; x00]])) "a").
Proof.
  destruct (grid_larger_than_cells [[xff; x00; x00]] 2 1 1 "a") as (_ & _ & Huse & Hnew).
  - simpl. lia.
  - split; [exact Huse | exact Hnew].
Defined.

(** ** Index entries past the grid *)

Lemma color_at_app (width depth height : nat) (colorIndicies extra : list value) (p : point) :
  width * depth * height <= length colorIndicies ->
  In p (scan_points width depth height) ->
  color_at width depth height (colorIndicies ++ extra) p
  = color_at width depth height colorIndicies p.
Proof.
  intros Hsize Hp. apply scan_points_In in Hp as (x & y & z & Hx & Hy & Hz & ->).
  pose proof (grid_index_bound x y z width depth height Hx Hy Hz) as Hbound.
  unfold color_at. rewrite xyzToIndex_nat, !arr_get_nat.
  apply app_nth1. lia.
Qed.

(** X14: the object text reads the index array at the places of the grid
    only: entries past width * depth * height change nothing. *)
Theorem generateOBJ_ignores_entries_past_grid (width depth height : nat)
    (colorIndicies extra : list value) (name : string) :
  width * depth * height <= length colorIndicies ->
  generateOBJ width depth height (colorIndicies ++ extra) name
  = generateOBJ width depth height colorIndicies name.
Proof.
  intros Hsize.
  assert (Hby : byColor_of width depth height (colorIndicies ++ extra)
                = byColor_of width depth height colorIndicies).
  { rewrite !byColor_of_spec.
    assert (Hfound : discovered width depth height (colorIndicies ++ extra)
                     = discovered width depth height colorIndicies).
    { unfold discovered, discovered_in. do 2 f_equal.
      apply map_ext_in. intros p Hp. now apply color_at_app. }
    rewrite Hfound. apply map_ext. intros c. f_equal.
    unfold group_of, group_in, points_in. f_equal.
    apply filter_ext_in. intros p Hp. now rewrite color_at_app. }
  unfold generateOBJ. now rewrite Hby.
Qed.

Lemma generateOBJ_ignores_entries_past_grid_witness :
  generateOBJ 1 1 1 ([VNum 0] ++ [VNum 1; VNum 2]) "a" = generateOBJ 1 1 1 [VNum 0] "a".
Proof. apply (generateOBJ_ignores_entries_past_grid 1 1 1 [VNum 0] [VNum 1; VNum 2] "a"). simpl. lia. Defined.

(** ** The index array and the unique colours *)

Lemma position_inj {A : Type} (eqb : A -> A -> bool)
    (eqb_spec : forall a b, reflect (a = b) (eqb a b)) (a b : A) (l : list A) :
  In a l -> In b l -> position eqb a l = position eqb b l -> a = b.
Proof.
  intros Ha Hb Heq.
  pose proof (position_nth_error eqb eqb_spec a l Ha) as Hna.
  pose proof (position_nth_error eqb eqb_spec b l Hb) as Hnb.
  rewrite Heq in Hna. congruence.
Qed.

(** X15: the index array has one entry per cell; two cells that are not
    transparent carry the same index exactly when they hold the same bytes;
    and every entry is the marker -1 or a number below the number of unique
    colours. *)
Theorem isolateColors_index_array (cells : list Buffer) :
  let r := isolateColors cells in
  length (colorIndicies r) = length cells
  /\ (forall i j c c',
        nth_error cells i = Some c -> nth_error cells j = Some c' ->
        is_black c = false -> is_black c' = false ->
        (nth_error (colorIndicies r) i = nth_error (colorIndicies r) j <-> c = c'))
  /\ (forall v, In v (colorIndicies r) ->
        v = VNum (-1)
        \/ exists k, v = VNum (Z.of_nat k) /\ k < length (uniqueColors r)).
Proof.
  intros r. unfold r. rewrite colorIndicies_spec, length_map.
  split; [reflexivity|]. split.
  - intros i j c c' Hi Hj Hc Hc'. rewrite !nth_error_map, Hi, Hj. simpl.
    unfold index_for. rewrite Hc, Hc'. split; [|now intros ->].
    intros [= Hpos]. apply Nat2Z.inj in Hpos.
    apply (position_inj buffer_eqb buffer_eqb_spec c c' (seen_colors cells)); auto;
      apply seen_colors_In; split; auto; eapply nth_error_In; eassumption.
  - intros v Hv. apply in_map_iff in Hv as (c & <- & Hc).
    destruct (index_for_range cells c Hc) as [H|(k & Hk & H)]; [now left|].
    right. exists k. split; assumption.
Qed.

Lemma isolateColors_index_array_witness :
  nth_error (colorIndicies (isolateColors [[x01; x02; x03]; [x00; x00; x00]; [x01; x02; x03]])) 0
  = nth_error (colorIndicies (isolateColors [[x01; x02; x03]; [x00; x00; x00]; [x01; x02; x03]])) 2
  <-> [x01; x02; x03] = [x01; x02; x03].
Proof.
  destruct (isolateColors_index_array [[x01; x02; x03]; [x00; x00; x00]; [x01; x02; x03]])
    as (_ & Hsame & _).
  apply (Hsame 0 2); reflexivity.
Defined.

(** X16: the unique colours are the colours of the cells other than
    (0,0,0), each once; and every place among them is the index of a
    cell. *)
Theorem uniqueColors_are_the_colors (cells : list Buffer) :
  let r := isolateColors cells in
  NoDup (uniqueColors r)
  /\ (forall c, In c (uniqueColors r) <-> In c cells /\ c <> [x00; x00; x00])
  /\ (forall k, k < length (uniqueColors r) -> In (VNum (Z.of_nat k)) (colorIndicies r)).
Proof.
  intros r. unfold r. split; [|split].
  - apply (Permutation_NoDup (Permutation_sym (uniqueColors_perm cells))), seen_colors_NoDup.
  - intros c. split.
    + intros Hc. apply (Permutation_in _ (uniqueColors_perm cells)) in Hc.
      apply seen_colors_In in Hc as [Hin Hblack]. split; [assumption|].
      intros ->. discriminate.
    + intros [Hin Hne]. apply (Permutation_in _ (Permutation_sym (uniqueColors_perm cells))).
      apply seen_colors_In. split; [assumption|].
      destruct (is_black c) eqn:Hb; [|reflexivity]. apply is_black_iff in Hb. contradiction.
  - intros k Hk. rewrite uniqueColors_length in Hk.
    destruct (nth_error (seen_colors cells) k) as [c|] eqn:Hc;
      [|apply nth_error_None in Hc; lia].
    assert (Hseen : In c (seen_colors cells)) by (eapply nth_error_In; eassumption).
    rewrite colorIndicies_spec. apply in_map_iff. exists c. split.
    + unfold index_for. apply seen_colors_In in Hseen as [_ ->]. do 2 f_equal.
      pose proof (position_nth_error buffer_eqb buffer_eqb_spec c _ (nth_error_In _ _ Hc)) as Hpos.
      pose proof (position_lt buffer_eqb buffer_eqb_spec c _ (nth_error_In _ _ Hc)) as Hlt.
      apply (proj1 (NoDup_nth_error _) (seen_colors_NoDup cells)); [assumption | congruence].
    + now apply seen_colors_In in Hseen.
Qed.

Lemma uniqueColors_are_the_colors_witness :
  In (VNum (Z.of_nat 1))
     (colorIndicies (isolateColors [[x01; x02; x03]; [x00; x00; x00]; [xff; xff; xff]])).
Proof.
  destruct (uniqueColors_are_the_colors [[x01; x02; x03]; [x00; x00; x00]; [xff; xff; xff]])
    as (_ & _ & Hdense).
  apply Hdense. simpl. lia.
Defined.

(** X17: when the hex string of no cell is an array index (for a cell of
    three bytes: when it has a leading zero or a digit from a to f), the
    unique colours come in the order of first appearance and the index of
    every cell that is not transparent is the place of its colour among
    them. *)
Theorem isolateColors_sound_without_index_keys (cells : list Buffer) :
  forallb (fun c => negb (is_index (toString_hex c))) cells = true ->
  uniqueColors (isolateColors cells) = seen_colors cells
  /\ forall i c, nth_error cells i = Some c -> c <> [x00; x00; x00] ->
       exists j, nth_error (colorIndicies (isolateColors cells)) i = Some (VNum (Z.of_nat j))
                 /\ nth_error (uniqueColors (isolateColors cells)) j = Some c.
Proof.
  intros Hkeys.
  assert (Hunique : uniqueColors (isolateColors cells) = seen_colors cells).
  { rewrite uniqueColors_spec, values_creation_order; [apply registry_colors|].
    unfold registry_of. rewrite forallb_forall. intros p Hp.
    apply in_map_iff in Hp as (c & <- & Hc). simpl.
    apply seen_colors_In in Hc as [Hc _].
    rewrite forallb_forall in Hkeys. now apply Hkeys. }
  split; [assumption|].
  intros i c Hi Hne.
  assert (Hblack : is_black c = false).
  { destruct (is_black c) eqn:Hb; [|reflexivity]. apply is_black_iff in Hb. contradiction. }
  exists (position buffer_eqb c (seen_colors cells)). split.
  - rewrite colorIndicies_spec, nth_error_map, Hi. simpl.
    unfold index_for. now rewrite Hblack.
  - rewrite Hunique. apply (position_nth_error _ buffer_eqb_spec).
    apply seen_colors_In. split; [eapply nth_error_In; eassumption | assumption].
Qed.

Lemma isolateColors_sound_without_index_keys_witness :
  uniqueColors (isolateColors [[xff; xff; xff]; [x01; x23; x45]; [xff; xff; xff]])
  = seen_colors [[xff; xff; xff]; [x01; x23; x45]; [xff; xff; xff]].
Proof.
  apply (isolateColors_sound_without_index_keys
           [[xff; xff; xff]; [x01; x23; x45]; [xff; xff; xff]]).
  reflexivity.
Defined.

(** ** Material components read back *)

(** X18: six decimals lose nothing of a colour: the byte is read back from
    the component that [generateMTL] writes for it, so two bytes with the
    same component are one byte. *)
Theorem component_read_back (b : byte) :
  (forall s, component b = Normal s -> byte_of_component s = Some b)
  /\ (forall b', component b = component b' -> b = b').
Proof.
  assert (Hback : forall c s, component c = Normal s -> byte_of_component s = Some c).
  { intros c s H. rewrite component_six_decimals in H. injection H as <-.
    destruct c; reflexivity. }
  split; [apply Hback|].
  intros b' Heq.
  pose proof (Hback b _ (component_six_decimals b)) as H1.
  pose proof (Hback b' _ (component_six_decimals b')) as H2.
  rewrite !component_six_decimals in Heq. injection Heq as Heq.
  rewrite Heq in H1. congruence.
Qed.

Lemma component_read_back_witness : byte_of_component "0.501961" = Some x80.
Proof.
  destruct (component_read_back x80) as [Hback _].
  apply Hback. reflexivity.
Defined.

(** ** Names *)

Lemma NoDup_map_injective {A B : Type} (f : A -> B) (l : list A) :
  (forall a b, f a = f b -> a = b) -> NoDup l -> NoDup (map f l).
Proof.
  intros Hinj. induction 1 as [|a l Hnotin _ IH]; simpl; constructor; [|assumption].
  intros Hin. apply in_map_iff in Hin as (b & Hb & Hin). apply Hinj in Hb. now subst b.
Qed.

Lemma mapi_from_NoDup {A B : Type} (f : nat -> B) (l : list A) (i : nat) :
  (forall a b, f a = f b -> a = b) -> NoDup (mapi_from (fun _ j => f j) l i).
Proof.
  intros Hinj. apply NoDup_nth_error. intros j k Hj Heq.
  rewrite mapi_from_length in Hj.
  rewrite !mapi_from_nth_error in Heq.
  destruct (nth_error l j) eqn:Hlj; [|apply nth_error_None in Hlj; lia].
  destruct (nth_error l k); [|discriminate].
  simpl in Heq. injection Heq as Heq. apply Hinj in Heq. lia.
Qed.

(** X19: no two material blocks have one name, and no two objects use one
    material or have one name. *)
Theorem names_are_distinct (width depth height : nat) (colorIndicies : list value)
    (colors : list Buffer) (name : string) :
  NoDup (newmtl_names colors name)
  /\ NoDup (usemtl_names width depth height colorIndicies name)
  /\ NoDup (map (fun c => (name ++ "-obj-" ++ ToString c)%string)
              (object_order width depth height colorIndicies)).
Proof.
  assert (Horder : NoDup (object_order width depth height colorIndicies))
    by apply (Permutation_NoDup (Permutation_sym (object_order_perm _ _ _ _))),
             discovered_NoDup.
  split; [|split].
  - unfold newmtl_names, mapi.
    apply (mapi_from_NoDup (fun j => matName (VNum (Z.of_nat j)) name)).
    intros a b H. apply matName_inj in H. injection H as H. now apply Nat2Z.inj.
  - unfold usemtl_names. rewrite values_byColor_of, map_map. simpl.
    apply NoDup_map_injective; [|assumption]. intros a b. apply matName_inj.
  - apply NoDup_map_injective; [|assumption].
    intros a b H. apply append_cancel_l in H. apply (append_cancel_l "-obj-") in H.
    now apply ToString_inj.
Qed.

(** ** The dimensions *)

Lemma byte_of_N_value (n : N) : (n < 256)%N -> Byte.to_N (byte_of_N n) = n.
Proof.
  intros Hn. unfold byte_of_N. destruct (Byte.of_N n) as [b|] eqn:Hb.
  - now apply Byte.to_of_N.
  - apply Byte.of_N_None_iff in Hb. lia.
Qed.

Lemma byte_at_app (prefix rest : Buffer) (k : nat) :
  byte_at (prefix ++ rest) (length prefix + k) = byte_at rest k.
Proof. unfold byte_at. now rewrite app_nth2_plus. Qed.

(** X20: [readUInt32LE] reads the four bytes at the offset with the least
    significant first: it gives back a number below 2^32 from its four
    bytes, wherever they stand in the buffer, and every number it returns is
    below 2^32. *)
Theorem readUInt32LE_little_endian (prefix rest : Buffer) (n : N) :
  (n < 2 ^ 32)%N ->
  readUInt32LE (prefix ++ uint32le n ++ rest) (length prefix) = Normal n
  /\ (forall buf offset m, readUInt32LE buf offset = Normal m -> (m < 2 ^ 32)%N).
Proof.
  intros Hn. split.
  - unfold readUInt32LE.
    destruct (Nat.ltb_spec (length (prefix ++ uint32le n ++ rest)) (length prefix + 4)) as [H|_].
    { rewrite !length_app in H. simpl in H. lia. }
    rewrite <- (Nat.add_0_r (length prefix)) at 1.
    rewrite !byte_at_app. unfold byte_at. cbn [uint32le List.app nth].
    pose proof (N.mod_upper_bound n 256) as H0.
    pose proof (N.mod_upper_bound (n / 256) 256) as H1.
    pose proof (N.mod_upper_bound (n / 256 / 256) 256) as H2.
    pose proof (N.mod_upper_bound (n / 256 / 256 / 256) 256) as H3.
    rewrite !byte_of_N_value by lia.
    pose proof (N.div_mod' n 256). pose proof (N.div_mod' (n / 256) 256).
    pose proof (N.div_mod' (n / 256 / 256) 256).
    pose proof (N.div_mod' (n / 256 / 256 / 256) 256).
    f_equal. change (2 ^ 8)%N with 256%N. change (2 ^ 16)%N with 65536%N.
    change (2 ^ 24)%N with 16777216%N. change (2 ^ 32)%N with 4294967296%N in Hn.
    assert (n / 256 / 256 / 256 / 256 = 0)%N.
    { apply N.div_small_iff; [lia|].
      repeat (apply N.Div0.div_lt_upper_bound). lia. }
    lia.
  - intros buf offset m Hm. unfold readUInt32LE in Hm.
    destruct (length buf <? offset + 4); [destruct (length buf <? 4); discriminate|].
    injection Hm as <-. unfold byte_at.
    pose proof (Byte.to_N_bounded (nth offset buf x00)).
    pose proof (Byte.to_N_bounded (nth (offset + 1) buf x00)).
    pose proof (Byte.to_N_bounded (nth (offset + 2) buf x00)).
    pose proof (Byte.to_N_bounded (nth (offset + 3) buf x00)).
    change (2 ^ 8)%N with 256%N. change (2 ^ 16)%N with 65536%N.
    change (2 ^ 24)%N with 16777216%N. change (2 ^ 32)%N with 4294967296%N.
    lia.
Qed.

Lemma readUInt32LE_little_endian_witness :
  readUInt32LE ([xff] ++ uint32le 305419896 ++ [x00]) 1 = Normal 305419896%N.
Proof.
  destruct (readUInt32LE_little_endian [xff] [x00] 305419896) as [Hread _].
  - reflexivity.
  - exact Hread.
Defined.

(** ** The command line *)

Lemma printHelp_trace (P : platform) (t : list event) :
  printHelp P t = (t ++ usage P, inl tt).
Proof.
  unfold printHelp, and_then, console_log, usage. cbn [fst snd].
  now rewrite <- !app_assoc.
Qed.

Lemma convertCub_short_throws (data : Buffer) (name : string) :
  length data < 12 -> exists e, convertCub data name = Throw e.
Proof.
  intros Hlen. unfold convertCub, readUInt32LE.
  destruct (Nat.ltb_spec (length data) (0 + 4)).
  - destruct (length data <? 4); eexists; reflexivity.
  - destruct (Nat.ltb_spec (length data) 4); [lia|].
    destruct (Nat.ltb_spec (length data) (4 + 4)); [eexists; reflexivity|].
    destruct (Nat.ltb_spec (length data) (8 + 4)); [eexists; reflexivity | lia].
Qed.

Lemma main_start (P : platform) (k : proc unit) :
  ((if is_help (nth_error (arguments P) 0) then printHelp P else ret tt) ;; k) []
  = k (help_first P).
Proof.
  unfold and_then, help_first.
  destruct (is_help (nth_error (arguments P) 0)); [now rewrite printHelp_trace | reflexivity].
Qed.

(** The run once the input file and the output folder have passed the
    checks. *)
Lemma main_valid (P : platform) (file : string) :
  valid_paths P file ->
  run_main P
  = and_then (fs_readFileSync P file) (fun content =>
      let name := path_basename_ext P file (path_extname P file) in
      and_then (call (convertCub content name)) (fun r =>
        fs_writeFileSync P (path_join P (out_folder P file) (name ++ ".obj")) (obj r) ;;
        fs_writeFileSync P (path_join P (out_folder P file) (name ++ ".mtl")) (mtl r) ;;
        console_log "Done!"))
      (help_first P ++ [Stdout ("Output folder is " ++ path_resolve P (out_folder P file))%string]).
Proof.
  intros (Hfile & Hexists & Hisfile & Hout & Hdir).
  unfold run_main, main. rewrite main_start, Hfile.
  fold (out_folder P file).
  unfold and_then at 1. rewrite Hexists, Hisfile. cbn [negb orb ret].
  unfold and_then at 1. rewrite Hout, Hdir. cbn [negb orb ret].
  unfold and_then at 1. unfold console_log at 1. reflexivity.
Qed.

(** X21: without a first argument, or with an empty one, the run prints
    that no file is provided and the usage, and exits with code 1. *)
Theorem main_without_file (P : platform) :
  truthy (nth_error (arguments P) 0) = None ->
  run_main P = (Stderr "No file provided" :: usage P, inr (Exited 1)).
Proof.
  intros Hnone. unfold run_main, main. rewrite main_start, Hnone.
  assert (Hhelp : help_first P = []).
  { unfold help_first. destruct (nth_error (arguments P) 0) as [[|c s]|]; try reflexivity.
    discriminate. }
  rewrite Hhelp. unfold and_then, console_error. cbn [List.app].
  rewrite printHelp_trace. reflexivity.
Qed.

Lemma main_without_file_witness :
  run_main (example_platform [] [])
  = (Stderr "No file provided" :: usage (example_platform [] []), inr (Exited 1)).
Proof. apply (main_without_file (example_platform [] [])). reflexivity. Defined.

(** X22: asking for the help does not end the run: after the usage the
    flag is taken for the input file, and unless a file of that name is
    there the run reports an invalid file and exits with code 1. *)
Theorem main_help_goes_on (P : platform) (flag : string) :
  nth_error (arguments P) 0 = Some flag ->
  flag = "-h" \/ flag = "--help" ->
  existsSync P flag && isFile P flag = false ->
  run_main P = (usage P ++ [Stderr "The povided file is invalid"], inr (Exited 1)).
Proof.
  intros Harg Hflag Hnofile. unfold run_main, main. rewrite main_start.
  assert (Hhelp : help_first P = usage P).
  { unfold help_first. rewrite Harg. now destruct Hflag as [-> | ->]. }
  assert (Htruthy : truthy (nth_error (arguments P) 0) = Some flag).
  { rewrite Harg. now destruct Hflag as [-> | ->]. }
  rewrite Hhelp, Htruthy. unfold and_then at 1.
  assert (Hcheck : negb (existsSync P flag) || negb (isFile P flag) = true).
  { destruct (existsSync P flag), (isFile P flag); try reflexivity. discriminate. }
  rewrite Hcheck. reflexivity.
Qed.

Lemma main_help_goes_on_witness :
  run_main (example_platform ["--help"] [])
  = (usage (example_platform ["--help"] []) ++ [Stderr "The povided file is invalid"],
     inr (Exited 1)).
Proof.
  apply (main_help_goes_on (example_platform ["--help"] []) "--help").
  - reflexivity.
  - now right.
  - reflexivity.
Defined.

(** X23: when the paths pass the checks, the file is read, the conversion
    returns and the two writes go through, the run prints the output folder,
    writes the object text to [<name>.obj] and then the material text to
    [<name>.mtl] in that folder, prints [Done!] and ends; the folder is the
    second argument, or the folder of the input file without one. *)
Theorem main_writes_both_files (P : platform) (file : string) (content : Buffer)
    (r : converted) :
  valid_paths P file ->
  readFileSync P file = inl content ->
  let name := path_basename_ext P file (path_extname P file) in
  let outOBJ := path_join P (out_folder P file) (name ++ ".obj") in
  let outMTL := path_join P (out_folder P file) (name ++ ".mtl") in
  convertCub content name = Normal r ->
  (forall t path text, writeFileSync P t path text = None) ->
  run_main P
  = (help_first P
     ++ [ Stdout ("Output folder is " ++ path_resolve P (out_folder P file))%string;
          Written outOBJ (obj r);
          Written outMTL (mtl r);
          Stdout "Done!" ],
     inl tt).
Proof.
  intros Hvalid Hread name outOBJ outMTL Hconv Hwrite.
  rewrite (main_valid P file Hvalid).
  unfold and_then, fs_readFileSync, call, fs_writeFileSync, console_log.
  rewrite Hread. fold name. rewrite Hconv, !Hwrite.
  unfold outOBJ, outMTL. now rewrite <- !app_assoc.
Qed.

Lemma example_conversion : convertCub example_file "a" = Normal example_result.
Proof. vm_compute. reflexivity. Qed.

Lemma main_writes_both_files_witness :
  run_main (example_platform ["/in/a.cub"] example_file)
  = ([ Stdout "Output folder is /in";
       Written "/in/a.obj" (obj example_result);
       Written "/in/a.mtl" (mtl example_result);
       Stdout "Done!" ], inl tt).
Proof.
  exact (main_writes_both_files (example_platform ["/in/a.cub"] example_file)
           "/in/a.cub" example_file example_result
           (conj eq_refl (conj eq_refl (conj eq_refl (conj eq_refl eq_refl))))
           eq_refl example_conversion (fun _ _ _ => eq_refl)).
Defined.

(** X24: an input file of fewer than 12 bytes ends the run with the range
    error of the conversion, uncaught, after the line about the output
    folder; nothing is written. *)
Theorem main_short_file (P : platform) (file : string) (content : Buffer) :
  valid_paths P file ->
  readFileSync P file = inl content ->
  length content < 12 ->
  exists e,
    run_main P
    = (help_first P ++ [Stdout ("Output folder is " ++ path_resolve P (out_folder P file))%string],
       inr (Uncaught (RangeFailure e))).
Proof.
  intros Hvalid Hread Hshort.
  destruct (convertCub_short_throws content (path_basename_ext P file (path_extname P file)) Hshort)
    as [e He].
  exists e. rewrite (main_valid P file Hvalid).
  unfold and_then, fs_readFileSync, call. rewrite Hread. cbn zeta. rewrite He. reflexivity.
Qed.

Lemma main_short_file_witness :
  exists e,
    run_main (example_platform ["/in/a.cub"] [x01; x00; x00])
    = ([Stdout "Output folder is /in"], inr (Uncaught (RangeFailure e))).
Proof.
  apply (main_short_file (example_platform ["/in/a.cub"] [x01; x00; x00]) "/in/a.cub"
           [x01; x00; x00]).
  - repeat split.
  - reflexivity.
  - simpl. lia.
Defined.

(** X25: the object text is written first: when its write goes through
    and the write of the material text fails, the run ends with the error of
    that write, the [.obj] file is there without its [.mtl] file, and [Done!]
    is not printed. *)
Theorem main_second_write_fails (P : platform) (file : string) (content : Buffer)
    (r : converted) (code : string) :
  valid_paths P file ->
  readFileSync P file = inl content ->
  let name := path_basename_ext P file (path_extname P file) in
  let outOBJ := path_join P (out_folder P file) (name ++ ".obj") in
  let outMTL := path_join P (out_folder P file) (name ++ ".mtl") in
  let before := help_first P
                ++ [Stdout ("Output folder is " ++ path_resolve P (out_folder P file))%string] in
  convertCub content name = Normal r ->
  writeFileSync P before outOBJ (obj r) = None ->
  writeFileSync P (before ++ [Written outOBJ (obj r)]) outMTL (mtl r) = Some code ->
  run_main P
  = (before ++ [Written outOBJ (obj r)], inr (Uncaught (SystemFailure code))).
Proof.
  intros Hvalid Hread name outOBJ outMTL before Hconv Hfirst Hsecond.
  rewrite (main_valid P file Hvalid).
  unfold and_then, fs_readFileSync, call, fs_writeFileSync.
  rewrite Hread. fold name. rewrite Hconv. fold outOBJ outMTL before.
  now rewrite Hfirst, Hsecond.
Qed.

Lemma main_second_write_fails_witness :
  run_main (mtl_is_a_folder example_file)
  = ([Stdout "Output folder is /in"; Written "/in/a.obj" (obj example_result)],
     inr (Uncaught (SystemFailure "EISDIR"))).
Proof.
  exact (main_second_write_fails (mtl_is_a_folder example_file)
           "/in/a.cub" example_file example_result "EISDIR"
           (conj eq_refl (conj eq_refl (conj eq_refl (conj eq_refl eq_refl))))
           eq_refl example_conversion eq_refl eq_refl).
Defined.

Lemma usage_not_written (P : platform) : forallb (fun e => negb (is_written e)) (usage P) = true.
Proof. reflexivity. Qed.

Lemma help_first_not_written (P : platform) :
  forallb (fun e => negb (is_written e)) (help_first P) = true.
Proof. unfold help_first. now destruct (is_help _). Qed.

(** What the run is when a check of [main] fails, and what it is
    otherwise. *)
Lemma main_checks (P : platform) :
  (exists t, run_main P = (t, inr (Exited 1))
             /\ forallb (fun e => negb (is_written e)) t = true)
  \/ (exists file, valid_paths P file).
Proof.
  destruct (truthy (nth_error (arguments P) 0)) as [file|] eqn:Hfile.
  - destruct (existsSync P file && isFile P file) eqn:Hin.
    + apply andb_true_iff in Hin as [Hexists Hisfile].
      destruct (existsSync P (out_folder P file) && isDirectory P (out_folder P file)) eqn:Hout.
      * apply andb_true_iff in Hout as [Hout Hdir].
        right. exists file. repeat split; assumption.
      * left. exists (help_first P ++ [Stderr "The povided output directory is invalid"]).
        split.
        -- unfold run_main, main. rewrite main_start, Hfile. fold (out_folder P file).
           unfold and_then at 1. rewrite Hexists, Hisfile. cbn [negb orb ret].
           unfold and_then at 1.
           assert (Hcheck : negb (existsSync P (out_folder P file))
                            || negb (isDirectory P (out_folder P file)) = true).
           { destruct (existsSync P (out_folder P file)), (isDirectory P (out_folder P file));
               try reflexivity; discriminate. }
           now rewrite Hcheck.
        -- now rewrite forallb_app, help_first_not_written.
    + left. exists (help_first P ++ [Stderr "The povided file is invalid"]). split.
      * unfold run_main, main. rewrite main_start, Hfile. unfold and_then at 1.
        assert (Hcheck : negb (existsSync P file) || negb (isFile P file) = true).
        { destruct (existsSync P file), (isFile P file); try reflexivity; discriminate. }
        now rewrite Hcheck.
      * now rewrite forallb_app, help_first_not_written.
  - left. exists (Stderr "No file provided" :: usage P). split; [|reflexivity].
    unfold run_main, main. rewrite main_start, Hfile.
    assert (Hhelp : help_first P = []).
    { unfold help_first. destruct (nth_error (arguments P) 0) as [[|c s]|]; try reflexivity.
      discriminate. }
    rewrite Hhelp. unfold and_then, console_error. cbn [List.app].
    now rewrite printHelp_trace.
Qed.

Lemma valid_paths_file (P : platform) (file file' : string) :
  valid_paths P file -> valid_paths P file' -> file = file'.
Proof. intros (H & _) (H' & _). congruence. Qed.

(** X26: a run that ends in [process.exit] ends with code 1 and has
    written nothing. *)
Theorem main_exit_writes_nothing (P : platform) (t : list event) (code : Z) :
  run_main P = (t, inr (Exited code)) ->
  code = 1%Z /\ forall path text, ~ In (Written path text) t.
Proof.
  intros Hrun.
  destruct (main_checks P) as [(t' & Hrun' & Hnone)|(file & Hvalid)].
  - rewrite Hrun' in Hrun. injection Hrun as <- <-. split; [reflexivity|].
    intros path text Hin. rewrite forallb_forall in Hnone.
    now apply Hnone in Hin.
  - exfalso. rewrite (main_valid P file Hvalid) in Hrun.
    unfold and_then, fs_readFileSync, call, fs_writeFileSync, console_log in Hrun.
    destruct (readFileSync P file); [|discriminate].
    destruct (convertCub _ _); try discriminate.
    destruct (writeFileSync P _ _ _); [discriminate|].
    destruct (writeFileSync P _ _ _); discriminate.
Qed.

Lemma main_exit_writes_nothing_witness :
  run_main (example_platform [] [])
  = (Stderr "No file provided" :: usage (example_platform [] []), inr (Exited 1))
  /\ (1%Z = 1%Z
      /\ forall path text,
           ~ In (Written path text)
                (Stderr "No file provided" :: usage (example_platform [] []))).
Proof.
  split; [reflexivity|].
  apply (main_exit_writes_nothing (example_platform [] []) _ 1). reflexivity.
Defined.

(** X27: the run writes nothing but the two texts of the conversion:
    every write is that of the object text to [<name>.obj] or of the
    material text to [<name>.mtl] in the output folder, after the paths have
    passed the checks, the file has been read and the conversion has
    returned. *)
Theorem main_writes_only_results (P : platform) (path text : string) :
  In (Written path text) (fst (run_main P)) ->
  exists file content r,
    valid_paths P file
    /\ readFileSync P file = inl content
    /\ convertCub content (path_basename_ext P file (path_extname P file)) = Normal r
    /\ ((path = path_join P (out_folder P file)
                  (path_basename_ext P file (path_extname P file) ++ ".obj")
         /\ text = obj r)
        \/ (path = path_join P (out_folder P file)
                     (path_basename_ext P file (path_extname P file) ++ ".mtl")
            /\ text = mtl r)).
Proof.
  intros Hin.
  destruct (main_checks P) as [(t' & Hrun' & Hnone)|(file & Hvalid)].
  - rewrite Hrun' in Hin. simpl in Hin. rewrite forallb_forall in Hnone.
    now apply Hnone in Hin.
  - rewrite (main_valid P file Hvalid) in Hin.
    pose proof (help_first_not_written P) as Hhelp. rewrite forallb_forall in Hhelp.
    assert (Hbefore : forall s, ~ In (Written path text) (help_first P ++ [Stdout s])).
    { intros s H. apply in_app_or in H as [H|[H|[]]]; [|discriminate].
      now apply Hhelp in H. }
    unfold and_then, fs_readFileSync, call, fs_writeFileSync, console_log in Hin.
    destruct (readFileSync P file) as [content|] eqn:Hread;
      [|now apply Hbefore in Hin].
    destruct (convertCub content _) as [r| |] eqn:Hconv;
      try (now apply Hbefore in Hin).
    exists file, content, r. repeat (split; [assumption|]).
    destruct (writeFileSync P _ _ _); [now apply Hbefore in Hin|].
    destruct (writeFileSync P _ _ _); simpl in Hin.
    + apply in_app_or in Hin as [Hin|[Hin|[]]]; [now apply Hbefore in Hin|].
      left. injection Hin as <- <-. split; reflexivity.
    + apply in_app_or in Hin as [Hin|[Hin|[]]]; [|discriminate].
      apply in_app_or in Hin as [Hin|[Hin|[]]].
      * apply in_app_or in Hin as [Hin|[Hin|[]]]; [now apply Hbefore in Hin|].
        left. injection Hin as <- <-. split; reflexivity.
      * right. injection Hin as <- <-. split; reflexivity.
Qed.

Lemma example_run :
  fst (run_main (example_platform ["/in/a.cub"] example_file))
  = [ Stdout "Output folder is /in";
      Written "/in/a.obj" (obj example_result);
      Written "/in/a.mtl" (mtl example_result);
      Stdout "Done!" ].
Proof.
  rewrite (main_valid (example_platform ["/in/a.cub"] example_file) "/in/a.cub")
    by (repeat split).
  unfold and_then, fs_readFileSync, call, fs_writeFileSync, console_log.
  cbn [readFileSync example_platform String.eqb Ascii.eqb Bool.eqb path_basename_ext
       path_extname].
  rewrite example_conversion. reflexivity.
Qed.

Lemma main_writes_only_results_witness :
  exists file content r,
    valid_paths (example_platform ["/in/a.cub"] example_file) file
    /\ readFileSync (example_platform ["/in/a.cub"] example_file) file = inl content
    /\ convertCub content "a" = Normal r
    /\ (("/in/a.obj" = ("/in" ++ "/" ++ "a" ++ ".obj")%string /\ obj example_result = obj r)
        \/ ("/in/a.obj" = ("/in" ++ "/" ++ "a" ++ ".mtl")%string /\ obj example_result = mtl r)).
Proof.
  apply (main_writes_only_results (example_platform ["/in/a.cub"] example_file)
           "/in/a.obj" (obj example_result)).
  rewrite example_run. cbn [In]. tauto.
Defined.
